(** * Cortex chunk access layer on Bigtable: a shallow embedding

    The development follows the Go sources of package [gcp]:
    - [table_client.go]: the table lifecycle manager and its metadata cache
      ([ListTables], [CreateTable], [DeleteTable], ...);
    - the object client: [PutChunks], [GetChunks], [DeleteChunk], [NewScanner].

    Go values are modelled as follows.  A Go [error] value is an inhabitant of
    [error]; a possibly-nil error is an [option error].  A pair [(v, err)]
    returned by a fallible call is a sum [V + error].  Go maps are [gmap]s,
    slices are lists, [time.Time] and [time.Duration] are integers.  Methods
    with side effects on the receiver or on the backing store pass the state
    explicitly. *)

From Stdlib Require Import ZArith Lia.
From stdpp Require Import gmap strings list sorting pretty.

#[global] Set Warnings "-clear-no-such-hyp".

(** ** Errors *)

(** gRPC status codes ([google.golang.org/grpc/codes]); only the ones the
    backing store model produces are listed. *)
Inductive Code :=
  | CodeCanceled
  | CodeUnknown
  | CodeDeadlineExceeded
  | CodeNotFound
  | CodeAlreadyExists
  | CodeUnavailable.

#[global] Instance Code_eq_dec : EqDecision Code.
Proof. solve_decision. Defined.

(** The error values that flow through the package. *)
Inductive error :=
  | ErrStatus (code : Code) (msg : string)      (* a gRPC status error *)
  | ErrContextCanceled                          (* context.Canceled *)
  | ErrContextDeadlineExceeded                  (* context.DeadlineExceeded *)
  | ErrUnknownChunk (key : string)              (* "Got row for unknown chunk: %s" *)
  | ErrAsked (asked received : nat)             (* "Asked for %d chunks for Bigtable, received %d" *)
  | ErrMethodNotImplemented                     (* chunk.ErrMethodNotImplemented *)
  | ErrOther (msg : string)                     (* errors of the codec and of the schema *)
  | ErrWrap (cause : error) (msg : string)      (* errors.Wrap(cause, msg) *)
  | ErrWithStack (cause : error).               (* errors.WithStack(cause) *)

#[global] Instance error_eq_dec : EqDecision error.
Proof. solve_decision. Defined.

(** [status.FromError(err)]: the status carried by [err], when [err] is a
    status error.  Errors wrapped by [pkg/errors] do not carry one. *)
Definition status_FromError (err : error) : option Code :=
  match err with
  | ErrStatus c _ => Some c
  | _ => None
  end.

Definition bytes := list Byte.byte.

(** ** The backing store

    An executable model of the part of Bigtable the package talks to: named
    tables, each with its column families and its rows.  Every remote call
    first consults [bt_faults], a queue of transport outcomes: [Some e] makes
    the call fail with [e] and leaves the tables untouched, [None] (or an empty
    queue) lets it through. *)
Module Bigtable.

(** [bigtable.ReadItem]: one cell of a row. *)
Record ReadItem := {
  ri_Row : string;
  ri_Column : string;
  ri_Timestamp : Z;
  ri_Value : bytes;
}.

(** [bigtable.Row]: family name to the cells of that family. *)
Abbreviation Row := (gmap string (list ReadItem)).

(** [bigtable.FamilyInfo]. *)
Record FamilyInfo := {
  fi_Name : string;
  fi_GCPolicy : string;
}.

(** [bigtable.TableInfo]. *)
Record TableInfo := {
  ti_Families : list string;
  ti_FamilyInfos : list FamilyInfo;
}.

Record Table := {
  tb_families : list FamilyInfo;
  tb_rows : gmap string Row;
}.

Record t := {
  bt_tables : gmap string Table;
  bt_faults : list (option error);
  bt_clock : Z;                       (* the server's time, in microseconds *)
}.

(** [bigtable.ServerTime]: the timestamp that asks the server to stamp the
    cell with its own time. *)
Definition ServerTime : Z := (-1)%Z.

(** One cell mutation ([Mutation.Set] appends one). *)
Inductive MutOp :=
  | OpSetCell (family column : string) (ts : Z) (value : bytes).

(** [bigtable.Mutation]: the operations accumulated so far. *)
Abbreviation Mutation := (list MutOp).

Definition NewMutation : Mutation := [].

Definition Set_ (m : Mutation) (family column : string) (ts : Z) (value : bytes)
  : Mutation :=
  m ++ [OpSetCell family column ts value].

Definition with_tables (b : t) (ts : gmap string Table) : t :=
  {| bt_tables := ts; bt_faults := bt_faults b; bt_clock := bt_clock b |}.

(** The transport: pops the next outcome of the fault queue. *)
Definition rpc (b : t) : t * option error :=
  match bt_faults b with
  | [] => (b, None)
  | f :: fs =>
      ({| bt_tables := bt_tables b; bt_faults := fs; bt_clock := bt_clock b |}, f)
  end.

Definition notFound (name : string) : error :=
  ErrStatus CodeNotFound name.
Definition alreadyExists (name : string) : error :=
  ErrStatus CodeAlreadyExists name.

Definition family_names (fs : list FamilyInfo) : list string :=
  fi_Name <$> fs.

(** *** Admin calls *)

(** [AdminClient.Tables]. *)
Definition Tables (b : t) : t * (list string + error) :=
  match rpc b with
  | (b', Some e) => (b', inr e)
  | (b', None) => (b', inl (map_to_list (bt_tables b')).*1)
  end.

(** [AdminClient.TableInfo]. *)
Definition TableInfo_ (b : t) (table : string) : t * (TableInfo + error) :=
  match rpc b with
  | (b', Some e) => (b', inr e)
  | (b', None) =>
      match bt_tables b' !! table with
      | None => (b', inr (notFound table))
      | Some tb =>
          (b', inl {| ti_Families := family_names (tb_families tb);
                      ti_FamilyInfos := tb_families tb |})
      end
  end.

(** [AdminClient.CreateTable]. *)
Definition CreateTable (b : t) (table : string) : t * option error :=
  match rpc b with
  | (b', Some e) => (b', Some e)
  | (b', None) =>
      match bt_tables b' !! table with
      | Some _ => (b', Some (alreadyExists table))
      | None =>
          (with_tables b'
             (<[table := {| tb_families := []; tb_rows := ∅ |}]> (bt_tables b')),
           None)
      end
  end.

(** [AdminClient.CreateColumnFamily]. *)
Definition CreateColumnFamily (b : t) (table family : string) : t * option error :=
  match rpc b with
  | (b', Some e) => (b', Some e)
  | (b', None) =>
      match bt_tables b' !! table with
      | None => (b', Some (notFound table))
      | Some tb =>
          if decide (family ∈ family_names (tb_families tb))
          then (b', Some (alreadyExists family))
          else
            (with_tables b'
               (<[table := {| tb_families :=
                                tb_families tb ++
                                  [{| fi_Name := family; fi_GCPolicy := EmptyString |}];
                              tb_rows := tb_rows tb |}]> (bt_tables b')),
             None)
      end
  end.

(** [AdminClient.DeleteTable]. *)
Definition DeleteTable (b : t) (table : string) : t * option error :=
  match rpc b with
  | (b', Some e) => (b', Some e)
  | (b', None) =>
      match bt_tables b' !! table with
      | None => (b', Some (notFound table))
      | Some _ => (with_tables b' (delete table (bt_tables b')), None)
      end
  end.

(** *** Data calls *)

(** [Row.Key]: the row key recorded in the first cell found. *)
Definition Row_Key (r : Row) : string :=
  match mjoin (map_to_list r).*2 with
  | item :: _ => ri_Row item
  | [] => EmptyString
  end.

(** Cells of a family are kept by column, newest first; a write to an
    existing (column, timestamp) replaces the cell. *)
Definition cell_before (a b : ReadItem) : bool :=
  String.ltb (ri_Column a) (ri_Column b)
  || (String.eqb (ri_Column a) (ri_Column b) && (ri_Timestamp b <? ri_Timestamp a)%Z).

Definition same_cell (a b : ReadItem) : bool :=
  String.eqb (ri_Column a) (ri_Column b) && (ri_Timestamp a =? ri_Timestamp b)%Z.

Fixpoint insert_cell (cell : ReadItem) (cells : list ReadItem) : list ReadItem :=
  match cells with
  | [] => [cell]
  | c :: cs =>
      if same_cell cell c then cell :: cs
      else if cell_before cell c then cell :: c :: cs
      else c :: insert_cell cell cs
  end.

Definition apply_op (clock : Z) (key : string) (r : Row) (op : MutOp) : Row :=
  match op with
  | OpSetCell family column ts value =>
      let cell :=
        {| ri_Row := key;
           ri_Column := family +:+ ":" +:+ column;
           ri_Timestamp := if decide (ts = ServerTime) then clock else ts;
           ri_Value := value |} in
      <[family := insert_cell cell (default [] (r !! family))]> r
  end.

Definition op_family (op : MutOp) : string :=
  match op with OpSetCell family _ _ _ => family end.

(** One entry of a bulk mutation: rejected as a whole when it names a family
    the table does not have. *)
Definition apply_entry (clock : Z) (families : list string)
    (rows : gmap string Row) (key : string) (m : Mutation)
  : gmap string Row * option error :=
  match list_find (λ op, op_family op ∉ families) m with
  | Some (_, op) => (rows, Some (ErrStatus CodeNotFound (op_family op)))
  | None =>
      (<[key := foldl (apply_op clock key) (default ∅ (rows !! key)) m]> rows, None)
  end.

Fixpoint apply_entries (clock : Z) (families : list string)
    (rows : gmap string Row) (entries : list (string * Mutation))
  : gmap string Row * list (option error) :=
  match entries with
  | [] => (rows, [])
  | (key, m) :: entries' =>
      let '(rows1, e) := apply_entry clock families rows key m in
      let '(rows2, es) := apply_entries clock families rows1 entries' in
      (rows2, e :: es)
  end.

(** [Table.ApplyBulk]: the per-entry errors and the error of the call. *)
Definition ApplyBulk (b : t) (table : string)
    (rowKeys : list string) (muts : list Mutation)
  : t * list (option error) * option error :=
  if decide (length rowKeys ≠ length muts)
  then (b, [], Some (ErrOther "mismatched rowKeys and mutation array lengths"))
  else
    match rpc b with
    | (b', Some e) => (b', [], Some e)
    | (b', None) =>
        match bt_tables b' !! table with
        | None => (b', [], Some (notFound table))
        | Some tb =>
            let '(rows', errs) :=
              apply_entries (bt_clock b') (family_names (tb_families tb))
                (tb_rows tb) (zip rowKeys muts) in
            (with_tables b'
               (<[table := {| tb_families := tb_families tb; tb_rows := rows' |}]>
                  (bt_tables b')),
             errs, None)
        end
    end.

(** The rows of a table that a row list asks for: each requested row that
    exists, once, in key order, whatever the order of (and repetitions in)
    the row list. *)
Definition deliver (tb : Table) (rowList : list string) : list Row :=
  omap (λ key, tb_rows tb !! key) (merge_sort String.le (remove_dups rowList)).

(** [Table.ReadRows] on a [RowList]: the rows to hand to the callback and the
    error of the call. *)
Definition ReadRows (b : t) (table : string) (rowList : list string)
  : t * list Row * option error :=
  match rpc b with
  | (b', Some e) => (b', [], Some e)
  | (b', None) =>
      match bt_tables b' !! table with
      | None => (b', [], Some (notFound table))
      | Some tb => (b', deliver tb rowList, None)
      end
  end.

End Bigtable.

(** ** Package constants and collaborators

    The sources refer to constants of the package ([columnFamily], [column],
    [maxRowReads]) and to collaborators from package [chunk] (the chunk codec,
    the external key and the schema's table routing) whose declarations live
    in other files.  They are taken as an interface; everything below is
    stated for any implementation of it. *)

(** [chunk.Chunk], with the fields the sources read. *)
Record Chunk := {
  Fingerprint : Z;
  UserID : string;
  From : Z;
  Through : Z;
  Metric : list (string * string);
  Encoding : Z;
  Data : bytes;
}.

(** [chunk.TableDesc]; only the name is read. *)
Record TableDesc := {
  td_Name : string;
}.

Class Package := {
  columnFamily : string;
  column : string;
  maxRowReads : nat;
  (* chunk.Chunk.Encoded *)
  Encoded : Chunk → bytes + error;
  (* chunk.Chunk.ExternalKey *)
  ExternalKey : Chunk → string;
  (* chunk.Chunk.Decode: the decoded chunk, or an error *)
  Decode : Chunk → bytes → Chunk + error;
  (* chunk.SchemaConfig.ChunkTableFor *)
  ChunkTableFor : Z → string + error;
}.

(** ** The table client ([table_client.go]) *)

Record Config := {
  TableCacheEnabled : bool;
  TableCacheExpiration : Z;
}.

(** The receiver of the table client's methods.  The admin client it holds is
    a handle on the backing store, whose state is passed separately. *)
Record tableClient := {
  cfg : Config;
  tableInfo : gmap string Bigtable.TableInfo;
  tableExpiration : Z;
}.

(** [NewTableClient]: an empty cache and the zero expiration time. *)
Definition NewTableClient (cfg : Config) : tableClient :=
  {| cfg := cfg; tableInfo := ∅; tableExpiration := 0 |}.

Definition with_tableInfo (c : tableClient) (m : gmap string Bigtable.TableInfo)
  : tableClient :=
  {| cfg := cfg c; tableInfo := m; tableExpiration := tableExpiration c |}.

(** [hasColumnFamily]: the loop over [infos], returning at the first match. *)
Fixpoint hasColumnFamily `{Package} (infos : list Bigtable.FamilyInfo) : bool :=
  match infos with
  | [] => false
  | family :: infos' =>
      if String.eqb (Bigtable.fi_Name family) columnFamily then true
      else hasColumnFamily infos'
  end.

(** The body of the [for _, table := range tables] loop of [ListTables],
    threading the receiver, the backing store and [output]. *)
Fixpoint ListTables_loop `{Package} (c : tableClient) (b : Bigtable.t)
    (tables : list string) (output : list string)
  : Bigtable.t * tableClient * (list string + error) :=
  match tables with
  | [] => (b, c, inl output)
  | table :: tables' =>
      let fetched :=
        match tableInfo c !! table with
        | Some info =>
            if negb (TableCacheEnabled (cfg c))
            then Bigtable.TableInfo_ b table
            else (b, inl info)
        | None => Bigtable.TableInfo_ b table
        end in
      match fetched with
      | (b', inr err) => (b', c, inr (ErrWrap err "client.TableInfo"))
      | (b', inl info) =>
          if hasColumnFamily (Bigtable.ti_FamilyInfos info)
          then ListTables_loop c b' tables' (output ++ [table])
          else ListTables_loop (with_tableInfo c (<[table := info]> (tableInfo c)))
                 b' tables' output
      end
  end.

(** [ListTables].  [now] and [now'] are the two readings of [time.Now()]. *)
Definition ListTables `{Package} (c : tableClient) (b : Bigtable.t) (now now' : Z)
  : Bigtable.t * tableClient * (list string + error) :=
  match Bigtable.Tables b with
  | (b', inr err) => (b', c, inr (ErrWrap err "client.Tables"))
  | (b', inl tables) =>
      let c' :=
        if (tableExpiration c <? now)%Z
        then {| cfg := cfg c; tableInfo := ∅;
                tableExpiration := (now' + TableCacheExpiration (cfg c))%Z |}
        else c in
      ListTables_loop c' b' tables []
  end.

(** [alreadyExistsError]. *)
Definition alreadyExistsError (err : error) : bool :=
  match status_FromError err with
  | Some code => bool_decide (code = CodeAlreadyExists)
  | None => false
  end.

(** The pattern [if err := call; err != nil { if !alreadyExistsError(err)
    { return errors.Wrap(err, msg) } }]: the error to return, if any. *)
Definition unlessAlreadyExists (r : option error) (msg : string) : option error :=
  match r with
  | Some err =>
      if negb (alreadyExistsError err) then Some (ErrWrap err msg) else None
  | None => None
  end.

(** [CreateTable]. *)
Definition CreateTable `{Package} (b : Bigtable.t) (desc : TableDesc)
  : Bigtable.t * option error :=
  let '(b1, r1) := Bigtable.CreateTable b (td_Name desc) in
  match unlessAlreadyExists r1 "client.CreateTable" with
  | Some err => (b1, Some err)
  | None =>
      let '(b2, r2) :=
        Bigtable.CreateColumnFamily b1 (td_Name desc) columnFamily in
      match unlessAlreadyExists r2 "client.CreateColumnFamily" with
      | Some err => (b2, Some err)
      | None => (b2, None)
      end
  end.

(** [DeleteTable]: the cache entry is evicted only when the store deleted the
    table. *)
Definition DeleteTable (c : tableClient) (b : Bigtable.t) (name : string)
  : Bigtable.t * tableClient * option error :=
  match Bigtable.DeleteTable b name with
  | (b', Some err) => (b', c, Some (ErrWrap err "client.DeleteTable"))
  | (b', None) => (b', with_tableInfo c (delete name (tableInfo c)), None)
  end.

(** [DescribeTable]. *)
Definition DescribeTable (name : string) : TableDesc * bool * option error :=
  ({| td_Name := name |}, true, None).

(** [UpdateTable]. *)
Definition UpdateTable (current expected : TableDesc) : option error := None.

(** The receivers that the exported functions can produce. *)
Inductive reachable `{Package} : tableClient → Prop :=
  | reach_new cfg0 : reachable (NewTableClient cfg0)
  | reach_ListTables c b now now' :
      reachable c → reachable (ListTables c b now now').1.2
  | reach_DeleteTable c b name :
      reachable c → reachable (DeleteTable c b name).1.2.

(** What the statements about the table client speak of. *)

(** No entry of the cache carries the required column family. *)
Definition cache_lacks_family `{Package} (m : gmap string Bigtable.TableInfo) : Prop :=
  ∀ table info, m !! table = Some info →
    hasColumnFamily (Bigtable.ti_FamilyInfos info) = false.

(** The tables of the store that have the family. *)
Definition store_has_family `{Package} (b : Bigtable.t) (table : string) : Prop :=
  ∃ tb, Bigtable.bt_tables b !! table = Some tb ∧
        hasColumnFamily (Bigtable.tb_families tb) = true.

(** ** The object client *)

(** *** [PutChunks] *)

(** The first loop of [PutChunks]: [keys] and [muts] per table, or the first
    error of the codec or of the schema. *)
Fixpoint PutChunks_group `{Package} (chunks : list Chunk)
    (keys : gmap string (list string))
    (muts : gmap string (list Bigtable.Mutation))
  : gmap string (list string) * gmap string (list Bigtable.Mutation) + error :=
  match chunks with
  | [] => inl (keys, muts)
  | c :: chunks' =>
      match Encoded c with
      | inr err => inr err
      | inl buf =>
          let key := ExternalKey c in
          match ChunkTableFor (From c) with
          | inr err => inr err
          | inl tableName =>
              let keys' :=
                <[tableName := default [] (keys !! tableName) ++ [key]]> keys in
              let mut := Bigtable.NewMutation in
              let mut := Bigtable.Set_ mut columnFamily column 0 buf in
              let muts' :=
                <[tableName := default [] (muts !! tableName) ++ [mut]]> muts in
              PutChunks_group chunks' keys' muts'
          end
      end
  end.

(** [for _, err := range errs]: the first non-nil entry. *)
Fixpoint first_error (errs : list (option error)) : option error :=
  match errs with
  | [] => None
  | Some err :: _ => Some err
  | None :: errs' => first_error errs'
  end.

(** The second loop of [PutChunks], over the tables in the order [tableNames]. *)
Fixpoint PutChunks_apply (b : Bigtable.t) (tableNames : list string)
    (keys : gmap string (list string))
    (muts : gmap string (list Bigtable.Mutation))
  : Bigtable.t * option error :=
  match tableNames with
  | [] => (b, None)
  | tableName :: tableNames' =>
      match Bigtable.ApplyBulk b tableName
              (default [] (keys !! tableName)) (default [] (muts !! tableName)) with
      | (b', _, Some err) => (b', Some err)
      | (b', errs, None) =>
          match first_error errs with
          | Some err => (b', Some err)
          | None => PutChunks_apply b' tableNames' keys muts
          end
      end
  end.

(** [PutChunks].  [range] is the order in which the Go runtime iterates over
    the keys of a map, which the language leaves open: it permutes the list of
    keys it is given. *)
Definition PutChunks `{Package} (range : list string → list string)
    (b : Bigtable.t) (chunks : list Chunk) : Bigtable.t * option error :=
  match PutChunks_group chunks ∅ ∅ with
  | inr err => (b, Some err)
  | inl (keys, muts) =>
      PutChunks_apply b (range (map_to_list keys).*1) keys muts
  end.

(** *** [GetChunks] *)

(** The first loop of [GetChunks]. *)
Fixpoint GetChunks_group `{Package} (input : list Chunk)
    (chunks : gmap string (gmap string Chunk))
    (keys : gmap string (list string))
  : gmap string (gmap string Chunk) * gmap string (list string) + error :=
  match input with
  | [] => inl (chunks, keys)
  | c :: input' =>
      match ChunkTableFor (From c) with
      | inr err => inr err
      | inl tableName =>
          let key := ExternalKey c in
          let keys' :=
            <[tableName := default [] (keys !! tableName) ++ [key]]> keys in
          let chunks' :=
            <[tableName := <[key := c]> (default ∅ (chunks !! tableName))]> chunks in
          GetChunks_group input' chunks' keys'
      end
  end.

(** [for i := 0; i < len(keys); i += maxRowReads]: the pages
    [keys[i:min(i+maxRowReads, len(keys))]].  The loop does not terminate when
    [maxRowReads] is 0 and [keys] is not empty; [None] stands for that. *)
Fixpoint pages_from `{Package} (fuel : nat) (i : nat) (keys : list string)
  : option (list (list string)) :=
  if decide (i < length keys)%nat then
    match fuel with
    | O => None
    | S fuel' =>
        let page :=
          take (Nat.min (i + maxRowReads) (length keys) - i) (drop i keys) in
        (page ::.) <$> pages_from fuel' (i + maxRowReads) keys
    end
  else Some [].

Definition pages `{Package} (keys : list string) : option (list (list string)) :=
  pages_from (length keys) 0 keys.

(** What a page goroutine does that others can observe. *)
Inductive Action :=
  | SendOut (c : Chunk)       (* outs <- chunk *)
  | SendErr (e : error)       (* errs <- err *)
  | Panic.                    (* a run-time panic, which ends the program *)

(** How the sequence of callbacks of one [ReadRows] call ends. *)
Inductive CallbackEnd :=
  | CbAll                     (* every row was accepted *)
  | CbStop (processingErr : error)
  | CbPanic.

(** The callback passed to [ReadRows], run over the rows delivered: the chunks
    sent on [outs] (so [receivedChunks] is their number) and how it ended. *)
Fixpoint callbacks `{Package} (chunks : gmap string Chunk) (rows : list Bigtable.Row)
  : list Chunk * CallbackEnd :=
  match rows with
  | [] => ([], CbAll)
  | row :: rows' =>
      match chunks !! Bigtable.Row_Key row with
      | None =>
          ([], CbStop (ErrWithStack (ErrUnknownChunk (Bigtable.Row_Key row))))
      | Some chunk =>
          match default [] (row !! columnFamily) !! 0%nat with
          | None => ([], CbPanic)          (* index out of range *)
          | Some item =>
              match Decode chunk (Bigtable.ri_Value item) with
              | inr err => ([], CbStop err)
              | inl chunk' =>
                  let '(sent, e) := callbacks chunks rows' in
                  (chunk' :: sent, e)
              end
          end
      end
  end.

(** The body of a page goroutine, given what [ReadRows] delivered and
    returned. *)
Definition page_actions `{Package} (chunks : gmap string Chunk) (page : list string)
    (rows : list Bigtable.Row) (err : option error) : list Action :=
  let '(sent, e) := callbacks chunks rows in
  (SendOut <$> sent) ++
  match e with
  | CbPanic => [Panic]
  | CbStop processingErr => [SendErr processingErr]
  | CbAll =>
      match err with
      | Some err => [SendErr (ErrWithStack err)]
      | None =>
          if decide (length sent < length page)%nat
          then [SendErr (ErrWithStack (ErrAsked (length page) (length sent)))]
          else []
      end
  end.

(** A page goroutine: started by the [go] statement and not yet run, or
    past its [ReadRows] call with the actions it still has to do. *)
Inductive Task :=
  | Spawned (table : string) (chunks : gmap string Chunk) (page : list string)
  | Running (todo : list Action).

(** The state of one [GetChunks] call and its goroutines. *)
Record State := {
  st_bt : Bigtable.t;
  st_tasks : list Task;
  st_len : nat;                     (* len(input) *)
  st_outs_cap : nat;                (* capacity of outs *)
  st_errs_cap : nat;                (* capacity of errs *)
  st_outs : list Chunk;             (* contents of outs, oldest first *)
  st_errs : list error;             (* contents of errs, oldest first *)
  st_ctx : option error;            (* ctx.Err() *)
  st_output : list Chunk;
  st_result : option (list Chunk + error);   (* what GetChunks returned *)
  st_panicked : bool;
}.

(** What the scheduler can pick next. *)
Inductive Event :=
  | EvGo (g : nat)                  (* goroutine g takes its next step *)
  | EvCancel (e : error)            (* the caller's context ends with e *)
  | EvRecvOut                       (* select: case c := <-outs *)
  | EvRecvErr                       (* select: case err := <-errs *)
  | EvRecvDone.                     (* select: case <-ctx.Done() *)

(** Field updates. *)
Definition with_tasks (s : State) (b : Bigtable.t) (tasks : list Task) : State :=
  {| st_bt := b; st_tasks := tasks; st_len := st_len s;
     st_outs_cap := st_outs_cap s; st_errs_cap := st_errs_cap s;
     st_outs := st_outs s; st_errs := st_errs s; st_ctx := st_ctx s;
     st_output := st_output s; st_result := st_result s;
     st_panicked := st_panicked s |}.

Definition with_outs (s : State) (outs : list Chunk) : State :=
  {| st_bt := st_bt s; st_tasks := st_tasks s; st_len := st_len s;
     st_outs_cap := st_outs_cap s; st_errs_cap := st_errs_cap s;
     st_outs := outs; st_errs := st_errs s; st_ctx := st_ctx s;
     st_output := st_output s; st_result := st_result s;
     st_panicked := st_panicked s |}.

Definition with_errs (s : State) (errs : list error) : State :=
  {| st_bt := st_bt s; st_tasks := st_tasks s; st_len := st_len s;
     st_outs_cap := st_outs_cap s; st_errs_cap := st_errs_cap s;
     st_outs := st_outs s; st_errs := errs; st_ctx := st_ctx s;
     st_output := st_output s; st_result := st_result s;
     st_panicked := st_panicked s |}.

Definition with_ctx (s : State) (ctx : option error) : State :=
  {| st_bt := st_bt s; st_tasks := st_tasks s; st_len := st_len s;
     st_outs_cap := st_outs_cap s; st_errs_cap := st_errs_cap s;
     st_outs := st_outs s; st_errs := st_errs s; st_ctx := ctx;
     st_output := st_output s; st_result := st_result s;
     st_panicked := st_panicked s |}.

Definition with_output (s : State) (output : list Chunk)
    (result : option (list Chunk + error)) : State :=
  {| st_bt := st_bt s; st_tasks := st_tasks s; st_len := st_len s;
     st_outs_cap := st_outs_cap s; st_errs_cap := st_errs_cap s;
     st_outs := st_outs s; st_errs := st_errs s; st_ctx := st_ctx s;
     st_output := output; st_result := result;
     st_panicked := st_panicked s |}.

Definition with_panicked (s : State) : State :=
  {| st_bt := st_bt s; st_tasks := st_tasks s; st_len := st_len s;
     st_outs_cap := st_outs_cap s; st_errs_cap := st_errs_cap s;
     st_outs := st_outs s; st_errs := st_errs s; st_ctx := st_ctx s;
     st_output := st_output s; st_result := st_result s;
     st_panicked := true |}.

(** One step of goroutine [g]; [None] when it cannot move (it has finished,
    or its send would block). *)
Definition step_go `{Package} (s : State) (g : nat) : option State :=
  match st_tasks s !! g with
  | None => None
  | Some (Spawned table chunks page) =>
      let '(b', rows, err) := Bigtable.ReadRows (st_bt s) table page in
      Some (with_tasks s b'
              (<[g := Running (page_actions chunks page rows err)]> (st_tasks s)))
  | Some (Running []) => None
  | Some (Running (SendOut c :: todo)) =>
      if decide (length (st_outs s) < st_outs_cap s)%nat then
        Some (with_outs
                (with_tasks s (st_bt s) (<[g := Running todo]> (st_tasks s)))
                (st_outs s ++ [c]))
      else None
  | Some (Running (SendErr e :: todo)) =>
      if decide (length (st_errs s) < st_errs_cap s)%nat then
        Some (with_errs
                (with_tasks s (st_bt s) (<[g := Running todo]> (st_tasks s)))
                (st_errs s ++ [e]))
      else None
  | Some (Running (Panic :: todo)) =>
      Some (with_panicked
              (with_tasks s (st_bt s) (<[g := Running todo]> (st_tasks s))))
  end.

(** One iteration of the gathering loop, taking the given [select] case;
    [None] when that case is not ready or the call has returned.  The loop
    ends, and [GetChunks] returns [output], once [len(input)] chunks have been
    received. *)
Definition step_select (s : State) (ev : Event) : option State :=
  match st_result s with
  | Some _ => None
  | None =>
      match ev with
      | EvRecvOut =>
          match st_outs s with
          | [] => None
          | c :: outs' =>
              let output := st_output s ++ [c] in
              Some (with_output (with_outs s outs') output
                      (if decide (length output < st_len s)%nat then None
                       else Some (inl output)))
          end
      | EvRecvErr =>
          match st_errs s with
          | [] => None
          | err :: errs' =>
              Some (with_output (with_errs s errs') (st_output s) (Some (inr err)))
          end
      | EvRecvDone =>
          match st_ctx s with
          | None => None
          | Some err => Some (with_output s (st_output s) (Some (inr err)))
          end
      | _ => None
      end
  end.

(** One step of the whole.  Nothing moves after a panic. *)
Definition step `{Package} (s : State) (ev : Event) : option State :=
  if st_panicked s then None
  else
    match ev with
    | EvGo g => step_go s g
    | EvCancel e =>
        match st_ctx s with
        | Some _ => None
        | None => Some (with_ctx s (Some e))
        end
    | _ => step_select s ev
    end.

Fixpoint run `{Package} (s : State) (sched : list Event) : option State :=
  match sched with
  | [] => Some s
  | ev :: sched' =>
      match step s ev with
      | None => None
      | Some s' => run s' sched'
      end
  end.

(** The [go] statements of one table: one task per page. *)
Definition spawn_table `{Package} (chunks : gmap string (gmap string Chunk))
    (entry : string * list string) : option (list Task) :=
  match pages entry.2 with
  | None => None
  | Some ps => Some (map (Spawned entry.1 (default ∅ (chunks !! entry.1))) ps)
  end.

(** [for tableName := range keys]: the tasks of all tables. *)
Fixpoint spawn_all `{Package} (chunks : gmap string (gmap string Chunk))
    (entries : list (string * list string)) : option (list Task) :=
  match entries with
  | [] => Some []
  | entry :: entries' =>
      match spawn_table chunks entry, spawn_all chunks entries' with
      | Some ts, Some ts' => Some (ts ++ ts')
      | _, _ => None
      end
  end.

(** [GetChunks] up to the gathering loop: the state in which the goroutines
    have been started, or [None] when the loop that starts them does not end.
    A routing error returns at once, with no goroutine started. *)
Definition GetChunks_start `{Package} (b : Bigtable.t) (ctx : option error)
    (input : list Chunk) : option State :=
  let n := length input in
  let mk tasks result :=
    {| st_bt := b; st_tasks := tasks; st_len := n;
       st_outs_cap := n; st_errs_cap := n;
       st_outs := []; st_errs := []; st_ctx := ctx;
       st_output := []; st_result := result; st_panicked := false |} in
  match GetChunks_group input ∅ ∅ with
  | inr err => Some (mk [] (Some (inr err)))
  | inl (chunks, keys) =>
      match spawn_all chunks (map_to_list keys) with
      | None => None
      | Some tasks =>
          Some (mk tasks (if decide (0 < n)%nat then None else Some (inl [])))
      end
  end.

(** [GetChunks] under the schedule [sched]: the state reached, in which
    [st_result] is what the call returned, if it has returned. *)
Definition GetChunks `{Package} (b : Bigtable.t) (ctx : option error)
    (input : list Chunk) (sched : list Event) : option State :=
  match GetChunks_start b ctx input with
  | None => None
  | Some s => run s sched
  end.

(** [DeleteChunk]. *)
Definition DeleteChunk (chunkID : string) : option error :=
  Some ErrMethodNotImplemented.

(** ** A sample implementation of the interface

    Used to run the code on concrete inputs: family "f", column "c", pages of
    [pageSize] keys, a codec that stores the payload as it is, keys of the
    form user/fingerprint:from:through and one table per 3600 time units. *)
Definition sample (pageSize : nat) : Package := {|
  columnFamily := "f";
  column := "c";
  maxRowReads := pageSize;
  Encoded c := inl (Data c);
  ExternalKey c :=
    UserID c +:+ "/" +:+ pretty (Fingerprint c) +:+ ":" +:+ pretty (From c)
      +:+ ":" +:+ pretty (Through c);
  Decode c buf :=
    inl {| Fingerprint := Fingerprint c; UserID := UserID c; From := From c;
           Through := Through c; Metric := Metric c; Encoding := Encoding c;
           Data := buf |};
  ChunkTableFor from :=
    if (from <? 0)%Z then inr (ErrOther "no table for this time")
    else inl ("chunks_" +:+ pretty (from `div` 3600)%Z);
|}.

(** An empty store without transport faults, and one chunk. *)
Definition empty_store : Bigtable.t :=
  {| Bigtable.bt_tables := ∅; Bigtable.bt_faults := []; Bigtable.bt_clock := 5 |}.

Definition chunk1 : Chunk :=
  {| Fingerprint := 43981; UserID := "1"; From := 0; Through := 3600;
     Metric := [("__name__", "up")]; Encoding := 1;
     Data := [Byte.x64; Byte.x61; Byte.x74; Byte.x61] |}.   (* "data" *)

(** A second chunk, routed to the same table as [chunk1]. *)
Definition chunk2 : Chunk :=
  {| Fingerprint := 48879; UserID := "1"; From := 60; Through := 3600;
     Metric := [("__name__", "down")]; Encoding := 1;
     Data := [Byte.x62; Byte.x65; Byte.x65; Byte.x66] |}.   (* "beef" *)

Definition family_f : Bigtable.FamilyInfo :=
  {| Bigtable.fi_Name := "f"; Bigtable.fi_GCPolicy := EmptyString |}.

(** The empty store after [CreateTable] of the table of [chunk1]. *)
Definition store_with_table : Bigtable.t :=
  {| Bigtable.bt_tables :=
       {[ "chunks_0" := {| Bigtable.tb_families := [family_f];
                           Bigtable.tb_rows := ∅ |} ]};
     Bigtable.bt_faults := []; Bigtable.bt_clock := 5 |}.

(** That store after [PutChunks] of [chunk1]. *)
Definition chunk1_row : Bigtable.Row :=
  {[ "f" := [{| Bigtable.ri_Row := "1/43981:0:3600";
                Bigtable.ri_Column := "f:c";
                Bigtable.ri_Timestamp := 0;
                Bigtable.ri_Value := Data chunk1 |}] ]}.

Definition chunks_table : Bigtable.Table :=
  {| Bigtable.tb_families := [family_f];
     Bigtable.tb_rows := {[ "1/43981:0:3600" := chunk1_row ]} |}.

Definition store_with_chunk : Bigtable.t :=
  {| Bigtable.bt_tables := {[ "chunks_0" := chunks_table ]};
     Bigtable.bt_faults := []; Bigtable.bt_clock := 5 |}.

(** A row under the key of [chunk1] whose only cell is in another family. *)
Definition row_other_family : Bigtable.Row :=
  {[ "g" := [{| Bigtable.ri_Row := "1/43981:0:3600";
                Bigtable.ri_Column := "g:x";
                Bigtable.ri_Timestamp := 0;
                Bigtable.ri_Value := [] |}] ]}.

Definition caching : Config :=
  {| TableCacheEnabled := true; TableCacheExpiration := 10 |}.

(** ** The keyspace shard scanner

    [NewScanner] only builds the scanner; its comment gives the first rows of
    the shard table (shard 0 is prefix 10, shard 1 is prefix 11, the last
    prefix is ff). *)

(** Modelled from the spec: the [scanner] type and the code that turns a shard
    into a row range are declared in a file that is not among the sources.
    Following the spec, shard [i] in [0, 240) stands for the two-hex-character
    prefix of the number [i + 16] (so 0 is "10" and 239 is "ff"), and its
    row-key range is [[prefix, successor of prefix)], the successor being the
    prefix with its last character incremented. *)
Definition numShards : nat := 240.

Definition hexDigit (n : nat) : Ascii.ascii :=
  Ascii.ascii_of_nat (if (n <? 10)%nat then 48 + n else 87 + n).

Definition shardPrefix (shard : nat) : string :=
  String (hexDigit ((shard + 16) / 16))
    (String (hexDigit ((shard + 16) mod 16)) EmptyString).

Fixpoint prefixSuccessor (prefix : string) : string :=
  match prefix with
  | EmptyString => EmptyString
  | String a EmptyString => String (Ascii.ascii_of_N (Ascii.N_of_ascii a + 1)) EmptyString
  | String a rest => String a (prefixSuccessor rest)
  end.

Definition shardRange (shard : nat) : string * string :=
  (shardPrefix shard, prefixSuccessor (shardPrefix shard)).

(** A key lies in the half-open range [[r.1, r.2)], in the byte-wise
    lexicographic order of row keys. *)
Definition inRange (r : string * string) (key : string) : bool :=
  String.leb r.1 key && String.ltb key r.2.

Definition isHexDigit (a : Ascii.ascii) : bool :=
  bool_decide (a ∈ hexDigit <$> seq 0 16).

(** The text of a fingerprint that shards cover: it starts with two hex
    characters, the first of which is not 0. *)
Definition validFingerprint (fp : string) : bool :=
  match fp with
  | String a (String b _) =>
      isHexDigit a && isHexDigit b && negb (Ascii.eqb a (hexDigit 0))
  | _ => false
  end.

(** ** Vocabulary of the statements about the object client *)

(** The schema routes chunk [c] to table [tableName]. *)
Definition routed `{Package} (tableName : string) (c : Chunk) : Prop :=
  ChunkTableFor (From c) = inl tableName.

#[global] Instance routed_dec `{Package} tableName c : Decision (routed tableName c).
Proof. unfold routed. solve_decision. Defined.

(** The mutation leaves the timestamp of every cell it sets to the server. *)
Definition store_assigned (m : Bigtable.Mutation) : Prop :=
  ∀ family col ts value,
    Bigtable.OpSetCell family col ts value ∈ m → ts = Bigtable.ServerTime.

(** The cell that [PutChunks] stores for a chunk with encoding [buf]. *)
Definition chunk_cell `{Package} (key : string) (buf : bytes) : Bigtable.ReadItem :=
  {| Bigtable.ri_Row := key;
     Bigtable.ri_Column := columnFamily +:+ ":" +:+ column;
     Bigtable.ri_Timestamp := 0;
     Bigtable.ri_Value := buf |}.

(** The chunks and the errors that a list of actions sends. *)
Definition outs_of (todo : list Action) : list Chunk :=
  omap (λ a, match a with SendOut c => Some c | _ => None end) todo.

Definition errs_of (todo : list Action) : list error :=
  omap (λ a, match a with SendErr e => Some e | _ => None end) todo.

(** Upper bounds on what a task still sends on [outs] and on [errs]. *)
Definition out_budget (t : Task) : nat :=
  match t with
  | Spawned _ _ page => length page
  | Running todo => length (outs_of todo)
  end.

Definition err_budget (t : Task) : nat :=
  match t with
  | Spawned _ _ _ => 1
  | Running todo => length (errs_of todo)
  end.

(** The sends on [outs] and on [errs] that a schedule performs. *)
Definition sends_out (s : State) (ev : Event) : nat :=
  match ev with
  | EvGo g =>
      match st_tasks s !! g with
      | Some (Running (SendOut _ :: _)) => 1
      | _ => 0
      end
  | _ => 0
  end.

Definition sends_err (s : State) (ev : Event) : nat :=
  match ev with
  | EvGo g =>
      match st_tasks s !! g with
      | Some (Running (SendErr _ :: _)) => 1
      | _ => 0
      end
  | _ => 0
  end.

Fixpoint count_along `{Package} (f : State → Event → nat)
    (s : State) (sched : list Event) : nat :=
  match sched with
  | [] => 0
  | ev :: sched' =>
      match step s ev with
      | None => 0
      | Some s' => f s ev + count_along f s' sched'
      end
  end.

(** A goroutine that has not finished. *)
Definition unfinished (t : Task) : Prop := t ≠ Running [].

(** The steps, case by case. *)
Inductive step_case `{Package} (s : State) : Event → State → Prop :=
  | case_read g table cm page b' rows err :
      st_tasks s !! g = Some (Spawned table cm page) →
      Bigtable.ReadRows (st_bt s) table page = (b', rows, err) →
      step_case s (EvGo g)
        (with_tasks s b' (<[g := Running (page_actions cm page rows err)]> (st_tasks s)))
  | case_send_out g c todo :
      st_tasks s !! g = Some (Running (SendOut c :: todo)) →
      (length (st_outs s) < st_outs_cap s)%nat →
      step_case s (EvGo g)
        (with_outs (with_tasks s (st_bt s) (<[g := Running todo]> (st_tasks s)))
           (st_outs s ++ [c]))
  | case_send_err g e todo :
      st_tasks s !! g = Some (Running (SendErr e :: todo)) →
      (length (st_errs s) < st_errs_cap s)%nat →
      step_case s (EvGo g)
        (with_errs (with_tasks s (st_bt s) (<[g := Running todo]> (st_tasks s)))
           (st_errs s ++ [e]))
  | case_panic g todo :
      st_tasks s !! g = Some (Running (Panic :: todo)) →
      step_case s (EvGo g)
        (with_panicked (with_tasks s (st_bt s) (<[g := Running todo]> (st_tasks s))))
  | case_cancel e :
      st_ctx s = None →
      step_case s (EvCancel e) (with_ctx s (Some e))
  | case_recv_out c outs' :
      st_result s = None → st_outs s = c :: outs' →
      step_case s EvRecvOut
        (with_output (with_outs s outs') (st_output s ++ [c])
           (if decide (length (st_output s ++ [c]) < st_len s)%nat then None
            else Some (inl (st_output s ++ [c]))))
  | case_recv_err err errs' :
      st_result s = None → st_errs s = err :: errs' →
      step_case s EvRecvErr
        (with_output (with_errs s errs') (st_output s) (Some (inr err)))
  | case_recv_done err :
      st_result s = None → st_ctx s = Some err →
      step_case s EvRecvDone (with_output s (st_output s) (Some (inr err))).

(** The rows that a read of [page] delivers when the call goes through. *)
Definition read_rows (tables : gmap string Bigtable.Table)
    (table : string) (page : list string) : list Bigtable.Row :=
  match tables !! table with
  | Some tb => Bigtable.deliver tb page
  | None => []
  end.

(** The gathering loop has returned exactly when [len(input)] chunks are in
    [output], or with an error. *)
Definition gathered (s : State) : Prop :=
  match st_result s with
  | None => (length (st_output s) < st_len s)%nat
  | Some (inl out) => out = st_output s ∧ length out = st_len s
  | Some (inr _) => True
  end.

(** A goroutine that is about to send an error or to panic. *)
Definition alarm (t : Task) : Prop :=
  match t with
  | Spawned _ _ _ => False
  | Running todo => errs_of todo ≠ [] ∨ Panic ∈ todo
  end.

(** The gathering loop cannot starve: it has returned, or an error is on its
    way, or enough chunks are (or the program has panicked). *)
Definition supplied (s : State) : Prop :=
  st_panicked s = true ∨
  st_result s ≠ None ∨ st_errs s ≠ [] ∨ Exists alarm (st_tasks s) ∨
  (st_len s ≤ length (st_output s) + length (st_outs s)
              + sum_list_with out_budget (st_tasks s))%nat.

(** No goroutine panics. *)
Definition calm_task `{Package} (tables : gmap string Bigtable.Table) (t : Task) : Prop :=
  match t with
  | Spawned table cm page => (callbacks cm (read_rows tables table page)).2 ≠ CbPanic
  | Running todo => Panic ∉ todo
  end.

Definition calm `{Package} (tables : gmap string Bigtable.Table) (s : State) : Prop :=
  Bigtable.bt_tables (st_bt s) = tables ∧ st_panicked s = false ∧
  Forall (calm_task tables) (st_tasks s).

(** The chunks a task can still send, at most. *)
Definition deliverable (tables : gmap string Bigtable.Table) (t : Task) : nat :=
  match t with
  | Spawned table _ page => length (read_rows tables table page)
  | Running todo => length (outs_of todo)
  end.

(** Fewer chunks than requested can ever reach the gathering loop. *)
Definition short (tables : gmap string Bigtable.Table) (s : State) : Prop :=
  Bigtable.bt_tables (st_bt s) = tables ∧
  (length (st_output s) + length (st_outs s)
     + sum_list_with (deliverable tables) (st_tasks s) < st_len s)%nat.

(** The error that reports fewer rows than keys. *)
Definition count_mismatch (e : error) : Prop :=
  ∃ asked received,
    e = ErrWithStack (ErrAsked asked received) ∧ (received < asked)%nat.

Definition benign_action (a : Action) : Prop :=
  match a with
  | SendOut _ => True
  | SendErr e => count_mismatch e
  | Panic => False
  end.

(** A goroutine whose read goes through and whose callback accepts every
    row: the only error it can send is a count mismatch. *)
Definition benign_task `{Package} (tables : gmap string Bigtable.Table) (t : Task) : Prop :=
  match t with
  | Spawned table cm page =>
      is_Some (tables !! table) ∧
      ∃ sent, callbacks cm (read_rows tables table page) = (sent, CbAll)
  | Running todo => Forall benign_action todo
  end.

Definition benign `{Package} (tables : gmap string Bigtable.Table) (s : State) : Prop :=
  Bigtable.bt_faults (st_bt s) = [] ∧ Bigtable.bt_tables (st_bt s) = tables ∧
  st_panicked s = false ∧ Forall (benign_task tables) (st_tasks s) ∧
  Forall count_mismatch (st_errs s) ∧
  ∀ e, st_result s = Some (inr e) → count_mismatch e ∨ st_ctx s = Some e.

(** The store is fit for reading [input]: no transport fault is pending, the
    tables of the requested chunks exist, and every stored row under a
    requested key carries that key and a first cell in the chunk family that
    the requested chunks decode. *)
Definition readable `{Package} (b : Bigtable.t) (input : list Chunk) : Prop :=
  Bigtable.bt_faults b = [] ∧
  ∀ c, c ∈ input →
    ∃ table tb, routed table c ∧ Bigtable.bt_tables b !! table = Some tb ∧
      ∀ row, Bigtable.tb_rows tb !! ExternalKey c = Some row →
        Bigtable.Row_Key row = ExternalKey c ∧
        ∃ item, default [] (row !! columnFamily) !! 0%nat = Some item ∧
          ∀ c', c' ∈ input → ExternalKey c' = ExternalKey c →
                is_Some (match Decode c' (Bigtable.ri_Value item) with
                         | inl d => Some d | inr _ => None end).

(** A requested key that the store does not hold. *)
Definition absent `{Package} (b : Bigtable.t) (c : Chunk) : Prop :=
  ∀ table tb, routed table c → Bigtable.bt_tables b !! table = Some tb →
    Bigtable.tb_rows tb !! ExternalKey c = None.

(** A goroutine that sends chunks and nothing else. *)
Definition exact_task `{Package} (tables : gmap string Bigtable.Table) (t : Task) : Prop :=
  match t with
  | Spawned table cm page =>
      is_Some (tables !! table) ∧
      ∃ cs, page_actions cm page (read_rows tables table page) None = SendOut <$> cs
  | Running todo => ∃ cs, todo = SendOut <$> cs
  end.

(** The chunks a task still sends when its read goes through. *)
Definition promised `{Package} (tables : gmap string Bigtable.Table) (t : Task)
  : list Chunk :=
  match t with
  | Spawned table cm page =>
      outs_of (page_actions cm page (read_rows tables table page) None)
  | Running todo => outs_of todo
  end.

(** The chunks gathered, in flight and still to be sent are those of [input]. *)
Definition conserved `{Package} (tables : gmap string Bigtable.Table)
    (input : list Chunk) (s : State) : Prop :=
  Bigtable.bt_faults (st_bt s) = [] ∧ Bigtable.bt_tables (st_bt s) = tables ∧
  st_panicked s = false ∧ Forall (exact_task tables) (st_tasks s) ∧
  st_errs s = [] ∧
  st_output s ++ st_outs s ++ mjoin (promised tables <$> st_tasks s) ≡ₚ input ∧
  ∀ e, st_result s = Some (inr e) → st_ctx s = Some e.

(** The store holds exactly one cell for chunk [c]: its encoding, under its
    key, in the chunk family. *)
Definition holds `{Package} (b : Bigtable.t) (c : Chunk) : Prop :=
  ∃ table tb buf,
    routed table c ∧ Bigtable.bt_tables b !! table = Some tb ∧
    Encoded c = inl buf ∧
    Bigtable.tb_rows tb !! ExternalKey c
      = Some {[ columnFamily := [chunk_cell (ExternalKey c) buf] ]}.

(** A store with tables but no rows. *)
Definition blank (b : Bigtable.t) : Prop :=
  ∀ table tb, Bigtable.bt_tables b !! table = Some tb → Bigtable.tb_rows tb = ∅.

(** Both channels have room for everything that can still be sent. *)
Definition roomy (s : State) : Prop :=
  (length (st_outs s) + sum_list_with out_budget (st_tasks s) ≤ st_outs_cap s)%nat ∧
  (length (st_errs s) + sum_list_with err_budget (st_tasks s) ≤ st_errs_cap s)%nat.

(** What steps of goroutines leave alone. *)
Definition gather_frame (s s' : State) : Prop :=
  st_ctx s' = st_ctx s ∧ st_result s' = st_result s ∧
  st_output s' = st_output s ∧ st_len s' = st_len s ∧
  length (st_tasks s') = length (st_tasks s) ∧
  ∀ g, st_tasks s !! g = Some (Running []) → st_tasks s' !! g = Some (Running []).

(** The keys a task was started for. *)
Definition task_page (t : Task) : list string :=
  match t with
  | Spawned _ _ page => page
  | Running _ => []
  end.

(** [d] is the decoding of some bytes into a requested chunk. *)
Definition decoded_from `{Package} (input : list Chunk) (d : Chunk) : Prop :=
  ∃ c buf, c ∈ input ∧ Decode c buf = inl d.

(** Every chunk gathered, in flight or still to be sent is such a decoding. *)
Definition sourced_task `{Package} (input : list Chunk) (t : Task) : Prop :=
  match t with
  | Spawned _ cm _ => ∀ key c, cm !! key = Some c → c ∈ input
  | Running todo => Forall (decoded_from input) (outs_of todo)
  end.

Definition sourced `{Package} (input : list Chunk) (s : State) : Prop :=
  Forall (decoded_from input) (st_output s) ∧
  Forall (decoded_from input) (st_outs s) ∧
  Forall (sourced_task input) (st_tasks s).

(** What a key of a page needs for its row to come back as its chunk. *)
Definition key_stored `{Package} (input : list Chunk) (cm : gmap string Chunk)
    (tb : Bigtable.Table) (key : string) : Prop :=
  ∃ c buf, c ∈ input ∧ ExternalKey c = key ∧ cm !! key = Some c ∧
           Bigtable.tb_rows tb !! key
             = Some {[ columnFamily := [chunk_cell key buf] ]} ∧
           Decode c buf = inl c.

(** ** Further vocabulary *)

(** The names of the tables of the store that carry the column family, in the
    order in which the store lists its tables. *)
Definition family_tables `{Package} (b : Bigtable.t) : list string :=
  (filter (λ entry, hasColumnFamily (Bigtable.tb_families entry.2) = true)
     (map_to_list (Bigtable.bt_tables b))).*1.

(** The cache says of each table what the store says. *)
Definition cache_current (c : tableClient) (b : Bigtable.t) : Prop :=
  ∀ table info tb,
    tableInfo c !! table = Some info → Bigtable.bt_tables b !! table = Some tb →
    Bigtable.ti_FamilyInfos info = Bigtable.tb_families tb.

(** The table that [CreateTable] makes when there is none of that name. *)
Definition new_table `{Package} : Bigtable.Table :=
  {| Bigtable.tb_families :=
       [{| Bigtable.fi_Name := columnFamily; Bigtable.fi_GCPolicy := EmptyString |}];
     Bigtable.tb_rows := ∅ |}.

(** The error, if any, that the first loop of [PutChunks] meets at a chunk. *)
Definition PutChunks_rejects `{Package} (c : Chunk) : option error :=
  match Encoded c with
  | inr err => Some err
  | inl _ =>
      match ChunkTableFor (From c) with
      | inr err => Some err
      | inl _ => None
      end
  end.

(** The keys and encodings of the chunks of a batch that go to a table, in
    the order of the batch. *)
Definition table_writes `{Package} (tableName : string) (chunks : list Chunk)
  : list (string * bytes) :=
  omap (λ c, match Encoded c with
             | inl buf =>
                 if decide (routed tableName c) then Some (ExternalKey c, buf)
                 else None
             | inr _ => None
             end) chunks.

(** The entries of the bulk mutation that writes them. *)
Definition chunk_entries `{Package} (writes : list (string * bytes))
  : list (string * Bigtable.Mutation) :=
  (λ w, (w.1, [Bigtable.OpSetCell columnFamily column 0 w.2])) <$> writes.

(** A row once the encoding [buf] has been written under [key]: the chunk
    cell is put in its place among the cells of the chunk family, the rest of
    the row stays. *)
Definition written_row `{Package} (key : string) (buf : bytes)
    (old : option Bigtable.Row) : Bigtable.Row :=
  <[columnFamily :=
      Bigtable.insert_cell (chunk_cell key buf)
        (default [] (default ∅ old !! columnFamily))]> (default ∅ old).

(** The last encoding written under [key] by a list of writes. *)
Definition last_write (key : string) (writes : list (string * bytes))
  : option bytes :=
  snd <$> last (filter (λ w, w.1 = key) writes).

(** What [PutChunks] leaves of a table: its families, the rows under other
    keys than [keys], and of every row the cells outside the chunk family. *)
Definition table_kept `{Package} (keys : list string) (tb tb' : Bigtable.Table)
  : Prop :=
  Bigtable.tb_families tb' = Bigtable.tb_families tb ∧
  (∀ key, key ∉ keys →
     Bigtable.tb_rows tb' !! key = Bigtable.tb_rows tb !! key) ∧
  ∀ key row, Bigtable.tb_rows tb !! key = Some row →
    ∃ row', Bigtable.tb_rows tb' !! key = Some row' ∧
            ∀ family, family ≠ columnFamily → row' !! family = row !! family.

(** What [PutChunks] leaves of a store: it makes no table, and of each table
    it keeps what [table_kept] says, [keys table] being the keys it may write
    in that table. *)
Definition store_kept `{Package} (keys : string → list string) (b b' : Bigtable.t)
  : Prop :=
  ∀ table,
    match Bigtable.bt_tables b !! table with
    | None => Bigtable.bt_tables b' !! table = None
    | Some tb =>
        ∃ tb', Bigtable.bt_tables b' !! table = Some tb' ∧
               table_kept (keys table) tb tb'
    end.

(** The keys of the chunks of a batch that go to a table. *)
Definition table_keys `{Package} (chunks : list Chunk) (table : string) : list string :=
  ExternalKey <$> filter (routed table) chunks.

(** The calls to the store that a page goroutine has made. *)
Definition reads_made (t : Task) : nat :=
  match t with
  | Spawned _ _ _ => 0
  | Running _ => 1
  end.




(** [GetChunks] has made one call to the store per page goroutine that has
    run, and has changed nothing in it. *)
Definition only_read (b : Bigtable.t) (s : State) : Prop :=
  Bigtable.bt_tables (st_bt s) = Bigtable.bt_tables b ∧
  Bigtable.bt_clock (st_bt s) = Bigtable.bt_clock b ∧
  Bigtable.bt_faults (st_bt s)
    = drop (sum_list_with reads_made (st_tasks s)) (Bigtable.bt_faults b).

(** Every stored row under the key of a requested chunk has a cell in the
    chunk family. *)
Definition cells_present `{Package} (b : Bigtable.t) (input : list Chunk) : Prop :=
  ∀ c table tb row,
    c ∈ input → routed table c → Bigtable.bt_tables b !! table = Some tb →
    Bigtable.tb_rows tb !! ExternalKey c = Some row →
    default [] (row !! columnFamily) ≠ [].

(** ** The chunk comparison of the mapper tests ([compareChunks])

    [reflect.DeepEqual] on the metric and on the data is equality of the
    modelled values; a nil slice and an empty one, which [reflect.DeepEqual]
    tells apart, are the same list here. *)

Section compare.

#[local] Instance byte_eq_dec : EqDecision Byte.byte := Byte.byte_eq_dec.

(** How the verb [%v] of [fmt.Errorf] prints a value. *)
Context (show : ∀ A : Type, A → string).



End compare.

(** ** The errors of a page goroutine *)

(** What a page goroutine can report when [GetChunks] was asked for [input]
    with the transport outcomes [faults] pending: a row under a key that was
    not asked for, the error of the codec on a requested chunk, the answer of
    the store to its read (a pending transport error, or that the table does
    not exist), or fewer rows than keys. *)
Definition page_error `{Package} (input : list Chunk)
    (faults : list (option error)) (e : error) : Prop :=
  (∃ key, e = ErrWithStack (ErrUnknownChunk key)) ∨
  (∃ c buf, c ∈ input ∧ Decode c buf = inr e) ∨
  (∃ answer, e = ErrWithStack answer ∧
             (Some answer ∈ faults ∨ ∃ table, answer = Bigtable.notFound table)) ∨
  count_mismatch e.

Definition reported_task `{Package} (input : list Chunk)
    (faults : list (option error)) (t : Task) : Prop :=
  match t with
  | Spawned _ cm _ => ∀ key c, cm !! key = Some c → c ∈ input
  | Running todo => Forall (page_error input faults) (errs_of todo)
  end.

(** Every error in flight, still to be sent or returned is of these, unless
    it is the error of the schema or of the context. *)
Definition reported `{Package} (input : list Chunk)
    (faults : list (option error)) (s : State) : Prop :=
  Bigtable.bt_faults (st_bt s) ⊆ faults ∧
  Forall (reported_task input faults) (st_tasks s) ∧
  Forall (page_error input faults) (st_errs s) ∧
  ∀ e, st_result s = Some (inr e) →
    (∃ c, c ∈ input ∧ ChunkTableFor (From c) = inr e) ∨
    st_ctx s = Some e ∨ page_error input faults e.

(** ** Further sample data *)

(** A chunk for whose start time the sample schema has no table. *)
Definition chunk_unrouted : Chunk :=
  {| Fingerprint := 1; UserID := "1"; From := -1; Through := 0;
     Metric := []; Encoding := 1; Data := [] |}.

(** A receiver whose cache, still valid at time 200, records the table of
    [chunk1] as having no column family. *)
Definition stale_client : tableClient :=
  {| cfg := caching;
     tableInfo := {[ "chunks_0" := {| Bigtable.ti_Families := [];
                                      Bigtable.ti_FamilyInfos := [] |} ]};
     tableExpiration := 200 |}.

(** The store with the table of [chunk1] whose next call fails in transit. *)
Definition store_with_fault : Bigtable.t :=
  {| Bigtable.bt_tables :=
       {[ "chunks_0" := {| Bigtable.tb_families := [family_f];
                           Bigtable.tb_rows := ∅ |} ]};
     Bigtable.bt_faults := [Some (ErrStatus CodeUnavailable "connection lost")];
     Bigtable.bt_clock := 5 |}.

(** * Properties *)

(** ** The table client *)

Section table_client.
Context `{Package}.

Lemma rpc_tables b : Bigtable.bt_tables (Bigtable.rpc b).1 = Bigtable.bt_tables b.
Proof. unfold Bigtable.rpc. by destruct (Bigtable.bt_faults b). Qed.

Lemma TableInfo_inl b table b' info :
  Bigtable.TableInfo_ b table = (b', inl info) →
  Bigtable.bt_tables b' = Bigtable.bt_tables b ∧
  ∃ tb, Bigtable.bt_tables b !! table = Some tb ∧
        Bigtable.ti_FamilyInfos info = Bigtable.tb_families tb.
Proof.
  unfold Bigtable.TableInfo_. pose proof (rpc_tables b) as Hr.
  destruct (Bigtable.rpc b) as [b1 [e|]]; simpl in Hr; [done|].
  destruct (Bigtable.bt_tables b1 !! table) as [tb|] eqn:Htb; [|done].
  intros [= <- <-]. split; [done|]. exists tb. by rewrite <-Hr.
Qed.

(** The loop of [ListTables] keeps the cache free of entries with the family. *)
Lemma ListTables_loop_cache tables : ∀ c b output,
  cache_lacks_family (tableInfo c) →
  cache_lacks_family (tableInfo (ListTables_loop c b tables output).1.2).
Proof.
  induction tables as [|table tables IH]; intros c b output Hc; simpl; [done|].
  set (fetched := match tableInfo c !! table with
                  | Some info => if negb (TableCacheEnabled (cfg c))
                                 then Bigtable.TableInfo_ b table else (b, inl info)
                  | None => Bigtable.TableInfo_ b table end).
  destruct fetched as [b' [info|err]]; [|done].
  destruct (hasColumnFamily (Bigtable.ti_FamilyInfos info)) eqn:Hfam.
  - by apply IH.
  - apply IH. simpl. intros t i. rewrite lookup_insert. case_decide.
    + by intros [= <-].
    + apply Hc.
Qed.

Lemma ListTables_cache c b now now' :
  cache_lacks_family (tableInfo c) →
  cache_lacks_family (tableInfo (ListTables c b now now').1.2).
Proof.
  intros Hc. unfold ListTables.
  destruct (Bigtable.Tables b) as [b' [tables|err]]; [|done].
  apply ListTables_loop_cache. by case_match.
Qed.

Lemma reachable_cache c : reachable c → cache_lacks_family (tableInfo c).
Proof.
  induction 1 as [cfg0|c b now now' _ IH|c b name _ IH].
  - by intros t i.
  - by apply ListTables_cache.
  - unfold DeleteTable. destruct (Bigtable.DeleteTable b name) as [b' [e|]]; [done|].
    simpl. intros t i [_ Ht]%lookup_delete_Some. by eapply IH.
Qed.

Lemma ListTables_loop_fresh tables : ∀ c b output b' c' out,
  TableCacheEnabled (cfg c) = false ∨ cache_lacks_family (tableInfo c) →
  ListTables_loop c b tables output = (b', c', inl out) →
  Bigtable.bt_tables b' = Bigtable.bt_tables b ∧
  ∀ table, table ∈ out → table ∈ output ∨ store_has_family b table.
Proof.
  induction tables as [|table tables IH]; intros c b output b' c' out Hc; simpl.
  { intros [= <- <- <-]. split; [done|]. auto. }
  destruct (tableInfo c !! table) as [cached|] eqn:Hcached.
  - destruct (TableCacheEnabled (cfg c)) eqn:Hen; simpl.
    + (* served from the cache: the entry lacks the family *)
      destruct Hc as [?|Hc]; [done|].
      rewrite (Hc _ _ Hcached).
      intros Hloop. eapply IH in Hloop; [done|].
      right. simpl. intros t i. rewrite lookup_insert. case_decide.
      * intros [= <-]. by eapply Hc.
      * apply Hc.
    + destruct (Bigtable.TableInfo_ b table) as [b1 [info|err]] eqn:Hinfo; [|done].
      apply TableInfo_inl in Hinfo as (Hb1 & tb & Htb & Hfams).
      destruct (hasColumnFamily (Bigtable.ti_FamilyInfos info)) eqn:Hfam.
      * intros Hloop. eapply IH in Hloop as [Hb' Hout]; [|by left].
        split; [congruence|]. intros t [Ht|Ht]%Hout.
        -- apply elem_of_app in Ht as [?|Hs]; [by left|].
           apply list_elem_of_singleton in Hs as ->.
           right. exists tb. by rewrite <-Hfams.
        -- right. destruct Ht as (tb' & ? & ?). exists tb'. by rewrite <-Hb1.
      * intros Hloop. eapply IH in Hloop as [Hb' Hout]; [|by left].
        split; [congruence|]. intros t [Ht|Ht]%Hout; [by left|].
        right. destruct Ht as (tb' & ? & ?). exists tb'. by rewrite <-Hb1.
  - destruct (Bigtable.TableInfo_ b table) as [b1 [info|err]] eqn:Hinfo; [|done].
    apply TableInfo_inl in Hinfo as (Hb1 & tb & Htb & Hfams).
    destruct (hasColumnFamily (Bigtable.ti_FamilyInfos info)) eqn:Hfam.
    + intros Hloop. eapply IH in Hloop as [Hb' Hout]; [|done].
      split; [congruence|]. intros t [Ht|Ht]%Hout.
      * apply elem_of_app in Ht as [?|Hs]; [by left|].
           apply list_elem_of_singleton in Hs as ->.
        right. exists tb. by rewrite <-Hfams.
      * right. destruct Ht as (tb' & ? & ?). exists tb'. by rewrite <-Hb1.
    + intros Hloop. eapply IH in Hloop as [Hb' Hout].
      * split; [congruence|]. intros t [Ht|Ht]%Hout; [by left|].
        right. destruct Ht as (tb' & ? & ?). exists tb'. by rewrite <-Hb1.
      * destruct Hc as [?|Hc]; [by left|]. right. simpl.
        intros t i. rewrite lookup_insert. case_decide.
        -- by intros [= <-].
        -- apply Hc.
Qed.

(** C4: every table returned by a successful [ListTables] has the required
    column family in the backing store at the time of the call.  This holds for
    every receiver the package can produce, and for any receiver at all whose
    cache has expired or is disabled; the entries kept across calls never
    carry the family, so a returned name always comes from a fetch made by
    this call. *)
Theorem ListTables_returns_family_tables c b now now' b' c' out :
  reachable c ∨ (tableExpiration c < now)%Z ∨ TableCacheEnabled (cfg c) = false →
  ListTables c b now now' = (b', c', inl out) →
  Bigtable.bt_tables b' = Bigtable.bt_tables b ∧
  ∀ table, table ∈ out → store_has_family b' table.
Proof.
  intros Hc. unfold ListTables, Bigtable.Tables.
  pose proof (rpc_tables b) as Hr.
  destruct (Bigtable.rpc b) as [b1 [e|]]; simpl in Hr; [done|].
  intros Hloop. apply ListTables_loop_fresh in Hloop as [Hb' Hout].
  - split; [congruence|]. intros t [Ht|Ht]%Hout.
    + by apply elem_of_nil in Ht.
    + destruct Ht as (tb & ? & ?). exists tb. by rewrite Hb'.
  - destruct Hc as [Hc|[Hc|Hc]].
    + right. case_match; [by intros t i|]. by apply reachable_cache.
    + right. apply Z.ltb_lt in Hc as ->. by intros t i.
    + left. by case_match.
Qed.

(** C5: [CreateTable] takes an "already exists" answer to either step for a
    success; the error it returns, if any, wraps an answer that is not
    "already exists"; and on a store whose calls go through it succeeds, and
    succeeds again when repeated. *)
Theorem CreateTable_idempotent b desc :
  (∀ b1 r1 b2 r2,
     Bigtable.CreateTable b (td_Name desc) = (b1, r1) →
     Bigtable.CreateColumnFamily b1 (td_Name desc) columnFamily = (b2, r2) →
     (∀ e, r1 = Some e → alreadyExistsError e = true) →
     (∀ e, r2 = Some e → alreadyExistsError e = true) →
     CreateTable b desc = (b2, None)) ∧
  (∀ err, (CreateTable b desc).2 = Some err →
     alreadyExistsError err = false ∧
     ∃ answer msg, err = ErrWrap answer msg ∧ alreadyExistsError answer = false) ∧
  (Bigtable.bt_faults b = [] →
     (CreateTable b desc).2 = None ∧
     (CreateTable (CreateTable b desc).1 desc).2 = None).
Proof.
  split; [|split].
  - intros b1 r1 b2 r2 H1 H2 Hr1 Hr2. unfold CreateTable. rewrite H1.
    destruct r1 as [e1|]; simpl; [rewrite (Hr1 e1 eq_refl); simpl|];
      rewrite H2; (destruct r2 as [e2|]; simpl; [by rewrite (Hr2 e2 eq_refl)|done]).
  - intros err. unfold CreateTable.
    destruct (Bigtable.CreateTable b (td_Name desc)) as [b1 [e1|]]; simpl.
    + destruct (alreadyExistsError e1) eqn:He1; simpl.
      * destruct (Bigtable.CreateColumnFamily b1 (td_Name desc) columnFamily)
          as [b2 [e2|]]; simpl; [|done].
        destruct (alreadyExistsError e2) eqn:He2; simpl; [done|].
        intros [= <-]. eauto.
      * intros [= <-]. eauto.
    + destruct (Bigtable.CreateColumnFamily b1 (td_Name desc) columnFamily)
        as [b2 [e2|]]; simpl; [|done].
      destruct (alreadyExistsError e2) eqn:He2; simpl; [done|].
      intros [= <-]. eauto.
  - intros Hf.
    assert (∀ b0, Bigtable.bt_faults b0 = [] →
              (CreateTable b0 desc).2 = None ∧
              Bigtable.bt_faults (CreateTable b0 desc).1 = []) as Hone.
    { clear b Hf. intros b Hf.
      unfold CreateTable, Bigtable.CreateTable, Bigtable.CreateColumnFamily,
        Bigtable.rpc.
      rewrite Hf. simpl.
      destruct (Bigtable.bt_tables b !! td_Name desc) as [tb|] eqn:Htb; simpl.
      - rewrite Hf. simpl. rewrite Htb.
        destruct (decide _); simpl; by rewrite ?Hf.
      - rewrite Hf. simpl. rewrite lookup_insert_eq. simpl. by rewrite ?Hf. }
    destruct (Hone b Hf) as [H1 Hf1]. split; [done|]. by apply Hone.
Qed.

End table_client.

(** The theorems above at the sample implementation. *)

Lemma ListTables_returns_family_tables_witness :
  let r := @ListTables (sample 2) (NewTableClient caching) store_with_table 100 101 in
  r.2 = inl ["chunks_0"] ∧
  ∀ table, table ∈ ["chunks_0"] → @store_has_family (sample 2) r.1.1 table.
Proof.
  split; [by vm_compute|].
  refine (proj2 (@ListTables_returns_family_tables (sample 2)
    (NewTableClient caching) store_with_table 100 101 _ _ ["chunks_0"] _ _)).
  - left. apply reach_new.
  - by vm_compute.
Defined.

Lemma CreateTable_idempotent_witness :
  (@CreateTable (sample 2) empty_store {| td_Name := "chunks_0" |}).2 = None ∧
  (@CreateTable (sample 2) store_with_table {| td_Name := "chunks_0" |}).2 = None.
Proof.
  apply (proj2 (proj2 (@CreateTable_idempotent (sample 2) empty_store
                         {| td_Name := "chunks_0" |}))).
  reflexivity.
Defined.

(** C3, at a store with one table that has the family: [ListTables] returns
    the table and leaves the cache without an entry for it, so the next call
    has to fetch its metadata again; a table without the family is cached and
    left out. *)
Theorem ListTables_family_table_not_cached :
  let r := @ListTables (sample 2) (NewTableClient caching) store_with_table 100 101 in
  r.2 = inl ["chunks_0"] ∧ tableInfo r.1.2 !! "chunks_0" = None ∧
  let b := (Bigtable.CreateTable store_with_table "other").1 in
  let r' := @ListTables (sample 2) (NewTableClient caching) b 100 101 in
  r'.2 = inl ["chunks_0"] ∧ tableInfo r'.1.2 !! "chunks_0" = None ∧
  is_Some (tableInfo r'.1.2 !! "other").
Proof.
  cbv zeta. split_and!; try (vm_compute; reflexivity).
  vm_compute. eauto.
Qed.

(** ** The shard scanner *)

Section scanner.

Lemma N_of_ascii_inj a b : Ascii.N_of_ascii a = Ascii.N_of_ascii b → a = b.
Proof.
  intros Heq. rewrite <-(Ascii.ascii_N_embedding a), <-(Ascii.ascii_N_embedding b).
  by rewrite Heq.
Qed.

Lemma hexDigit_code n :
  (n < 16)%nat →
  Ascii.N_of_ascii (hexDigit n) = N.of_nat (if (n <? 10)%nat then 48 + n else 87 + n).
Proof.
  intros Hn. unfold hexDigit, Ascii.ascii_of_nat.
  rewrite Ascii.N_ascii_embedding; [done|].
  case_match; lia.
Qed.

Lemma hexDigit_inj n m :
  (n < 16)%nat → (m < 16)%nat → hexDigit n = hexDigit m → n = m.
Proof.
  intros Hn Hm Heq. apply (f_equal Ascii.N_of_ascii) in Heq.
  rewrite !hexDigit_code in Heq by done.
  repeat case_match; try lia;
    repeat match goal with
           | H : (_ <? _)%nat = true |- _ => apply Nat.ltb_lt in H
           | H : (_ <? _)%nat = false |- _ => apply Nat.ltb_ge in H
           end; lia.
Qed.

Lemma shardPrefix_inj s s' :
  (s < numShards)%nat → (s' < numShards)%nat →
  shardPrefix s = shardPrefix s' → s = s'.
Proof.
  unfold numShards, shardPrefix. intros Hs Hs'.
  pose proof (Nat.div_mod_eq (s + 16) 16) as E.
  pose proof (Nat.div_mod_eq (s' + 16) 16) as E'.
  assert ((s + 16) / 16 < 16)%nat by (apply Nat.Div0.div_lt_upper_bound; lia).
  assert ((s' + 16) / 16 < 16)%nat by (apply Nat.Div0.div_lt_upper_bound; lia).
  pose proof (Nat.mod_upper_bound (s + 16) 16).
  pose proof (Nat.mod_upper_bound (s' + 16) 16).
  revert E E'.
  generalize dependent ((s + 16) / 16)%nat. generalize dependent ((s + 16) mod 16)%nat.
  generalize dependent ((s' + 16) / 16)%nat. generalize dependent ((s' + 16) mod 16)%nat.
  intros m' Hm' d' Hd' m Hm d Hd E E' [= Hdd Hmm].
  apply hexDigit_inj in Hdd; [|lia..]. apply hexDigit_inj in Hmm; [|lia..]. lia.
Qed.

Lemma shardPrefix_digits n m :
  (1 ≤ n < 16)%nat → (m < 16)%nat →
  shardPrefix (16 * n + m - 16) =
    String (hexDigit n) (String (hexDigit m) EmptyString).
Proof.
  intros Hn Hm. unfold shardPrefix.
  replace (16 * n + m - 16 + 16)%nat with (m + n * 16)%nat by lia.
  rewrite Nat.div_add, Nat.Div0.mod_add by lia.
  rewrite Nat.div_small, Nat.mod_small by lia. done.
Qed.

Lemma isHexDigit_value a :
  isHexDigit a = true → ∃ n, (n < 16)%nat ∧ a = hexDigit n.
Proof.
  unfold isHexDigit. rewrite bool_decide_eq_true.
  intros (n & -> & Hn)%list_elem_of_fmap. exists n. split; [|done].
  apply elem_of_seq in Hn. lia.
Qed.

(** Membership in the range of a two-character prefix whose last character
    is not the largest one: the key starts with the prefix. *)
Lemma inRange_two_chars x y a b rest :
  (Ascii.N_of_ascii y < 255)%N →
  inRange (String x (String y EmptyString),
           prefixSuccessor (String x (String y EmptyString)))
          (String a (String b rest)) = true ↔ a = x ∧ b = y.
Proof.
  intros Hy. unfold inRange, String.leb, String.ltb. simpl.
  unfold Ascii.compare.
  rewrite Ascii.N_ascii_embedding by lia.
  rewrite andb_true_iff.
  split.
  - intros [Hle Hlt].
    destruct (N.compare_spec (Ascii.N_of_ascii x) (Ascii.N_of_ascii a)) as [Hxa|Hxa|Hxa];
      destruct (N.compare_spec (Ascii.N_of_ascii a) (Ascii.N_of_ascii x)) as [Hax|Hax|Hax];
      try lia; try done.
    apply N_of_ascii_inj in Hxa as ->. split; [done|].
    destruct (N.compare_spec (Ascii.N_of_ascii y) (Ascii.N_of_ascii b)) as [Hyb|Hyb|Hyb];
      destruct (N.compare_spec (Ascii.N_of_ascii b) (Ascii.N_of_ascii y + 1))
        as [Hby|Hby|Hby];
      try lia; try done.
    + by apply N_of_ascii_inj in Hyb.
    + by destruct rest.
  - intros [-> ->]. rewrite !N.compare_refl.
    assert ((Ascii.N_of_ascii y ?= Ascii.N_of_ascii y + 1)%N = Lt) as ->
      by (apply N.compare_lt_iff; lia).
    by destruct rest.
Qed.

Lemma shardPrefix_last_code s :
  (s < numShards)%nat →
  (Ascii.N_of_ascii (hexDigit ((s + 16) mod 16)) < 255)%N.
Proof.
  intros Hs. rewrite hexDigit_code by (apply Nat.mod_upper_bound; lia).
  pose proof (Nat.mod_upper_bound (s + 16) 16). case_match; lia.
Qed.

Lemma inRange_shard s a b rest :
  (s < numShards)%nat →
  inRange (shardRange s) (String a (String b rest)) = true ↔
  shardPrefix s = String a (String b EmptyString).
Proof.
  intros Hs. unfold shardRange, shardPrefix.
  rewrite inRange_two_chars by by apply shardPrefix_last_code.
  split; [by intros [-> ->]|]. intros Heq. by inversion Heq.
Qed.

(** C6: the shards [0..239] correspond one to one to the two-hex-character
    prefixes that do not start with 0, and every fingerprint text with such a
    prefix lies in the row-key range of exactly one shard. *)
Theorem shards_partition_keyspace :
  (∀ s, (s < numShards)%nat →
     validFingerprint (shardPrefix s) = true ∧ String.length (shardPrefix s) = 2%nat) ∧
  (∀ s s', (s < numShards)%nat → (s' < numShards)%nat →
     shardPrefix s = shardPrefix s' → s = s') ∧
  (∀ p, validFingerprint p = true → String.length p = 2%nat →
     ∃ s, (s < numShards)%nat ∧ shardPrefix s = p) ∧
  shardPrefix 0 = "10"%string ∧ shardPrefix 239 = "ff"%string ∧
  (∀ fp, validFingerprint fp = true →
     ∃ s, (s < numShards)%nat ∧ inRange (shardRange s) fp = true ∧
          ∀ s', (s' < numShards)%nat → inRange (shardRange s') fp = true → s' = s).
Proof.
  assert (∀ a b, isHexDigit a = true → isHexDigit b = true → Ascii.eqb a (hexDigit 0) = false →
            ∃ s, (s < numShards)%nat ∧
                 shardPrefix s = String a (String b EmptyString)) as Hsurj.
  { intros a b (n & Hn & ->)%isHexDigit_value (m & Hm & ->)%isHexDigit_value Hz.
    assert (n ≠ 0%nat) by (intros ->; by vm_compute in Hz).
    exists (16 * n + m - 16)%nat. split; [unfold numShards; lia|].
    apply shardPrefix_digits; lia. }
  split_and!.
  - intros s Hs. split; [|done].
    unfold numShards in Hs.
    assert (Forall (λ s, validFingerprint (shardPrefix s) = true) (seq 0 240)) as Hall.
    { apply (bool_decide_eq_true_1 _). by vm_compute. }
    rewrite Forall_forall in Hall. apply Hall, elem_of_seq. lia.
  - apply shardPrefix_inj.
  - intros [|a [|b [|??]]]; try done. simpl.
    intros [[Ha Hb]%andb_true_iff Hz%negb_true_iff]%andb_true_iff _. by apply Hsurj.
  - done.
  - done.
  - intros [|a [|b rest]]; try done. simpl.
    intros [[Ha Hb]%andb_true_iff Hz%negb_true_iff]%andb_true_iff.
    destruct (Hsurj a b Ha Hb Hz) as (s & Hs & Hp). exists s. split_and!; [done| |].
    + by apply inRange_shard.
    + intros s' Hs' Hin. apply inRange_shard in Hin; [|done].
      apply shardPrefix_inj; congruence.
Qed.

End scanner.

Lemma shards_partition_keyspace_witness :
  ∃ s, (s < numShards)%nat ∧ inRange (shardRange s) "abcd"%string = true ∧
       ∀ s', (s' < numShards)%nat → inRange (shardRange s') "abcd"%string = true →
             s' = s.
Proof.
  apply (proj2 (proj2 (proj2 (proj2 (proj2 shards_partition_keyspace))))).
  by vm_compute.
Defined.

(** ** The write path *)

Section write_path.
Context `{Package}.

(** The mutation that [PutChunks] builds for a chunk. *)
Lemma PutChunks_group_inv chunks : ∀ keys0 muts0 keys muts,
  PutChunks_group chunks keys0 muts0 = inl (keys, muts) →
  ∀ tableName,
    ∃ bufs,
      Forall2 (λ c buf, Encoded c = inl buf) (filter (routed tableName) chunks) bufs ∧
      default [] (keys !! tableName) =
        default [] (keys0 !! tableName) ++
          (ExternalKey <$> filter (routed tableName) chunks) ∧
      default [] (muts !! tableName) =
        default [] (muts0 !! tableName) ++
          ((λ buf, [Bigtable.OpSetCell columnFamily column 0 buf]) <$> bufs).
Proof.
  induction chunks as [|c chunks IH]; intros keys0 muts0 keys muts; simpl.
  { intros [= <- <-] tn. exists []. by rewrite !app_nil_r. }
  destruct (Encoded c) as [buf|err] eqn:Henc; [|done].
  destruct (ChunkTableFor (From c)) as [tc|err] eqn:Htab; [|done].
  intros Hg tn. destruct (IH _ _ _ _ Hg tn) as (bufs & Hbufs & Hk & Hm).
  rewrite filter_cons. destruct (decide (routed tn c)) as [Hr|Hr].
  - unfold routed in Hr. assert (tc = tn) as -> by congruence.
    exists (buf :: bufs). split_and!.
    + by constructor.
    + rewrite Hk, lookup_insert_eq. simpl. by rewrite <-app_assoc.
    + rewrite Hm, lookup_insert_eq. simpl. by rewrite <-app_assoc.
  - assert (tc ≠ tn) by (intros ->; by apply Hr).
    exists bufs. split_and!; [done|..].
    + by rewrite Hk, lookup_insert_ne.
    + by rewrite Hm, lookup_insert_ne.
Qed.

(** Where the first loop of [PutChunks] puts the key and the mutation of a
    chunk. *)
Lemma PutChunks_group_position chunks keys muts c :
  PutChunks_group chunks ∅ ∅ = inl (keys, muts) →
  c ∈ chunks →
  ∃ buf tableName j,
    Encoded c = inl buf ∧ routed tableName c ∧
    default [] (keys !! tableName) !! j = Some (ExternalKey c) ∧
    default [] (muts !! tableName) !! j =
      Some [Bigtable.OpSetCell columnFamily column 0 buf].
Proof.
  intros Hg Hc.
  assert (∃ tn, routed tn c) as [tn Hr].
  { clear -Hg Hc. revert Hg. generalize (∅ : gmap string (list string)).
    generalize (∅ : gmap string (list Bigtable.Mutation)).
    induction chunks as [|c' chunks IH]; intros m k; [by apply elem_of_nil in Hc|].
    simpl. destruct (Encoded c'); [|done].
    destruct (ChunkTableFor (From c')) as [tn|] eqn:Htn; [|done].
    apply elem_of_cons in Hc as [->|Hc]; [by exists tn|]. by apply IH. }
  destruct (PutChunks_group_inv _ _ _ _ _ Hg tn) as (bufs & Hbufs & Hk & Hm).
  rewrite lookup_empty in Hk. rewrite lookup_empty in Hm. simpl in Hk, Hm.
  assert (c ∈ filter (routed tn) chunks) as Hin by by apply list_elem_of_filter.
  apply list_elem_of_lookup in Hin as [j Hj].
  destruct (Forall2_lookup_l _ _ _ _ _ Hbufs Hj) as (buf & Hbuf & Henc).
  exists buf, tn, j. split_and!; [done..| |].
  - by rewrite Hk, list_lookup_fmap, Hj.
  - by rewrite Hm, list_lookup_fmap, Hbuf.
Qed.

Lemma apply_op_blank clock key buf :
  Bigtable.apply_op clock key ∅ (Bigtable.OpSetCell columnFamily column 0 buf)
  = {[ columnFamily := [chunk_cell key buf] ]}.
Proof.
  unfold Bigtable.apply_op, chunk_cell. simpl.
  by rewrite lookup_empty, insert_empty.
Qed.

(** C7, as the code has it: for every chunk of a batch that the first loop
    accepts, the mutation accumulated at the position of the chunk's key is
    the single operation that sets (columnFamily, column) to the encoded bytes
    with the explicit timestamp 0, which is not the server-time marker: the
    stored cell is stamped 0, not with the store's clock. *)
Theorem PutChunks_mutation_sets_cell_at_zero chunks keys muts c :
  PutChunks_group chunks ∅ ∅ = inl (keys, muts) →
  c ∈ chunks →
  ∃ buf tableName j,
    Encoded c = inl buf ∧ routed tableName c ∧
    default [] (keys !! tableName) !! j = Some (ExternalKey c) ∧
    default [] (muts !! tableName) !! j =
      Some [Bigtable.OpSetCell columnFamily column 0 buf] ∧
    ¬ store_assigned [Bigtable.OpSetCell columnFamily column 0 buf] ∧
    ∀ clock key,
      Bigtable.apply_op clock key ∅ (Bigtable.OpSetCell columnFamily column 0 buf)
      = {[ columnFamily := [chunk_cell key buf] ]}.
Proof.
  intros Hg Hc.
  destruct (PutChunks_group_position _ _ _ _ Hg Hc) as (buf & tn & j & ? & ? & ? & ?).
  exists buf, tn, j. split_and!; [done..| |].
  - intros Hsa. by specialize (Hsa _ _ _ _ (list_elem_of_here _ _)).
  - intros clock key. apply apply_op_blank.
Qed.

End write_path.

Lemma PutChunks_mutation_sets_cell_at_zero_witness :
  ∃ buf tableName j,
    @Encoded (sample 2) chunk1 = inl buf ∧ @routed (sample 2) tableName chunk1 ∧
    default []
      (({[ "chunks_0" := ["1/43981:0:3600"]%string ]} : gmap string (list string))
         !! tableName) !! j
      = Some (@ExternalKey (sample 2) chunk1) ∧
    default []
      (({[ "chunks_0" := [[Bigtable.OpSetCell "f" "c" 0 (Data chunk1)]] ]}
          : gmap string (list Bigtable.Mutation)) !! tableName) !! j
      = Some [Bigtable.OpSetCell "f" "c" 0 buf] ∧
    ¬ store_assigned [Bigtable.OpSetCell "f" "c" 0 buf] ∧
    ∀ clock key,
      Bigtable.apply_op clock key ∅ (Bigtable.OpSetCell "f" "c" 0 buf)
      = {[ "f" := [@chunk_cell (sample 2) key buf] ]}.
Proof.
  apply (@PutChunks_mutation_sets_cell_at_zero (sample 2) [chunk1]).
  - reflexivity.
  - apply list_elem_of_here.
Defined.

(** C7 as stated fails: the mutation built for [chunk1] carries the timestamp
    0, which is a timestamp of its own and not the marker that leaves the
    choice to the server; written to a store whose clock reads 5, the cell is
    stamped 0. *)
Lemma PutChunks_timestamp_not_store_assigned :
  ¬ (∀ chunks keys muts tableName ms m,
       @PutChunks_group (sample 2) chunks ∅ ∅ = inl (keys, muts) →
       muts !! tableName = Some ms → m ∈ ms → store_assigned m) ∧
  (let b := (@PutChunks (sample 2) id store_with_table [chunk1]).1 in
   Bigtable.bt_clock b = 5%Z ∧
   ∃ tb row item,
     Bigtable.bt_tables b !! "chunks_0" = Some tb ∧
     Bigtable.tb_rows tb !! "1/43981:0:3600" = Some row ∧
     row !! "f" = Some [item] ∧ Bigtable.ri_Timestamp item = 0%Z).
Proof.
  split.
  - intros Hall.
    specialize (Hall [chunk1] {[ "chunks_0" := ["1/43981:0:3600"]%string ]}
      ({[ "chunks_0" := [[Bigtable.OpSetCell "f" "c" 0 (Data chunk1)]] ]}
         : gmap string (list Bigtable.Mutation))
      "chunks_0" [[Bigtable.OpSetCell "f" "c" 0 (Data chunk1)]]
      [Bigtable.OpSetCell "f" "c" 0 (Data chunk1)] eq_refl eq_refl
      (list_elem_of_here _ _)).
    by specialize (Hall _ _ _ _ (list_elem_of_here _ _)).
  - cbv zeta. split; [by vm_compute|].
    eexists _, _, _. split_and!; by vm_compute.
Qed.

Section write_store.
Context `{Package}.

(** *** What a successful [PutChunks] leaves in the store *)

Lemma apply_entry_ok clock fams rows key m rows' :
  Bigtable.apply_entry clock fams rows key m = (rows', None) →
  rows' = <[key := foldl (Bigtable.apply_op clock key) (default ∅ (rows !! key)) m]> rows.
Proof.
  unfold Bigtable.apply_entry. destruct (list_find _ m) as [[??]|]; [done|].
  by intros [= <-].
Qed.

Lemma apply_entries_frame clock fams entries : ∀ rows rows' errs key,
  Bigtable.apply_entries clock fams rows entries = (rows', errs) →
  key ∉ entries.*1 → rows' !! key = rows !! key.
Proof.
  induction entries as [|[k m] entries IH]; intros rows rows' errs key; simpl.
  { by intros [= <- <-]. }
  destruct (Bigtable.apply_entry clock fams rows k m) as [rows1 e] eqn:H1.
  destruct (Bigtable.apply_entries clock fams rows1 entries) as [rows2 es] eqn:H2.
  intros [= <- <-] Hkey. apply not_elem_of_cons in Hkey as [Hne Hkey].
  rewrite (IH _ _ _ _ H2 Hkey). unfold Bigtable.apply_entry in H1.
  destruct (list_find _ m) as [[??]|]; simplify_eq; [done|].
  by rewrite lookup_insert_ne.
Qed.

Lemma apply_entries_lookup clock fams entries : ∀ rows rows' errs,
  Bigtable.apply_entries clock fams rows entries = (rows', errs) →
  first_error errs = None → NoDup entries.*1 →
  ∀ key m, (key, m) ∈ entries →
    rows' !! key
    = Some (foldl (Bigtable.apply_op clock key) (default ∅ (rows !! key)) m).
Proof.
  induction entries as [|[k m] entries IH]; intros rows rows' errs; simpl.
  { by intros _ _ _ key m' ?%elem_of_nil. }
  destruct (Bigtable.apply_entry clock fams rows k m) as [rows1 e] eqn:H1.
  destruct (Bigtable.apply_entries clock fams rows1 entries) as [rows2 es] eqn:H2.
  intros [= <- <-] Herr [Hk Hnd]%NoDup_cons key m' Hin.
  destruct e as [e|]; [done|]. simpl in Herr.
  apply apply_entry_ok in H1 as ->.
  apply elem_of_cons in Hin as [[= -> ->]|Hin].
  - rewrite (apply_entries_frame _ _ _ _ _ _ _ H2 Hk). by rewrite lookup_insert_eq.
  - rewrite (IH _ _ _ H2 Herr Hnd _ _ Hin).
    assert (key ≠ k).
    { intros ->. apply Hk. apply list_elem_of_fmap. by exists (k, m'). }
    by rewrite lookup_insert_ne.
Qed.

Lemma rpc_clock b : Bigtable.bt_clock (Bigtable.rpc b).1 = Bigtable.bt_clock b.
Proof. unfold Bigtable.rpc. by destruct (Bigtable.bt_faults b). Qed.

Lemma ApplyBulk_ok b table ks ms b' errs :
  Bigtable.ApplyBulk b table ks ms = (b', errs, None) →
  length ks = length ms ∧
  ∃ tb rows',
    Bigtable.bt_tables b !! table = Some tb ∧
    Bigtable.apply_entries (Bigtable.bt_clock b)
      (Bigtable.family_names (Bigtable.tb_families tb)) (Bigtable.tb_rows tb)
      (zip ks ms) = (rows', errs) ∧
    Bigtable.bt_tables b' =
      <[table := {| Bigtable.tb_families := Bigtable.tb_families tb;
                    Bigtable.tb_rows := rows' |}]> (Bigtable.bt_tables b).
Proof.
  unfold Bigtable.ApplyBulk. case_decide as Hlen; [done|].
  pose proof (rpc_tables b) as Hr. pose proof (rpc_clock b) as Hc.
  destruct (Bigtable.rpc b) as [b1 [e|]]; simpl in Hr, Hc; [done|].
  rewrite Hr. rewrite Hc.
  destruct (Bigtable.bt_tables b !! table) as [tb|]; [|done].
  destruct (Bigtable.apply_entries _ _ _ _) as [rows' errs'] eqn:Hrows.
  intros [= <- <-]. split; [by destruct (decide (length ks = length ms))|].
  by exists tb, rows'.
Qed.

Lemma PutChunks_apply_ok keys muts names : ∀ b b',
  NoDup names → PutChunks_apply b names keys muts = (b', None) →
  (∀ table, table ∉ names →
     Bigtable.bt_tables b' !! table = Bigtable.bt_tables b !! table) ∧
  (∀ table, table ∈ names →
     ∃ clock tb rows' errs,
       Bigtable.bt_tables b !! table = Some tb ∧
       Bigtable.apply_entries clock
         (Bigtable.family_names (Bigtable.tb_families tb)) (Bigtable.tb_rows tb)
         (zip (default [] (keys !! table)) (default [] (muts !! table)))
         = (rows', errs) ∧
       first_error errs = None ∧
       Bigtable.bt_tables b' !! table =
         Some {| Bigtable.tb_families := Bigtable.tb_families tb;
                 Bigtable.tb_rows := rows' |}).
Proof.
  induction names as [|tn names IH]; intros b b' Hnd; simpl.
  { intros [= <-]. split; [done|]. by intros ? ?%elem_of_nil. }
  apply NoDup_cons in Hnd as [Htn Hnd].
  destruct (Bigtable.ApplyBulk b tn _ _) as [[b1 errs] [e|]] eqn:Hbulk; [done|].
  destruct (first_error errs) eqn:Herrs; [done|].
  intros Hrest. destruct (IH _ _ Hnd Hrest) as [Hframe Hin].
  apply ApplyBulk_ok in Hbulk as (_ & tb & rows' & Htb & Hrows & Hb1).
  split.
  - intros table [Hne Hnot]%not_elem_of_cons.
    by rewrite (Hframe _ Hnot), Hb1, lookup_insert_ne.
  - intros table [->|Hmem]%elem_of_cons.
    + exists (Bigtable.bt_clock b), tb, rows', errs. split_and!; [done..|].
      by rewrite (Hframe _ Htn), Hb1, lookup_insert_eq.
    + destruct (Hin _ Hmem) as (clock & tb' & rows'' & errs' & Htb' & ? & ? & ?).
      exists clock, tb', rows'', errs'. split_and!; [|done..].
      rewrite Hb1, lookup_insert_ne in Htb'; [done|]. by intros ->.
Qed.

Lemma NoDup_fmap_filter {A B} (f : A → B) (P : A → Prop) `{∀ x, Decision (P x)} l :
  NoDup (f <$> l) → NoDup (f <$> filter P l).
Proof.
  induction l as [|x l IH]; [done|]. csimpl. intros [Hx Hnd]%NoDup_cons.
  rewrite filter_cons. case_decide; [|by apply IH]. csimpl.
  apply NoDup_cons. split; [|by apply IH].
  intros (y & Hy & [_ Hin]%list_elem_of_filter)%list_elem_of_fmap.
  apply Hx. apply list_elem_of_fmap. by exists y.
Qed.

(** After a successful [PutChunks] on a store without rows, the row of every
    chunk of the batch is the single cell that holds its encoding. *)
Lemma PutChunks_holds range b0 chunks b1 :
  (∀ l, range l ≡ₚ l) → blank b0 → NoDup (ExternalKey <$> chunks) →
  PutChunks range b0 chunks = (b1, None) →
  ∀ c, c ∈ chunks → holds b1 c.
Proof.
  intros Hrange Hblank Hnd. unfold PutChunks.
  destruct (PutChunks_group chunks ∅ ∅) as [[keys muts]|] eqn:Hg; [|done].
  intros Happly c Hc.
  destruct (PutChunks_group_position _ _ _ _ Hg Hc)
    as (buf & tn & j & Henc & Hr & Hkj & Hmj).
  destruct (PutChunks_group_inv _ _ _ _ _ Hg tn) as (bufs & Hbufs & Hk & Hm).
  rewrite lookup_empty in Hk. rewrite lookup_empty in Hm. simpl in Hk, Hm.
  apply PutChunks_apply_ok in Happly as [_ Hin].
  2:{ rewrite Hrange. apply NoDup_fst_map_to_list. }
  destruct (Hin tn) as (clock & tb & rows' & errs & Htb & Hrows & Herrs & Htb').
  { rewrite Hrange. apply list_elem_of_fmap.
    destruct (keys !! tn) as [ks|] eqn:Hks.
    - exists (tn, ks). split; [done|]. by apply elem_of_map_to_list.
    - simpl in Hkj. by rewrite lookup_nil in Hkj. }
  exists tn, {| Bigtable.tb_families := Bigtable.tb_families tb;
                Bigtable.tb_rows := rows' |}, buf.
  split_and!; [done..|]. simpl.
  assert (rows' !! ExternalKey c
          = Some (foldl (Bigtable.apply_op clock (ExternalKey c))
                    (default ∅ (Bigtable.tb_rows tb !! ExternalKey c))
                    [Bigtable.OpSetCell columnFamily column 0 buf])) as ->.
  { eapply apply_entries_lookup; [exact Hrows|exact Herrs|..]. 
    - rewrite fst_zip.
      + rewrite Hk. by apply NoDup_fmap_filter.
      + rewrite Hk, Hm, !length_fmap. by rewrite (Forall2_length _ _ _ Hbufs).
    - apply list_elem_of_lookup. exists j. by apply lookup_zip_Some. }
  rewrite (Hblank _ _ Htb), lookup_empty. simpl. by rewrite insert_empty.
Qed.

End write_store.

(** ** The read path *)

Section read_path.
Context `{Package}.

(** *** The pages of a key list *)

Lemma pages_from_stuck fuel i keys :
  maxRowReads = 0%nat → (i < length keys)%nat → pages_from fuel i keys = None.
Proof.
  intros Hm Hi. induction fuel as [|fuel IH]; simpl.
  - by rewrite decide_True.
  - rewrite decide_True by done. rewrite Hm, Nat.add_0_r, IH. done.
Qed.

Lemma pages_from_Some fuel : ∀ i keys ps,
  pages_from fuel i keys = Some ps →
  mjoin ps = drop i keys ∧
  Forall (λ p, p ≠ [] ∧ (length p ≤ maxRowReads)%nat) ps.
Proof.
  induction fuel as [|fuel IH]; intros i keys ps; simpl.
  - case_decide; [done|]. intros [= <-]. split; [|done].
    simpl. by rewrite drop_ge by lia.
  - case_decide as Hi.
    + destruct (decide (maxRowReads = 0%nat)) as [Hm|Hm].
      { rewrite pages_from_stuck by (rewrite ?Hm; lia). done. }
      destruct (pages_from fuel (i + maxRowReads) keys) as [ps'|] eqn:Hps; [|done].
      simpl. intros [= <-]. apply IH in Hps as [Hjoin Hall]. split.
      * simpl. rewrite Hjoin.
        destruct (decide (i + maxRowReads ≤ length keys)%nat).
        -- rewrite Nat.min_l by done.
           replace (i + maxRowReads - i)%nat with maxRowReads by lia.
           rewrite <-drop_drop. apply take_drop.
        -- rewrite Nat.min_r by lia.
           rewrite (drop_ge keys (i + _)) by lia. rewrite app_nil_r.
           apply take_ge. rewrite length_drop. lia.
      * constructor; [|done]. split.
        -- intros Hnil%(f_equal length). rewrite length_take, length_drop in Hnil.
           simpl in Hnil. lia.
        -- rewrite length_take. lia.
    + intros [= <-]. split; [|done]. simpl. by rewrite drop_ge by lia.
Qed.

Lemma pages_from_total fuel : ∀ i keys,
  (0 < maxRowReads)%nat → (length keys - i ≤ fuel)%nat →
  is_Some (pages_from fuel i keys).
Proof.
  induction fuel as [|fuel IH]; intros i keys Hm Hf; simpl.
  - rewrite decide_False by lia. done.
  - case_decide; [|done].
    destruct (IH (i + maxRowReads)%nat keys Hm) as [ps ->]; [lia|]. done.
Qed.

Lemma pages_Some keys ps :
  pages keys = Some ps →
  mjoin ps = keys ∧ Forall (λ p, p ≠ [] ∧ (length p ≤ maxRowReads)%nat) ps.
Proof. intros Hp. by apply pages_from_Some in Hp. Qed.

Lemma pages_total keys : (0 < maxRowReads)%nat → is_Some (pages keys).
Proof. intros Hm. apply pages_from_total; [done|lia]. Qed.

(** *** The grouping loop *)

Lemma join_map_insert_snoc {A} (m : gmap string (list A)) table x :
  mjoin (map_to_list (<[table := default [] (m !! table) ++ [x]]> m)).*2
  ≡ₚ x :: mjoin (map_to_list m).*2.
Proof.
  destruct (m !! table) as [l|] eqn:Hl; simpl.
  - rewrite <-(insert_delete_eq m table (l ++ [x])).
    rewrite map_to_list_insert by apply lookup_delete_eq.
    rewrite <-(insert_id m table l) at 2 by done.
    rewrite <-(insert_delete_eq m table l).
    rewrite (map_to_list_insert (delete table m) table l) by apply lookup_delete_eq.
    simpl. rewrite <-app_assoc. simpl. by rewrite <-Permutation_middle.
  - by rewrite map_to_list_insert.
Qed.

Lemma GetChunks_group_keys input : ∀ cms0 keys0 cms keys,
  GetChunks_group input cms0 keys0 = inl (cms, keys) →
  mjoin (map_to_list keys).*2 ≡ₚ mjoin (map_to_list keys0).*2 ++ (ExternalKey <$> input).
Proof.
  induction input as [|c input IH]; intros cms0 keys0 cms keys; simpl.
  { intros [= <- <-]. by rewrite app_nil_r. }
  destruct (ChunkTableFor (From c)) as [tn|]; [|done].
  intros Hg%IH. rewrite Hg, join_map_insert_snoc. simpl.
  apply Permutation_middle.
Qed.

(** *** Spawning *)

Lemma spawn_table_Some cms entry ts :
  spawn_table cms entry = Some ts →
  ∃ ps, ts = Spawned entry.1 (default ∅ (cms !! entry.1)) <$> ps ∧
        mjoin ps = entry.2 ∧
        Forall (λ p, p ≠ [] ∧ (length p ≤ maxRowReads)%nat) ps.
Proof.
  unfold spawn_table. destruct (pages entry.2) as [ps|] eqn:Hps; [|done].
  intros [= <-]. apply pages_Some in Hps as [Hjoin Hall]. by exists ps.
Qed.

Lemma spawned_budget table cm ps :
  Forall (λ p : list string, p ≠ [] ∧ (length p ≤ maxRowReads)%nat) ps →
  sum_list_with out_budget (Spawned table cm <$> ps) = length (mjoin ps) ∧
  (length (Spawned table cm <$> ps) ≤ length (mjoin ps))%nat ∧
  sum_list_with err_budget (Spawned table cm <$> ps) = length (Spawned table cm <$> ps).
Proof.
  induction 1 as [|p ps [Hp _] _ (IH1 & IH2 & IH3)]; [done|].
  csimpl. rewrite length_app. split_and!; [lia| |lia].
  destruct p; [done|]. simpl. lia.
Qed.

Lemma spawn_table_budget cms entry ts :
  spawn_table cms entry = Some ts →
  sum_list_with out_budget ts = length entry.2 ∧
  (length ts ≤ length entry.2)%nat ∧
  sum_list_with err_budget ts = length ts.
Proof.
  intros (ps & -> & <- & Hall)%spawn_table_Some. by apply spawned_budget.
Qed.

Lemma spawn_all_budget cms entries : ∀ ts,
  spawn_all cms entries = Some ts →
  sum_list_with out_budget ts = length (mjoin entries.*2) ∧
  (length ts ≤ length (mjoin entries.*2))%nat ∧
  sum_list_with err_budget ts = length ts.
Proof.
  induction entries as [|entry entries IH]; intros ts; csimpl.
  { by intros [= <-]. }
  destruct (spawn_table cms entry) as [ts1|] eqn:H1; [|done].
  destruct (spawn_all cms entries) as [ts2|] eqn:H2; [|done].
  intros [= <-]. apply spawn_table_budget in H1 as (? & ? & ?).
  destruct (IH _ eq_refl) as (? & ? & ?).
  rewrite !sum_list_with_app, !length_app. lia.
Qed.

End read_path.

Section goroutines.
Context `{Package}.

(** *** What a page goroutine sends *)

Lemma outs_of_sends sent todo :
  outs_of ((SendOut <$> sent) ++ todo) = sent ++ outs_of todo.
Proof.
  unfold outs_of. rewrite omap_app. f_equal.
  induction sent as [|c sent IH]; [done|]. csimpl. by f_equal.
Qed.

Lemma errs_of_sends sent todo :
  errs_of ((SendOut <$> sent) ++ todo) = errs_of todo.
Proof.
  unfold errs_of. rewrite omap_app.
  assert (omap (λ a, match a with SendErr e => Some e | _ => None end)
            (SendOut <$> sent) = []) as ->; [|done].
  by induction sent as [|c sent IH].
Qed.

Lemma callbacks_length cm rows :
  (length (callbacks cm rows).1 ≤ length rows)%nat.
Proof.
  induction rows as [|row rows IH]; simpl; [done|].
  repeat case_match; simpl in *; lia.
Qed.

Lemma page_actions_outs cm page rows err :
  outs_of (page_actions cm page rows err) = (callbacks cm rows).1.
Proof.
  unfold page_actions. destruct (callbacks cm rows) as [sent e].
  rewrite outs_of_sends. simpl. repeat case_match; by rewrite app_nil_r.
Qed.

Lemma page_actions_errs cm page rows err :
  (length (errs_of (page_actions cm page rows err)) ≤ 1)%nat.
Proof.
  unfold page_actions. destruct (callbacks cm rows) as [sent e].
  rewrite errs_of_sends. repeat case_match; simpl; lia.
Qed.

Lemma length_omap_le {A B} (f : A → option B) l :
  (length (omap f l) ≤ length l)%nat.
Proof. induction l as [|x l IH]; csimpl; [done|]. destruct (f x); csimpl; lia. Qed.

Lemma length_remove_dups_le `{EqDecision A} (l : list A) :
  (length (remove_dups l) ≤ length l)%nat.
Proof.
  induction l as [|x l IH]; simpl; [done|].
  destruct (decide_rel elem_of x l); simpl; lia.
Qed.

Lemma deliver_length tb page :
  (length (Bigtable.deliver tb page) ≤ length page)%nat.
Proof.
  unfold Bigtable.deliver.
  etrans; [apply length_omap_le|]. rewrite merge_sort_Permutation.
  apply length_remove_dups_le.
Qed.

Lemma ReadRows_bounds b table page b' rows err :
  Bigtable.ReadRows b table page = (b', rows, err) →
  Bigtable.bt_tables b' = Bigtable.bt_tables b ∧ (length rows ≤ length page)%nat.
Proof.
  unfold Bigtable.ReadRows. pose proof (rpc_tables b) as Hr.
  destruct (Bigtable.rpc b) as [b1 [e|]]; simpl in Hr.
  { intros [= <- <- <-]. split; [done|]. simpl. lia. }
  destruct (Bigtable.bt_tables b1 !! table) as [tb|].
  - intros [= <- <- <-]. split; [done|]. apply deliver_length.
  - intros [= <- <- <-]. split; [done|]. simpl. lia.
Qed.

(** *** The channels never fill up *)

Lemma sum_list_with_insert {A} (f : A → nat) (l : list A) i x y :
  l !! i = Some x →
  (sum_list_with f (<[i:=y]> l) + f x = sum_list_with f l + f y)%nat.
Proof.
  revert i. induction l as [|z l IH]; intros [|i] Hi; simplify_eq/=; [lia|].
  specialize (IH _ Hi). lia.
Qed.

(** What every step preserves: capacities and lengths, and the two budgets,
    which pay for the sends. *)
Lemma step_budget s ev s' :
  step s ev = Some s' →
  st_outs_cap s' = st_outs_cap s ∧ st_errs_cap s' = st_errs_cap s ∧
  st_len s' = st_len s ∧ length (st_tasks s') = length (st_tasks s) ∧
  (length (st_outs s') + sum_list_with out_budget (st_tasks s')
     ≤ length (st_outs s) + sum_list_with out_budget (st_tasks s))%nat ∧
  (sends_out s ev + sum_list_with out_budget (st_tasks s')
     ≤ sum_list_with out_budget (st_tasks s))%nat ∧
  (length (st_errs s') + sum_list_with err_budget (st_tasks s')
     ≤ length (st_errs s) + sum_list_with err_budget (st_tasks s))%nat ∧
  (sends_err s ev + sum_list_with err_budget (st_tasks s')
     ≤ sum_list_with err_budget (st_tasks s))%nat.
Proof.
  unfold step. destruct (st_panicked s); [done|].
  destruct ev as [g|e| | |]; simpl.
  - unfold step_go. destruct (st_tasks s !! g) as [[table cm page|todo]|] eqn:Hg; [| |done].
    + destruct (Bigtable.ReadRows (st_bt s) table page) as [[b' rows] err] eqn:Hread.
      apply ReadRows_bounds in Hread as [_ Hlen].
      intros [= <-]. simpl. rewrite length_insert.
      pose proof (sum_list_with_insert out_budget _ _ _
                    (Running (page_actions cm page rows err)) Hg) as Ho.
      pose proof (sum_list_with_insert err_budget _ _ _
                    (Running (page_actions cm page rows err)) Hg) as He.
      simpl in Ho, He. rewrite page_actions_outs in Ho.
      pose proof (callbacks_length cm rows).
      pose proof (page_actions_errs cm page rows err).
      split_and!; [done..|lia|lia|lia|lia].
    + destruct todo as [|[c|e|] todo]; [done| | |].
      * case_decide; [|done]. intros [= <-]. simpl. rewrite length_insert, length_app.
        pose proof (sum_list_with_insert out_budget _ _ _ (Running todo) Hg) as Ho.
        pose proof (sum_list_with_insert err_budget _ _ _ (Running todo) Hg) as He.
        simpl in Ho, He. split_and!; [done..|simpl; lia|lia|lia|lia].
      * case_decide; [|done]. intros [= <-]. simpl. rewrite length_insert, length_app.
        pose proof (sum_list_with_insert out_budget _ _ _ (Running todo) Hg) as Ho.
        pose proof (sum_list_with_insert err_budget _ _ _ (Running todo) Hg) as He.
        simpl in Ho, He. split_and!; [done..|lia|lia|simpl; lia|lia].
      * intros [= <-]. simpl. rewrite length_insert.
        pose proof (sum_list_with_insert out_budget _ _ _ (Running todo) Hg) as Ho.
        pose proof (sum_list_with_insert err_budget _ _ _ (Running todo) Hg) as He.
        simpl in Ho, He. split_and!; [done..|lia|lia|lia|lia].
  - destruct (st_ctx s); [done|]. intros [= <-]. simpl. split_and!; (done || lia).
  - unfold step_select. destruct (st_result s); [done|].
    destruct (st_outs s) as [|c outs'] eqn:Ho; [done|].
    intros [= <-]. simpl. split_and!; (done || lia).
  - unfold step_select. destruct (st_result s); [done|].
    destruct (st_errs s) as [|e errs'] eqn:He; [done|].
    intros [= <-]. simpl. split_and!; (done || lia).
  - unfold step_select. destruct (st_result s); [done|].
    destruct (st_ctx s) as [e|]; [|done].
    intros [= <-]. simpl. split_and!; (done || lia).
Qed.

Lemma run_budget sched : ∀ s s',
  run s sched = Some s' →
  st_outs_cap s' = st_outs_cap s ∧ st_errs_cap s' = st_errs_cap s ∧
  st_len s' = st_len s ∧ length (st_tasks s') = length (st_tasks s) ∧
  (length (st_outs s') + sum_list_with out_budget (st_tasks s')
     ≤ length (st_outs s) + sum_list_with out_budget (st_tasks s))%nat ∧
  (count_along sends_out s sched + sum_list_with out_budget (st_tasks s')
     ≤ sum_list_with out_budget (st_tasks s))%nat ∧
  (length (st_errs s') + sum_list_with err_budget (st_tasks s')
     ≤ length (st_errs s) + sum_list_with err_budget (st_tasks s))%nat ∧
  (count_along sends_err s sched + sum_list_with err_budget (st_tasks s')
     ≤ sum_list_with err_budget (st_tasks s))%nat.
Proof.
  induction sched as [|ev sched IH]; intros s s'; simpl.
  { intros [= <-]. split_and!; (done || lia). }
  destruct (step s ev) as [s1|] eqn:Hstep; [|done].
  intros Hrun. apply IH in Hrun. apply step_budget in Hstep.
  destruct Hrun as (-> & -> & -> & -> & ? & ? & ? & ?).
  destruct Hstep as (-> & -> & -> & -> & ? & ? & ? & ?).
  split_and!; (done || lia).
Qed.

(** The state in which the gathering loop starts. *)
Lemma GetChunks_start_budget b ctx input s0 :
  GetChunks_start b ctx input = Some s0 →
  st_len s0 = length input ∧
  st_outs_cap s0 = length input ∧ st_errs_cap s0 = length input ∧
  st_outs s0 = [] ∧ st_errs s0 = [] ∧ st_output s0 = [] ∧
  st_panicked s0 = false ∧ st_ctx s0 = ctx ∧ st_bt s0 = b ∧
  (sum_list_with out_budget (st_tasks s0) ≤ length input)%nat ∧
  sum_list_with err_budget (st_tasks s0) = length (st_tasks s0) ∧
  (length (st_tasks s0) ≤ length input)%nat.
Proof.
  unfold GetChunks_start.
  destruct (GetChunks_group input ∅ ∅) as [[cms keys]|err] eqn:Hg.
  - destruct (spawn_all cms (map_to_list keys)) as [ts|] eqn:Hs; [|done].
    intros [= <-]. simpl. apply spawn_all_budget in Hs as (Ho & Hn & He).
    apply GetChunks_group_keys in Hg. rewrite map_to_list_empty in Hg. simpl in Hg.
    apply Permutation_length in Hg. rewrite length_fmap in Hg.
    split_and!; (done || lia).
  - intros [= <-]. simpl. split_and!; (done || lia).
Qed.

(** C9: both channels have capacity [len(input)]; along any schedule the
    sends on [outs] number at most [len(input)] and the sends on [errs] at
    most the number of page goroutines, itself at most [len(input)]; and in
    every state reached, before or after [GetChunks] has returned, every
    goroutine that has not finished can take its next step: no send blocks. *)
Theorem GetChunks_sends_never_block b ctx input s0 :
  GetChunks_start b ctx input = Some s0 →
  st_outs_cap s0 = length input ∧ st_errs_cap s0 = length input ∧
  (length (st_tasks s0) ≤ length input)%nat ∧
  ∀ sched s,
    run s0 sched = Some s →
    (count_along sends_out s0 sched ≤ length input)%nat ∧
    (count_along sends_err s0 sched ≤ length (st_tasks s0))%nat ∧
    ∀ g t, st_panicked s = false → st_tasks s !! g = Some t → unfinished t →
           is_Some (step s (EvGo g)).
Proof.
  intros (Hlen & Hoc & Hec & Ho & He & _ & _ & _ & _ & Hob & Heb & Hn)%GetChunks_start_budget.
  split_and!; [done..|].
  intros sched s (Hoc' & Hec' & _ & _ & Hos & Hoc2 & Hes & Hec2)%run_budget.
  rewrite Ho, He in *. simpl in *. split_and!; [lia..|].
  intros g t Hp Hg Hun. unfold step, step_go. rewrite Hp, Hg.
  destruct t as [table cm page|[|[c|e|] todo]]; [|done| | |].
  - by destruct (Bigtable.ReadRows (st_bt s) table page) as [[??]?].
  - pose proof (sum_list_with_in _ out_budget _ (list_elem_of_lookup_2 _ _ _ Hg)) as Hle.
    simpl in Hle. rewrite decide_True by lia. done.
  - pose proof (sum_list_with_in _ err_budget _ (list_elem_of_lookup_2 _ _ _ Hg)) as Hle.
    simpl in Hle. rewrite decide_True by lia. done.
  - done.
Qed.

End goroutines.

Section invariants.
Context `{Package}.

(** *** Steps and invariants *)

Lemma step_case_of s ev s' :
  step s ev = Some s' → st_panicked s = false ∧ step_case s ev s'.
Proof.
  unfold step. destruct (st_panicked s); [done|]. intros Hstep. split; [done|].
  destruct ev as [g|e| | |]; simpl in Hstep.
  - unfold step_go in Hstep.
    destruct (st_tasks s !! g) as [[table cm page|todo]|] eqn:Hg; [| |done].
    + destruct (Bigtable.ReadRows (st_bt s) table page) as [[b' rows] err] eqn:Hread.
      simplify_eq. by econstructor.
    + destruct todo as [|[c|e|] todo]; [done|..].
      * case_decide; [|done]. simplify_eq. by constructor.
      * case_decide; [|done]. simplify_eq. by constructor.
      * simplify_eq. by constructor.
  - destruct (st_ctx s) eqn:Hctx; [done|]. simplify_eq. by constructor.
  - unfold step_select in Hstep. destruct (st_result s) eqn:Hr; [done|].
    destruct (st_outs s) eqn:Ho; [done|]. simplify_eq. by constructor.
  - unfold step_select in Hstep. destruct (st_result s) eqn:Hr; [done|].
    destruct (st_errs s) eqn:He; [done|]. simplify_eq. by constructor.
  - unfold step_select in Hstep. destruct (st_result s) eqn:Hr; [done|].
    destruct (st_ctx s) eqn:Hctx; [|done]. simplify_eq. by constructor.
Qed.

Lemma run_invariant (P : State → Prop) :
  (∀ s ev s', P s → step s ev = Some s' → P s') →
  ∀ sched s s', P s → run s sched = Some s' → P s'.
Proof.
  intros Hstep. induction sched as [|ev sched IH]; intros s s' HP; simpl.
  - by intros [= <-].
  - destruct (step s ev) as [s1|] eqn:Hs; [|done]. eauto.
Qed.

Lemma run_app sched1 sched2 s s1 :
  run s sched1 = Some s1 → run s (sched1 ++ sched2) = run s1 sched2.
Proof.
  revert s. induction sched1 as [|ev sched1 IH]; intros s; simpl.
  - by intros [= <-].
  - destruct (step s ev) as [s'|]; [|done]. apply IH.
Qed.

(** What a read returns. *)
Lemma ReadRows_rows b table page b' rows err :
  Bigtable.ReadRows b table page = (b', rows, err) →
  Bigtable.bt_tables b' = Bigtable.bt_tables b ∧
  ((rows = [] ∧ is_Some err) ∨
   (rows = read_rows (Bigtable.bt_tables b) table page ∧ err = None ∧
    is_Some (Bigtable.bt_tables b !! table))).
Proof.
  unfold Bigtable.ReadRows, read_rows. pose proof (rpc_tables b) as Hr.
  destruct (Bigtable.rpc b) as [b1 [e|]]; simpl in Hr.
  { intros [= <- <- <-]. split; [done|]. left. eauto. }
  rewrite <-Hr. destruct (Bigtable.bt_tables b1 !! table) as [tb|].
  - intros [= <- <- <-]. split; [done|]. right. eauto.
  - intros [= <- <- <-]. split; [done|]. left. eauto.
Qed.

Lemma ReadRows_no_fault b table page :
  Bigtable.bt_faults b = [] →
  Bigtable.ReadRows b table page =
    (b, read_rows (Bigtable.bt_tables b) table page,
     match Bigtable.bt_tables b !! table with
     | Some _ => None
     | None => Some (Bigtable.notFound table)
     end).
Proof.
  intros Hf. unfold Bigtable.ReadRows, Bigtable.rpc, read_rows. rewrite Hf.
  by destruct (Bigtable.bt_tables b !! table).
Qed.

(** The gathering loop returns a slice only when it has received
    [len(input)] chunks. *)
Lemma step_gathered s ev s' : gathered s → step s ev = Some s' → gathered s'.
Proof.
  unfold gathered. intros Hg [_ Hc]%step_case_of.
  destruct Hc as [| | | | |c outs' Hr Ho| |]; simpl; try done.
  rewrite Hr in Hg. rewrite length_app in *. simpl.
  case_decide; [done|]. split; [done|]. rewrite length_app. simpl. lia.
Qed.

Lemma page_actions_alarm cm page rows err :
  alarm (Running (page_actions cm page rows err)) ∨
  (length page ≤ length (outs_of (page_actions cm page rows err)))%nat.
Proof.
  unfold page_actions, alarm. destruct (callbacks cm rows) as [sent e].
  rewrite outs_of_sends, errs_of_sends, length_app.
  destruct e as [|pe|].
  - destruct err; [left; by left|]. case_decide; [left; by left|].
    right. simpl. lia.
  - left. by left.
  - left. right. set_solver.
Qed.

Lemma Exists_insert_keep {A} (P : A → Prop) (l : list A) i x y :
  l !! i = Some x → (P x → P y) → Exists P l → Exists P (<[i:=y]> l).
Proof.
  intros Hi Hxy. rewrite !Exists_exists.
  intros (z & Hz & HP). apply list_elem_of_lookup in Hz as [j Hj].
  destruct (decide (i = j)) as [->|Hne].
  - exists y. split; [|naive_solver].
    apply list_elem_of_lookup. exists j. apply list_lookup_insert_eq.
    by eapply lookup_lt_Some.
  - exists z. split; [|done].
    apply list_elem_of_lookup. exists j. by rewrite list_lookup_insert_ne.
Qed.

Lemma Exists_insert_new {A} (P : A → Prop) (l : list A) i x y :
  l !! i = Some x → P y → Exists P (<[i:=y]> l).
Proof.
  intros Hi Hy. rewrite Exists_exists. exists y. split; [|done].
  apply list_elem_of_lookup. exists i. apply list_lookup_insert_eq.
  by eapply lookup_lt_Some.
Qed.

Lemma step_supplied s ev s' : supplied s → step s ev = Some s' → supplied s'.
Proof.
  unfold supplied. intros Hs [Hp Hc]%step_case_of.
  destruct Hs as [?|Hs]; [congruence|].
  destruct Hc as [g table cm page b' rows err Hg Hread|g c todo Hg Hcap
                 |g e todo Hg Hcap|g todo Hg|e Hctx|c outs' Hr Ho|e errs' Hr He
                 |e Hr Hctx]; simpl.
  - right. destruct Hs as [?|[?|[Hex|Hle]]]; [by left|by right; left|..].
    + right; right; left. by eapply Exists_insert_keep.
    + right; right.
      destruct (page_actions_alarm cm page rows err) as [Ha|Hlen].
      * left. by eapply Exists_insert_new.
      * right.
        pose proof (sum_list_with_insert out_budget _ _ _
                      (Running (page_actions cm page rows err)) Hg) as Ho.
        simpl in Ho. lia.
  - right. destruct Hs as [?|[?|[Hex|Hle]]]; [by left|by right; left|..].
    + right; right; left. eapply Exists_insert_keep; [done| |done].
      unfold alarm, errs_of. simpl. set_solver.
    + right; right; right. rewrite length_app. simpl.
      pose proof (sum_list_with_insert out_budget _ _ _ (Running todo) Hg) as Ho.
      simpl in Ho. lia.
  - right; right; left. by destruct (st_errs s).
  - by left.
  - by right.
  - right. destruct Hs as [?|[?|[Hex|Hle]]]; [done|by right; left|..].
    + by right; right; left.
    + right; right; right. rewrite Ho in Hle. rewrite length_app. simpl in *. lia.
  - right. by left.
  - right. by left.
Qed.

Lemma page_actions_calm cm page rows err :
  (callbacks cm rows).2 ≠ CbPanic → Panic ∉ page_actions cm page rows err.
Proof.
  unfold page_actions. destruct (callbacks cm rows) as [sent e]. simpl.
  intros He [Hin|Hin]%elem_of_app.
  - apply list_elem_of_fmap in Hin as (? & ? & ?). done.
  - destruct e as [|pe|]; [|set_solver|done].
    destruct err; [set_solver|]. case_decide; set_solver.
Qed.

Lemma step_calm tables s ev s' :
  calm tables s → step s ev = Some s' → calm tables s'.
Proof.
  intros (HT & Hp & Hall) [_ Hc]%step_case_of. unfold calm.
  destruct Hc as [g table cm page b' rows err Hg Hread|g c todo Hg Hcap
                 |g e todo Hg Hcap|g todo Hg|e Hctx|c outs' Hr Ho|e errs' Hr He
                 |e Hr Hctx]; simpl; try done.
  - apply ReadRows_rows in Hread as [Hb' Hrows]. split_and!; [congruence|done|].
    apply Forall_insert; [done|]. simpl. apply page_actions_calm.
    rewrite Forall_lookup in Hall. specialize (Hall _ _ Hg). simpl in Hall.
    destruct Hrows as [[-> _]|(-> & _ & _)]; [done|]. by rewrite HT.
  - split_and!; [done..|]. apply Forall_insert; [done|].
    rewrite Forall_lookup in Hall. specialize (Hall _ _ Hg). simpl in *. set_solver.
  - split_and!; [done..|]. apply Forall_insert; [done|].
    rewrite Forall_lookup in Hall. specialize (Hall _ _ Hg). simpl in *. set_solver.
  - rewrite Forall_lookup in Hall. specialize (Hall _ _ Hg). simpl in *. set_solver.
Qed.

End invariants.

Section progress.
Context `{Package}.

(** *** Some schedule makes the call return *)

Lemma step_roomy s ev s' : roomy s → step s ev = Some s' → roomy s'.
Proof.
  unfold roomy. intros [Ho He] (-> & -> & _ & _ & ? & _ & ? & _)%step_budget.
  split; lia.
Qed.

Lemma roomy_can_step s g t :
  roomy s → st_panicked s = false → st_tasks s !! g = Some t → unfinished t →
  is_Some (step s (EvGo g)).
Proof.
  intros [Ho He] Hp Hg Hun. unfold step, step_go. rewrite Hp, Hg.
  destruct t as [table cm page|[|[c|e|] todo]]; [|done| | |].
  - by destruct (Bigtable.ReadRows (st_bt s) table page) as [[??]?].
  - pose proof (sum_list_with_in _ out_budget _ (list_elem_of_lookup_2 _ _ _ Hg)) as Hle.
    simpl in Hle. rewrite decide_True by lia. done.
  - pose proof (sum_list_with_in _ err_budget _ (list_elem_of_lookup_2 _ _ _ Hg)) as Hle.
    simpl in Hle. rewrite decide_True by lia. done.
  - done.
Qed.

Lemma gather_frame_refl s : gather_frame s s.
Proof. by unfold gather_frame. Qed.

Lemma gather_frame_trans s1 s2 s3 :
  gather_frame s1 s2 → gather_frame s2 s3 → gather_frame s1 s3.
Proof.
  intros (? & ? & ? & ? & ? & ?) (? & ? & ? & ? & ? & ?).
  unfold gather_frame. split_and!; try congruence. auto.
Qed.

Lemma step_go_frame s g s' : step s (EvGo g) = Some s' → gather_frame s s'.
Proof.
  intros [_ Hc]%step_case_of. unfold gather_frame.
  inversion Hc as [? table cm page b' rows err Hg Hread|? c todo Hg Hcap
                  |? e todo Hg Hcap|? todo Hg| | | |]; subst; simpl;
    rewrite length_insert; (split_and!; [done..|]);
    intros g' Hg'; (destruct (decide (g = g')) as [->|Hne];
      [congruence|by rewrite list_lookup_insert_ne]).
Qed.

Lemma finish_running tables todo : ∀ s g,
  st_tasks s !! g = Some (Running todo) → roomy s → calm tables s →
  ∃ sched s', run s sched = Some s' ∧ gather_frame s s' ∧
              st_tasks s' !! g = Some (Running []).
Proof.
  induction todo as [|a todo IH]; intros s g Hg Hroom Hcalm.
  { exists [], s. split_and!; [done|apply gather_frame_refl|done]. }
  destruct Hcalm as (HT & Hp & Hall).
  destruct (roomy_can_step s g _ Hroom Hp Hg) as [s1 Hstep]; [done|].
  assert (st_tasks s1 !! g = Some (Running todo)) as Hg1.
  { destruct (step_case_of _ _ _ Hstep) as [_ Hc].
    inversion Hc; subst; simpl; simplify_eq;
      apply list_lookup_insert_eq; by eapply lookup_lt_Some. }
  destruct (IH s1 g Hg1) as (sched & s' & Hrun & Hfr & Hg').
  - by eapply step_roomy.
  - by eapply step_calm.
  - exists (EvGo g :: sched), s'. simpl. rewrite Hstep. split_and!; [done| |done].
    eapply gather_frame_trans; [|done]. by eapply step_go_frame.
Qed.

Lemma finish_task tables s g t :
  st_tasks s !! g = Some t → roomy s → calm tables s →
  ∃ sched s', run s sched = Some s' ∧ gather_frame s s' ∧
              st_tasks s' !! g = Some (Running []).
Proof.
  intros Hg Hroom Hcalm. destruct t as [table cm page|todo].
  - destruct (roomy_can_step s g _ Hroom (proj1 (proj2 Hcalm)) Hg) as [s1 Hstep];
      [done|].
    assert (∃ todo, st_tasks s1 !! g = Some (Running todo)) as [todo Hg1].
    { destruct (step_case_of _ _ _ Hstep) as [_ Hc].
      inversion Hc; subst; simpl; simplify_eq. eexists.
      apply list_lookup_insert_eq. by eapply lookup_lt_Some. }
    destruct (finish_running tables todo s1 g Hg1) as (sched & s' & Hrun & Hfr & Hg').
    + by eapply step_roomy.
    + by eapply step_calm.
    + exists (EvGo g :: sched), s'. simpl. rewrite Hstep. split_and!; [done| |done].
      eapply gather_frame_trans; [|done]. by eapply step_go_frame.
  - by eapply finish_running.
Qed.

Lemma finish_tasks tables k : ∀ s,
  (k ≤ length (st_tasks s))%nat → roomy s → calm tables s →
  ∃ sched s', run s sched = Some s' ∧ gather_frame s s' ∧
              ∀ g, (g < k)%nat → st_tasks s' !! g = Some (Running []).
Proof.
  induction k as [|k IH]; intros s Hk Hroom Hcalm.
  { exists [], s. split_and!; [done|apply gather_frame_refl|]. lia. }
  destruct (IH s) as (sched1 & s1 & Hrun1 & Hfr1 & Hdone1); [lia|done..|].
  assert (roomy s1) as Hroom1
    by (eapply (run_invariant roomy); [apply step_roomy|done..]).
  assert (calm tables s1) as Hcalm1
    by (eapply (run_invariant (calm tables)); [apply step_calm|done..]).
  destruct (lookup_lt_is_Some_2 (st_tasks s1) k) as [t Ht].
  { destruct Hfr1 as (_ & _ & _ & _ & -> & _). lia. }
  destruct (finish_task tables s1 k t Ht Hroom1 Hcalm1) as (sched2 & s2 & Hrun2 & Hfr2 & Hk2).
  exists (sched1 ++ sched2), s2. split_and!.
  - by rewrite (run_app _ _ _ _ Hrun1).
  - by eapply gather_frame_trans.
  - intros g Hg. destruct (decide (g = k)) as [->|]; [done|].
    destruct Hfr2 as (_ & _ & _ & _ & _ & Hkeep). apply Hkeep, Hdone1. lia.
Qed.

(** With every goroutine finished, the gathering loop empties the channels
    until it returns. *)
Lemma gather_returns n : ∀ s,
  (st_len s - length (st_output s) ≤ n)%nat →
  st_panicked s = false →
  Forall (.= Running []) (st_tasks s) → supplied s → gathered s →
  ∃ sched s' r, run s sched = Some s' ∧ st_result s' = Some r ∧ st_ctx s' = st_ctx s.
Proof.
  induction n as [|n IH]; intros s Hn Hp Hfin Hsup Hgat.
  - destruct (st_result s) as [r|] eqn:Hr.
    + by exists [], s, r.
    + unfold gathered in Hgat. rewrite Hr in Hgat. lia.
  - destruct (st_result s) as [r|] eqn:Hr; [by exists [], s, r|].
    assert (sum_list_with out_budget (st_tasks s) = 0%nat) as Hzero.
    { clear -Hfin. induction Hfin as [|t ts -> _ IH]; [done|]. simpl. by rewrite IH. }
    assert (¬ Exists alarm (st_tasks s)) as Hquiet.
    { intros (t & Ht & Ha)%Exists_exists. rewrite Forall_forall in Hfin.
      rewrite (Hfin _ Ht) in Ha. destruct Ha as [?|?%elem_of_nil]; done. }
    unfold gathered in Hgat. rewrite Hr in Hgat.
    pose proof Hsup as Hsup'.
    destruct Hsup' as [?|[?|[He|[?|Hle]]]]; [congruence|done| |done|].
    + destruct (st_errs s) as [|e errs'] eqn:Herrs; [done|].
      exists [EvRecvErr], (with_output (with_errs s errs') (st_output s) (Some (inr e))),
        (inr e).
      simpl. unfold step, step_select. by rewrite Hp, Hr, Herrs.
    + destruct (st_outs s) as [|c outs'] eqn:Houts; [simpl in Hle; lia|].
      set (s1 := with_output (with_outs s outs') (st_output s ++ [c])
                   (if decide (length (st_output s ++ [c]) < st_len s)%nat then None
                    else Some (inl (st_output s ++ [c])))).
      assert (step s EvRecvOut = Some s1) as Hstep.
      { unfold step, step_select. by rewrite Hp, Hr, Houts. }
      destruct (IH s1) as (sched & s' & r & Hrun & Hres & Hctx).
      * simpl. rewrite length_app. simpl. lia.
      * done.
      * done.
      * by eapply step_supplied.
      * eapply step_gathered; [|done]. unfold gathered. by rewrite Hr.
      * exists (EvRecvOut :: sched), s', r. simpl. by rewrite Hstep.
Qed.

(** From a state without panics ahead, some schedule without cancellation
    makes [GetChunks] return. *)
Lemma returns_under_some_schedule tables s :
  roomy s → supplied s → gathered s → calm tables s →
  ∃ sched s' r, run s sched = Some s' ∧ st_result s' = Some r ∧ st_ctx s' = st_ctx s.
Proof.
  intros Hroom Hsup Hgat Hcalm.
  destruct (finish_tasks tables (length (st_tasks s)) s) as (sched1 & s1 & Hrun1 & Hfr & Hfin);
    [done..|].
  destruct (gather_returns (st_len s1) s1) as (sched2 & s2 & r & Hrun2 & Hres & Hctx).
  - lia.
  - eapply (run_invariant (calm tables)) in Hrun1; [|apply step_calm|done].
    by destruct Hrun1 as (_ & ? & _).
  - apply Forall_lookup. intros g t Hg. destruct Hfr as (_ & _ & _ & _ & Hlen & _).
    assert (g < length (st_tasks s))%nat by (rewrite <-Hlen; by eapply lookup_lt_Some).
    specialize (Hfin g). naive_solver.
  - eapply (run_invariant supplied); [apply step_supplied|done..].
  - eapply (run_invariant gathered); [apply step_gathered|done..].
  - exists (sched1 ++ sched2), s2, r. rewrite (run_app _ _ _ _ Hrun1).
    split_and!; [done..|]. destruct Hfr as (<- & _). done.
Qed.

End progress.

Section start.
Context `{Package}.

(** *** The state in which the gathering loop starts *)

Lemma GetChunks_group_inv input : ∀ cms0 keys0 cms keys,
  GetChunks_group input cms0 keys0 = inl (cms, keys) →
  ∀ table,
    default [] (keys !! table) =
      default [] (keys0 !! table) ++ (ExternalKey <$> filter (routed table) input) ∧
    (∀ key c, default ∅ (cms !! table) !! key = Some c →
       default ∅ (cms0 !! table) !! key = Some c ∨
       (c ∈ input ∧ routed table c ∧ ExternalKey c = key)) ∧
    (∀ key, is_Some (default ∅ (cms0 !! table) !! key) →
       is_Some (default ∅ (cms !! table) !! key)) ∧
    (∀ c, c ∈ input → routed table c →
       is_Some (default ∅ (cms !! table) !! ExternalKey c)).
Proof.
  induction input as [|c input IH]; intros cms0 keys0 cms keys; simpl.
  { intros [= <- <-] tn. rewrite app_nil_r. split_and!; [done|auto|done|].
    by intros c ?%elem_of_nil. }
  destruct (ChunkTableFor (From c)) as [tc|err] eqn:Htab; [|done].
  intros Hg tn. destruct (IH _ _ _ _ Hg tn) as (Hk & Hold & Hkeep & Hnew).
  rewrite filter_cons. destruct (decide (routed tn c)) as [Hr|Hr].
  - unfold routed in Hr. assert (tc = tn) as -> by congruence.
    rewrite lookup_insert_eq in Hk. rewrite lookup_insert_eq in Hold.
    rewrite lookup_insert_eq in Hkeep. simpl in *. split_and!.
    + by rewrite Hk, <-app_assoc.
    + intros key c' [Hc'|(? & ? & ?)]%Hold.
      * apply lookup_insert_Some in Hc' as [[<- <-]|[_ ?]]; [|by left].
        right. split_and!; [apply list_elem_of_here|done..].
      * right. split_and!; [by apply list_elem_of_further|done..].
    + intros key [c' Hc']. apply Hkeep.
      destruct (decide (ExternalKey c = key)) as [->|].
      * rewrite lookup_insert_eq. eauto.
      * rewrite lookup_insert_ne by done. eauto.
    + intros c' [->|Hc']%elem_of_cons Hr'.
      * apply Hkeep. rewrite lookup_insert_eq. eauto.
      * by apply Hnew.
  - assert (tc ≠ tn) by (intros ->; by apply Hr).
    rewrite lookup_insert_ne in Hk by done. rewrite lookup_insert_ne in Hold by done.
    rewrite lookup_insert_ne in Hkeep by done. split_and!.
    + done.
    + intros key c' [Hc'|(? & ? & ?)]%Hold; [by left|].
      right. split_and!; [by apply list_elem_of_further|done..].
    + done.
    + intros c' [->|Hc']%elem_of_cons Hr'; [done|]. by apply Hnew.
Qed.

Lemma GetChunks_group_routed input : ∀ cms0 keys0 cms keys,
  GetChunks_group input cms0 keys0 = inl (cms, keys) →
  ∀ c, c ∈ input → ∃ table, routed table c.
Proof.
  induction input as [|c input IH]; intros cms0 keys0 cms keys; simpl.
  { by intros _ c ?%elem_of_nil. }
  destruct (ChunkTableFor (From c)) as [tc|err] eqn:Htab; [|done].
  intros Hg c' [->|Hc']%elem_of_cons; [by exists tc|]. by eapply IH.
Qed.

Lemma join_segment {A} (ps : list (list A)) p :
  p ∈ ps → ∃ l1 l2, mjoin ps = l1 ++ p ++ l2.
Proof.
  induction ps as [|q ps IH]; [by intros ?%elem_of_nil|].
  intros [->|Hp]%elem_of_cons; simpl.
  - by exists [], (mjoin ps).
  - destruct (IH Hp) as (l1 & l2 & ->). exists (q ++ l1), l2. by rewrite <-app_assoc.
Qed.

(** Every task starts as the reader of one segment of the key list of its
    table, and the segments make up the key lists. *)
Lemma spawn_all_tasks cms entries : ∀ ts,
  spawn_all cms entries = Some ts →
  mjoin (task_page <$> ts) = mjoin entries.*2 ∧
  Forall (λ t, ∃ table ks page l1 l2,
            (table, ks) ∈ entries ∧ ks = l1 ++ page ++ l2 ∧ page ≠ [] ∧
            t = Spawned table (default ∅ (cms !! table)) page) ts ∧
  ∀ table ks key, (table, ks) ∈ entries → key ∈ ks →
    ∃ page, key ∈ page ∧ Spawned table (default ∅ (cms !! table)) page ∈ ts.
Proof.
  induction entries as [|[table ks] entries IH]; intros ts; csimpl.
  { intros [= <-]. split_and!; [done|done|]. by intros ??? ?%elem_of_nil. }
  destruct (spawn_table cms (table, ks)) as [ts1|] eqn:H1; [|done].
  destruct (spawn_all cms entries) as [ts2|] eqn:H2; [|done].
  intros [= <-]. apply spawn_table_Some in H1 as (ps & -> & Hjoin & Hne).
  simpl in Hjoin. destruct (IH _ eq_refl) as (IH1 & IH2 & IH3).
  split_and!.
  - rewrite fmap_app, join_app, IH1. f_equal. rewrite <-Hjoin, <-list_fmap_compose.
    f_equal. by rewrite list_fmap_id.
  - apply Forall_app. split.
    + apply Forall_forall. intros t (p & -> & Hp)%list_elem_of_fmap.
      destruct (join_segment _ _ Hp) as (l1 & l2 & Hseg).
      rewrite Forall_forall in Hne.
      exists table, ks, p, l1, l2.
      split_and!; [apply list_elem_of_here|congruence|by apply Hne|done].
    + eapply Forall_impl; [done|]. intros t (tn & ks' & p & l1 & l2 & ? & ? & ? & ?).
      exists tn, ks', p, l1, l2. split_and!; [by apply list_elem_of_further|done..].
  - intros tn ks' key [[= -> ->]|Hin]%elem_of_cons Hkey.
    + rewrite <-Hjoin in Hkey. apply list_elem_of_join in Hkey as (p & Hkp & Hp).
      exists p. split; [done|]. apply elem_of_app. left.
      apply list_elem_of_fmap. by exists p.
    + destruct (IH3 _ _ _ Hin Hkey) as (p & ? & ?). exists p. split; [done|].
      apply elem_of_app. by right.
Qed.

Lemma GetChunks_start_Some b ctx input s0 :
  GetChunks_start b ctx input = Some s0 →
  (∃ err, GetChunks_group input ∅ ∅ = inr err ∧ st_result s0 = Some (inr err)) ∨
  (∃ cms keys,
     GetChunks_group input ∅ ∅ = inl (cms, keys) ∧
     spawn_all cms (map_to_list keys) = Some (st_tasks s0) ∧
     sum_list_with out_budget (st_tasks s0) = length input ∧
     st_result s0 = if decide (0 < length input)%nat then None else Some (inl [])).
Proof.
  unfold GetChunks_start.
  destruct (GetChunks_group input ∅ ∅) as [[cms keys]|err] eqn:Hg.
  - destruct (spawn_all cms (map_to_list keys)) as [ts|] eqn:Hs; [|done].
    intros [= <-]. simpl. right. exists cms, keys. split_and!; [done..| |done].
    apply spawn_all_budget in Hs as (-> & _).
    apply GetChunks_group_keys in Hg. rewrite map_to_list_empty in Hg. simpl in Hg.
    apply Permutation_length in Hg. by rewrite length_fmap in Hg.
  - intros [= <-]. simpl. left. by exists err.
Qed.

Lemma GetChunks_start_total b ctx input :
  (0 < maxRowReads)%nat → is_Some (GetChunks_start b ctx input).
Proof.
  intros Hm. unfold GetChunks_start.
  destruct (GetChunks_group input ∅ ∅) as [[cms keys]|err]; [|done].
  assert (is_Some (spawn_all cms (map_to_list keys))) as [ts ->]; [|done].
  induction (map_to_list keys) as [|entry entries IH]; simpl; [done|].
  unfold spawn_table. destruct (pages_total entry.2 Hm) as [ps ->].
  by destruct IH as [ts ->].
Qed.

Lemma GetChunks_start_invariants b ctx input s0 :
  GetChunks_start b ctx input = Some s0 →
  roomy s0 ∧ supplied s0 ∧ gathered s0.
Proof.
  intros Hs. pose proof (GetChunks_start_budget _ _ _ _ Hs)
    as (Hlen & Hoc & Hec & Ho & He & Hout & Hp & _ & _ & Hob & Heb & Hn).
  unfold roomy, supplied, gathered. rewrite Ho, He, Hout, Hoc, Hec, Hlen. simpl.
  split_and!; [lia|lia| |].
  - apply GetChunks_start_Some in Hs as [(err & _ & ->)|(cms & keys & _ & _ & Hsum & _)].
    + right; by left.
    + do 4 right. lia.
  - apply GetChunks_start_Some in Hs as [(err & _ & ->)|(cms & keys & _ & _ & _ & ->)];
      [done|]. case_decide; [done|]. split; [done|]. simpl. lia.
Qed.

Lemma step_result_stable s ev s' r :
  st_result s = Some r → step s ev = Some s' → st_result s' = Some r.
Proof.
  intros Hr [_ Hc]%step_case_of. inversion Hc; subst; simpl; congruence.
Qed.

Lemma run_result_stable sched : ∀ s s' r,
  st_result s = Some r → run s sched = Some s' → st_result s' = Some r.
Proof.
  intros s s' r Hr Hrun.
  by apply (run_invariant (λ s, st_result s = Some r)
              (λ s ev s' Hs, step_result_stable s ev s' r Hs)) in Hrun.
Qed.

End start.

Section no_partial_result.
Context `{Package}.

(** *** A missing row: never enough chunks *)

Lemma length_omap_lt {A B} (f : A → option B) l x :
  x ∈ l → f x = None → (length (omap f l) < length l)%nat.
Proof.
  intros Hx Hf. induction l as [|y l IH]; [by apply elem_of_nil in Hx|].
  csimpl. apply elem_of_cons in Hx as [<-|Hx].
  - rewrite Hf. pose proof (length_omap_le f l). simpl. lia.
  - specialize (IH Hx). destruct (f y); simpl; lia.
Qed.

Lemma deliver_short tb page key :
  key ∈ page → Bigtable.tb_rows tb !! key = None →
  (length (Bigtable.deliver tb page) < length page)%nat.
Proof.
  intros Hk Hnone. unfold Bigtable.deliver.
  eapply Nat.lt_le_trans.
  - eapply (length_omap_lt _ _ key); [|done].
    by rewrite merge_sort_Permutation, elem_of_remove_dups.
  - rewrite merge_sort_Permutation. apply length_remove_dups_le.
Qed.

Lemma read_rows_length tables table page :
  (length (read_rows tables table page) ≤ length page)%nat.
Proof.
  unfold read_rows. destruct (tables !! table); [apply deliver_length|simpl; lia].
Qed.

Lemma read_rows_short tables table page key :
  key ∈ page →
  (∀ tb, tables !! table = Some tb → Bigtable.tb_rows tb !! key = None) →
  (length (read_rows tables table page) < length page)%nat.
Proof.
  intros Hk Habs. unfold read_rows. destruct (tables !! table) as [tb|].
  - by eapply deliver_short; [|apply Habs].
  - destruct page; [by apply elem_of_nil in Hk|simpl; lia].
Qed.

Lemma sum_list_with_lt {A} (f g : A → nat) l x :
  Forall (λ y, f y ≤ g y)%nat l → x ∈ l → (f x < g x)%nat →
  (sum_list_with f l < sum_list_with g l)%nat.
Proof.
  intros Hall Hx Hlt. induction Hall as [|y l Hy Hall IH]; [by apply elem_of_nil in Hx|].
  assert (sum_list_with f l ≤ sum_list_with g l)%nat.
  { clear -Hall. induction Hall; simpl; lia. }
  simpl. apply elem_of_cons in Hx as [<-|Hx]; [lia|]. specialize (IH Hx). lia.
Qed.

Lemma step_short tables s ev s' :
  short tables s → step s ev = Some s' → short tables s'.
Proof.
  unfold short. intros [HT Hlt] [_ Hc]%step_case_of.
  destruct Hc as [g table cm page b' rows err Hg Hread|g c todo Hg Hcap
                 |g e todo Hg Hcap|g todo Hg|e Hctx|c outs' Hr Ho|e errs' Hr He
                 |e Hr Hctx]; simpl; try done.
  - apply ReadRows_rows in Hread as [Hb' Hrows]. split; [congruence|].
    pose proof (sum_list_with_insert (deliverable tables) _ _ _
                  (Running (page_actions cm page rows err)) Hg) as Hsum.
    simpl in Hsum. rewrite page_actions_outs in Hsum.
    pose proof (callbacks_length cm rows).
    assert (length rows ≤ length (read_rows tables table page))%nat; [|lia].
    destruct Hrows as [[-> _]|(-> & _ & _)]; [simpl; lia|]. by rewrite HT.
  - split; [done|]. rewrite length_app. simpl.
    pose proof (sum_list_with_insert (deliverable tables) _ _ _ (Running todo) Hg) as Hsum.
    simpl in Hsum. lia.
  - split; [done|].
    pose proof (sum_list_with_insert (deliverable tables) _ _ _ (Running todo) Hg) as Hsum.
    simpl in Hsum. lia.
  - split; [done|].
    pose proof (sum_list_with_insert (deliverable tables) _ _ _ (Running todo) Hg) as Hsum.
    simpl in Hsum. lia.
  - split; [done|]. rewrite Ho in Hlt. rewrite length_app. simpl in *. lia.
Qed.

Lemma routed_inj table table' c : routed table c → routed table' c → table = table'.
Proof. unfold routed. congruence. Qed.

Lemma start_short b ctx input s0 c :
  GetChunks_start b ctx input = Some s0 → c ∈ input → absent b c →
  (∃ e, st_result s0 = Some (inr e)) ∨ short (Bigtable.bt_tables b) s0.
Proof.
  intros Hs Hc Habs.
  pose proof (GetChunks_start_budget _ _ _ _ Hs)
    as (Hlen & _ & _ & Ho & _ & Hout & _ & _ & Hb & _).
  destruct (GetChunks_start_Some _ _ _ _ Hs)
    as [(err & _ & Hr)|(cms & keys & Hg & Hsp & Hsum & _)]; [left; eauto|].
  right. unfold short. rewrite Hb, Ho, Hout, Hlen, <-Hsum. split; [done|]. simpl.
  destruct (GetChunks_group_routed _ _ _ _ _ Hg c Hc) as [tn Hr].
  destruct (GetChunks_group_inv _ _ _ _ _ Hg tn) as (Hk & _).
  rewrite lookup_empty in Hk. simpl in Hk.
  assert (ExternalKey c ∈ default [] (keys !! tn)) as Hin.
  { rewrite Hk. apply list_elem_of_fmap. exists c. split; [done|].
    by apply list_elem_of_filter. }
  destruct (keys !! tn) as [ks|] eqn:Hks; [|by apply elem_of_nil in Hin]. simpl in Hin.
  destruct (spawn_all_tasks _ _ _ Hsp) as (_ & _ & Hcov).
  destruct (Hcov tn ks (ExternalKey c)) as (page & Hkp & Ht);
    [by apply elem_of_map_to_list|done|].
  eapply sum_list_with_lt; [|done|].
  - apply Forall_forall. intros [tn' cm' page'|todo] _; simpl; [|done].
    apply read_rows_length.
  - simpl. eapply read_rows_short; [done|]. intros tb Htb. by eapply Habs.
Qed.

Lemma short_no_slice tables s out :
  short tables s → gathered s → st_result s ≠ Some (inl out).
Proof.
  unfold short, gathered. intros [_ Hlt] Hg Hr. rewrite Hr in Hg.
  destruct Hg as [-> ?]. lia.
Qed.

(** *** A readable store: no error but the count mismatch *)

Lemma callbacks_all cm rows :
  Forall (λ row, ∃ chunk item d,
            cm !! Bigtable.Row_Key row = Some chunk ∧
            default [] (row !! columnFamily) !! 0%nat = Some item ∧
            Decode chunk (Bigtable.ri_Value item) = inl d) rows →
  ∃ sent, callbacks cm rows = (sent, CbAll) ∧ length sent = length rows.
Proof.
  induction 1 as [|row rows (chunk & item & d & Hcm & Hitem & Hdec) _ (sent & IH & Hlen)].
  { by exists []. }
  exists (d :: sent). simpl. rewrite Hcm, Hitem, Hdec, IH. simpl. by rewrite Hlen.
Qed.

Lemma benign_task_calm tables t : benign_task tables t → calm_task tables t.
Proof.
  destruct t as [table cm page|todo]; simpl.
  - intros (_ & sent & ->). done.
  - intros Hall Hin. rewrite Forall_forall in Hall. by apply Hall in Hin.
Qed.

Lemma benign_calm tables s : benign tables s → calm tables s.
Proof.
  intros (_ & ? & ? & Hall & _). split_and!; [done..|].
  eapply Forall_impl; [done|]. apply benign_task_calm.
Qed.

Lemma step_benign tables s ev s' :
  benign tables s → step s ev = Some s' → benign tables s'.
Proof.
  intros (Hf & HT & Hp & Hall & Herrs & Hres) [_ Hc]%step_case_of. unfold benign.
  destruct Hc as [g table cm page b' rows err Hg Hread|g c todo Hg Hcap
                 |g e todo Hg Hcap|g todo Hg|e Hctx|c outs' Hr Ho|e errs' Hr He
                 |e Hr Hctx]; simpl.
  - rewrite ReadRows_no_fault in Hread by done. simplify_eq.
    split_and!; [done..| |done|done].
    apply Forall_insert; [done|].
    rewrite Forall_lookup in Hall. specialize (Hall _ _ Hg).
    destruct Hall as ([tb Htb] & sent & Hcb). simpl.
    unfold page_actions. rewrite Hcb, Htb. apply Forall_app. split.
    + apply Forall_forall. by intros a (? & -> & _)%list_elem_of_fmap.
    + case_decide; [|done]. constructor; [|done].
      by exists (length page), (length sent).
  - split_and!; [done..| |done|done]. apply Forall_insert; [done|].
    rewrite Forall_lookup in Hall. specialize (Hall _ _ Hg). simpl in Hall.
    by inversion Hall.
  - pose proof (proj1 (Forall_lookup _ _) Hall _ _ Hg) as Hgb. simpl in Hgb.
    inversion Hgb; subst. split_and!; [done..| | |done].
    + by apply Forall_insert.
    + apply Forall_app. split; [done|]. by constructor.
  - rewrite Forall_lookup in Hall. specialize (Hall _ _ Hg). simpl in Hall.
    by inversion Hall.
  - split_and!; [done..|]. intros e' [?|?]%Hres; [by left|congruence].
  - split_and!; [done..|]. intros e'. by case_decide.
  - rewrite He in Herrs. inversion Herrs; subst.
    split_and!; [done..|]. intros e' [= <-]. by left.
  - split_and!; [done..|]. intros e' [= <-]. by right.
Qed.

Lemma GetChunks_group_total input : ∀ cms0 keys0,
  (∀ c, c ∈ input → ∃ table, routed table c) →
  ∃ cms keys, GetChunks_group input cms0 keys0 = inl (cms, keys).
Proof.
  induction input as [|c input IH]; intros cms0 keys0 Hall; simpl; [eauto|].
  destruct (Hall c) as [tn Hr]; [apply list_elem_of_here|].
  unfold routed in Hr. rewrite Hr. apply IH.
  intros c' Hc'. apply Hall. by apply list_elem_of_further.
Qed.

(** The tasks started for a batch, each with the slice of the chunk map of
    its table: every key of its page is the key of a requested chunk routed
    to that table, and the chunk map has a requested chunk under that key. *)
Lemma start_tasks b ctx input s0 cms keys :
  GetChunks_start b ctx input = Some s0 →
  GetChunks_group input ∅ ∅ = inl (cms, keys) →
  Forall (λ t, ∃ table page,
            t = Spawned table (default ∅ (cms !! table)) page ∧ page ≠ [] ∧
            (∃ l1 l2, ExternalKey <$> filter (routed table) input = l1 ++ page ++ l2) ∧
            ∀ key, key ∈ page →
              (∃ c, c ∈ input ∧ routed table c ∧ ExternalKey c = key) ∧
              (∃ c', default ∅ (cms !! table) !! key = Some c' ∧
                     c' ∈ input ∧ routed table c' ∧ ExternalKey c' = key))
         (st_tasks s0).
Proof.
  intros Hs Hg.
  destruct (GetChunks_start_Some _ _ _ _ Hs)
    as [(err & ? & _)|(cms' & keys' & Hg' & Hsp & _)]; [congruence|].
  rewrite Hg in Hg'. simplify_eq.
  destruct (spawn_all_tasks _ _ _ Hsp) as (_ & Hall & _).
  eapply Forall_impl; [done|]. simpl.
  intros t (tn & ks & page & l1 & l2 & Hin & -> & Hne & ->).
  apply elem_of_map_to_list in Hin.
  destruct (GetChunks_group_inv _ _ _ _ _ Hg tn) as (Hk & Hold & _ & Hnew).
  rewrite Hin, lookup_empty in Hk. simpl in Hk.
  exists tn, page. split_and!; [done|done|by exists l1, l2|].
  intros key Hkey.
  assert (key ∈ ExternalKey <$> filter (routed tn) input) as Hkin.
  { rewrite <-Hk. set_solver. }
  apply list_elem_of_fmap in Hkin as (c & -> & [Hr Hc]%list_elem_of_filter).
  split; [by exists c|].
  destruct (Hnew c Hc Hr) as [c' Hc']. exists c'. split; [done|].
  apply Hold in Hc' as [Hc'|?]; [|done].
  rewrite lookup_empty in Hc'. simpl in Hc'. by rewrite lookup_empty in Hc'.
Qed.

Lemma deliver_rows tb page row :
  row ∈ Bigtable.deliver tb page →
  ∃ key, key ∈ page ∧ Bigtable.tb_rows tb !! key = Some row.
Proof.
  unfold Bigtable.deliver. intros (key & Hk & Hrow)%list_elem_of_omap.
  exists key. split; [|done].
  by rewrite merge_sort_Permutation, elem_of_remove_dups in Hk.
Qed.

Lemma start_benign b ctx input s0 :
  readable b input → GetChunks_start b ctx input = Some s0 →
  benign (Bigtable.bt_tables b) s0.
Proof.
  intros [Hf Hread] Hs.
  pose proof (GetChunks_start_budget _ _ _ _ Hs)
    as (_ & _ & _ & _ & He & _ & Hp & _ & Hb & _).
  destruct (GetChunks_group_total input ∅ ∅) as (cms & keys & Hg).
  { intros c Hc. destruct (Hread c Hc) as (tn & _ & ? & _). by exists tn. }
  pose proof (start_tasks _ _ _ _ _ _ Hs Hg) as Htasks.
  destruct (GetChunks_start_Some _ _ _ _ Hs)
    as [(err & ? & _)|(cms' & keys' & Hg' & _ & _ & Hres)]; [congruence|].
  unfold benign. rewrite Hb, He, Hres. split_and!; [done..| |done|].
  - eapply Forall_impl; [done|]. simpl.
    intros t (tn & page & -> & Hne & _ & Hkeys). simpl.
    destruct page as [|k0 page0] eqn:Hpage; [done|]. rewrite <-Hpage in *.
    destruct (Hkeys k0) as [(c0 & Hc0 & Hr0 & _) _]; [subst; apply list_elem_of_here|].
    destruct (Hread c0 Hc0) as (tn0 & tb & Hr0' & Htb & _).
    assert (tn0 = tn) as -> by by eapply routed_inj.
    split; [eauto|]. unfold read_rows. rewrite Htb.
    destruct (callbacks_all (default ∅ (cms !! tn)) (Bigtable.deliver tb page))
      as (sent & -> & _); [|by exists sent].
    apply Forall_forall. intros row (key & Hkey & Hrow)%deliver_rows.
    destruct (Hkeys key Hkey) as [(c & Hc & Hr & <-) (c' & Hc' & Hc'in & _ & Hkc')].
    destruct (Hread c Hc) as (tn1 & tb1 & Hr1 & Htb1 & Hrows).
    assert (tn1 = tn) as -> by by eapply routed_inj.
    assert (tb1 = tb) as -> by congruence.
    destruct (Hrows row Hrow) as (Hrk & item & Hitem & Hdec).
    specialize (Hdec c' Hc'in Hkc').
    destruct (Decode c' (Bigtable.ri_Value item)) as [d|] eqn:Hd; [|by destruct Hdec].
    exists c', item, d. by rewrite Hrk.
  - case_decide; done.
Qed.

End no_partial_result.

Section no_partial_result_thm.
Context `{Package}.

Lemma callbacks_sourced input cm rows :
  (∀ key c, cm !! key = Some c → c ∈ input) →
  Forall (decoded_from input) (callbacks cm rows).1.
Proof.
  intros Hcm. induction rows as [|row rows IH]; simpl; [done|].
  destruct (cm !! Bigtable.Row_Key row) as [chunk|] eqn:Hchunk; [|done].
  destruct (default [] (row !! columnFamily) !! 0%nat) as [item|]; [|done].
  destruct (Decode chunk (Bigtable.ri_Value item)) as [d|] eqn:Hd; [|done].
  destruct (callbacks cm rows) as [sent e]. simpl in *.
  constructor; [|done]. exists chunk, (Bigtable.ri_Value item). eauto.
Qed.

Lemma step_sourced input s ev s' :
  sourced input s → step s ev = Some s' → sourced input s'.
Proof.
  intros (Hout & Houts & Hall) [_ Hc]%step_case_of. unfold sourced.
  destruct Hc as [g table cm page b' rows err Hg Hread|g c todo Hg Hcap
                 |g e todo Hg Hcap|g todo Hg|e Hctx|c outs' Hr Ho|e errs' Hr He
                 |e Hr Hctx]; simpl; try done.
  - split_and!; [done..|]. apply Forall_insert; [done|]. simpl.
    rewrite page_actions_outs. apply callbacks_sourced.
    by apply (proj1 (Forall_lookup _ _) Hall _ _ Hg).
  - pose proof (proj1 (Forall_lookup _ _) Hall _ _ Hg) as Hgs.
    unfold sourced_task, outs_of in Hgs. simpl in Hgs. inversion Hgs; subst.
    split_and!; [done| |].
    + apply Forall_app. split; [done|]. by constructor.
    + by apply Forall_insert.
  - split_and!; [done..|]. apply Forall_insert; [done|].
    by apply (proj1 (Forall_lookup _ _) Hall _ _ Hg).
  - split_and!; [done..|]. apply Forall_insert; [done|].
    by apply (proj1 (Forall_lookup _ _) Hall _ _ Hg).
  - rewrite Ho in Houts. inversion Houts; subst. split_and!; [|done..].
    apply Forall_app. split; [done|]. by constructor.
Qed.

Lemma start_sourced b ctx input s0 :
  GetChunks_start b ctx input = Some s0 → sourced input s0.
Proof.
  intros Hs. pose proof (GetChunks_start_budget _ _ _ _ Hs)
    as (_ & _ & _ & Ho & _ & Hout & _).
  unfold sourced. rewrite Ho, Hout. split_and!; [done..|].
  destruct (GetChunks_start_Some _ _ _ _ Hs)
    as [(err & Hg & _)|(cms & keys & Hg & Hsp & _)].
  - unfold GetChunks_start in Hs. rewrite Hg in Hs. by simplify_eq.
  - destruct (spawn_all_tasks _ _ _ Hsp) as (_ & Hall & _).
    eapply Forall_impl; [done|]. simpl.
    intros t (tn & ks & page & l1 & l2 & _ & _ & _ & ->). simpl.
    intros key c Hc. destruct (GetChunks_group_inv _ _ _ _ _ Hg tn) as (_ & Hold & _).
    apply Hold in Hc as [Hc|(? & _)]; [|done].
    rewrite lookup_empty in Hc. simpl in Hc. by rewrite lookup_empty in Hc.
Qed.

(** C2: whatever the schedule, a slice returned by [GetChunks] has
    [len(input)] chunks, each decoded into a requested chunk; the only other
    outcome is an error.  When a requested key is absent from the store no
    schedule returns a slice; if moreover the store is readable the error is
    the count mismatch unless the context ended first, and a schedule that
    returns the count mismatch exists. *)
Theorem GetChunks_no_partial_result b ctx input :
  (∀ sched s r,
     GetChunks b ctx input sched = Some s → st_result s = Some r →
     match r with
     | inl out => length out = length input ∧ Forall (decoded_from input) out
     | inr _ => True
     end) ∧
  (∀ c, c ∈ input → absent b c →
     (∀ sched s r,
        GetChunks b ctx input sched = Some s → st_result s = Some r →
        ∃ e, r = inr e ∧ (readable b input → count_mismatch e ∨ st_ctx s = Some e)) ∧
     (readable b input → ctx = None → (0 < maxRowReads)%nat →
      ∃ sched s e,
        GetChunks b ctx input sched = Some s ∧ st_result s = Some (inr e) ∧
        count_mismatch e)).
Proof.
  split.
  - intros sched s r. unfold GetChunks.
    destruct (GetChunks_start b ctx input) as [s0|] eqn:Hs; [|done].
    intros Hrun Hr. destruct r as [out|e]; [|done].
    pose proof (GetChunks_start_invariants _ _ _ _ Hs) as (_ & _ & Hgat).
    pose proof (run_invariant gathered step_gathered _ _ _ Hgat Hrun) as Hgat'.
    pose proof (run_invariant (sourced input) (step_sourced input) _ _ _
                  (start_sourced _ _ _ _ Hs) Hrun) as (Hout & _).
    unfold gathered in Hgat'. rewrite Hr in Hgat'. destruct Hgat' as [-> Hlen].
    split; [|done]. rewrite Hlen.
    apply (run_budget _ _ _) in Hrun as (_ & _ & -> & _).
    by apply GetChunks_start_budget in Hs as (-> & _).
  - intros c Hc Habs.
    assert (∀ sched s r,
              GetChunks b ctx input sched = Some s → st_result s = Some r →
              ∃ e, r = inr e ∧
                (readable b input → count_mismatch e ∨ st_ctx s = Some e)) as Hall.
    { intros sched s r. unfold GetChunks.
      destruct (GetChunks_start b ctx input) as [s0|] eqn:Hs; [|done].
      intros Hrun Hr.
      assert (∃ e, r = inr e) as [e ->].
      { destruct (start_short _ _ _ _ _ Hs Hc Habs) as [[e He]|Hshort].
        - rewrite (run_result_stable _ _ _ _ He Hrun) in Hr. simplify_eq. eauto.
        - destruct r as [out|e]; [|eauto]. exfalso.
          pose proof (GetChunks_start_invariants _ _ _ _ Hs) as (_ & _ & Hgat).
          pose proof (run_invariant gathered step_gathered _ _ _ Hgat Hrun) as Hgat'.
          apply (run_invariant _ (step_short _) _ _ _ Hshort) in Hrun.
          by eapply (short_no_slice _ s out). }
      exists e. split; [done|]. intros Hread.
      pose proof (start_benign _ _ _ _ Hread Hs) as Hben.
      apply (run_invariant _ (step_benign _) _ _ _ Hben) in Hrun
        as (_ & _ & _ & _ & _ & Hres).
      by apply Hres. }
    split; [done|]. intros Hread -> Hm.
    destruct (GetChunks_start_total b None input Hm) as [s0 Hs].
    pose proof (GetChunks_start_invariants _ _ _ _ Hs) as (Hroom & Hsup & Hgat).
    pose proof (benign_calm _ _ (start_benign _ _ _ _ Hread Hs)) as Hcalm.
    destruct (returns_under_some_schedule _ _ Hroom Hsup Hgat Hcalm)
      as (sched & s & r & Hrun & Hr & Hctx).
    assert (GetChunks b None input sched = Some s) as Hget.
    { unfold GetChunks. by rewrite Hs. }
    destruct (Hall sched s r Hget Hr) as (e & -> & He).
    exists sched, s, e. split_and!; [done..|].
    destruct (He Hread) as [?|Hctx']; [done|].
    rewrite Hctx in Hctx'.
    apply GetChunks_start_budget in Hs as (_ & _ & _ & _ & _ & _ & _ & Hctx0 & _).
    congruence.
Qed.

End no_partial_result_thm.

Section roundtrip.
Context `{Package}.

(** *** Reading back what was written *)

Lemma Row_Key_single family item :
  Bigtable.Row_Key {[ family := [item] ]} = Bigtable.ri_Row item.
Proof. unfold Bigtable.Row_Key. by rewrite map_to_list_singleton. Qed.

Lemma remove_dups_NoDup `{EqDecision A} (l : list A) : NoDup l → remove_dups l = l.
Proof.
  induction 1 as [|x l Hx _ IH]; [done|]. simpl.
  destruct (decide_rel elem_of x l); [done|]. by rewrite IH.
Qed.

Lemma NoDup_fmap_inj_on {A B} (f : A → B) (l : list A) x y :
  NoDup (f <$> l) → x ∈ l → y ∈ l → f x = f y → x = y.
Proof.
  intros Hnd [i Hi]%list_elem_of_lookup [j Hj]%list_elem_of_lookup Hf.
  assert (i = j) as ->; [|congruence].
  eapply (NoDup_lookup _ _ _ (f x) Hnd); rewrite list_lookup_fmap.
  - by rewrite Hi.
  - by rewrite Hj, Hf.
Qed.

Lemma callbacks_stored input cm tb keys :
  Forall (key_stored input cm tb) keys →
  ∃ sent,
    callbacks cm (omap (λ key, Bigtable.tb_rows tb !! key) keys) = (sent, CbAll) ∧
    ExternalKey <$> sent = keys ∧ Forall (.∈ input) sent.
Proof.
  induction 1 as [|key keys (c & buf & Hc & Hkey & Hcm & Hrow & Hdec) _
                    (sent & IH & Hkeys & Hin)].
  { by exists []. }
  exists (c :: sent). csimpl. rewrite Hrow. csimpl.
  rewrite Row_Key_single. simpl. rewrite Hcm, lookup_singleton_eq. simpl.
  rewrite Hdec, IH. split_and!; [done| |by constructor].
  csimpl. by rewrite Hkey, Hkeys.
Qed.

Lemma page_exact tables input table cm page tb :
  tables !! table = Some tb → NoDup page →
  Forall (key_stored input cm tb) page →
  ∃ sent,
    page_actions cm page (read_rows tables table page) None = SendOut <$> sent ∧
    ExternalKey <$> sent ≡ₚ page ∧ Forall (.∈ input) sent.
Proof.
  intros Htb Hnd Hall. unfold read_rows, Bigtable.deliver. rewrite Htb.
  rewrite (remove_dups_NoDup _ Hnd).
  destruct (callbacks_stored input cm tb (merge_sort String.le page))
    as (sent & Hcb & Hkeys & Hin).
  { by rewrite merge_sort_Permutation. }
  exists sent. unfold page_actions. rewrite Hcb.
  assert (length sent = length page) as Hlen.
  { rewrite <-(length_fmap ExternalKey), Hkeys. by rewrite merge_sort_Permutation. }
  rewrite decide_False by lia. rewrite app_nil_r.
  split_and!; [done| |done]. rewrite Hkeys. apply merge_sort_Permutation.
Qed.

Lemma exact_task_calm tables t : exact_task tables t → calm_task tables t.
Proof.
  destruct t as [table cm page|todo]; simpl.
  - intros (_ & cs & Hcs) Hpanic.
    assert (Panic ∈ page_actions cm page (read_rows tables table page) None) as Hin.
    { unfold page_actions.
      destruct (callbacks cm (read_rows tables table page)) as [sent e].
      simpl in Hpanic. subst e. set_solver. }
    rewrite Hcs in Hin. by apply list_elem_of_fmap in Hin as (? & ? & ?).
  - intros [cs ->] Hin. by apply list_elem_of_fmap in Hin as (? & ? & ?).
Qed.

Lemma conserved_calm tables input s : conserved tables input s → calm tables s.
Proof.
  intros (_ & ? & ? & Hall & _). split_and!; [done..|].
  eapply Forall_impl; [done|]. apply exact_task_calm.
Qed.

Lemma join_fmap_insert {A B} (f : A → list B) (l : list A) i x y :
  l !! i = Some x →
  mjoin (f <$> <[i:=y]> l) ++ f x ≡ₚ mjoin (f <$> l) ++ f y.
Proof.
  revert i. induction l as [|z l IH]; intros [|i] Hi; simplify_eq/=.
  - solve_Permutation.
  - rewrite <-!app_assoc. f_equiv. by apply IH.
Qed.

Lemma outs_of_fmap_SendOut cs : outs_of (SendOut <$> cs) = cs.
Proof. rewrite <-(app_nil_r (SendOut <$> cs)), outs_of_sends. apply app_nil_r. Qed.

Lemma promised_send_out tables c todo :
  promised tables (Running (SendOut c :: todo)) = c :: promised tables (Running todo).
Proof. done. Qed.

Lemma step_conserved tables input s ev s' :
  conserved tables input s → step s ev = Some s' → conserved tables input s'.
Proof.
  intros (Hf & HT & Hp & Hall & Herrs & Hperm & Hres) [_ Hc]%step_case_of.
  unfold conserved.
  destruct Hc as [g table cm page b' rows err Hg Hread|g c todo Hg Hcap
                 |g e todo Hg Hcap|g todo Hg|e Hctx|c outs' Hr Ho|e errs' Hr He
                 |e Hr Hctx]; simpl.
  - rewrite ReadRows_no_fault in Hread by done. simplify_eq.
    pose proof (proj1 (Forall_lookup _ _) Hall _ _ Hg) as ([tb Htb] & cs & Hcs).
    rewrite Htb. split_and!; [done..| |done| |done].
    + apply Forall_insert; [done|]. simpl. eauto.
    + rewrite list_fmap_insert. simpl.
      rewrite list_insert_id; [done|]. by rewrite list_lookup_fmap, Hg.
  - pose proof (proj1 (Forall_lookup _ _) Hall _ _ Hg) as [cs Hcs].
    destruct cs as [|c' cs]; [done|]. csimpl in Hcs. injection Hcs as -> Htodo.
    split_and!; [done..| |done| |done].
    + apply Forall_insert; [done|]. simpl. eauto.
    + pose proof (join_fmap_insert (promised tables) _ _ _
                    (Running todo) Hg) as Hj.
      rewrite promised_send_out in Hj.
      assert (mjoin (promised tables <$> st_tasks s)
              ≡ₚ c' :: mjoin (promised tables <$>
                               <[g:=Running todo]> (st_tasks s))) as HJ.
      { apply (Permutation_app_inv_r
                 (promised tables (Running todo))).
        rewrite <-Hj. solve_Permutation. }
      rewrite <-Hperm, HJ. solve_Permutation.
  - pose proof (proj1 (Forall_lookup _ _) Hall _ _ Hg) as [cs Hcs].
    by destruct cs.
  - pose proof (proj1 (Forall_lookup _ _) Hall _ _ Hg) as [cs Hcs].
    by destruct cs.
  - split_and!; [done..|]. intros e' He'. specialize (Hres _ He'). congruence.
  - rewrite Ho in Hperm. split_and!; [done..| |].
    + rewrite <-Hperm, <-!app_assoc. done.
    + intros e'. by case_decide.
  - by rewrite He in Herrs.
  - split_and!; [done..|]. by intros e' [= <-].
Qed.

End roundtrip.

Section roundtrip_thm.
Context `{Package}.

Lemma perm_by_keys {A B} (f : A → B) (l input : list A) :
  Forall (.∈ input) l → f <$> l ≡ₚ f <$> input → NoDup (f <$> input) →
  l ≡ₚ input.
Proof.
  intros Hin Hperm Hnd. apply submseteq_length_Permutation.
  - apply NoDup_submseteq.
    + apply (NoDup_fmap_1 f). by rewrite Hperm.
    + by apply Forall_forall.
  - apply Permutation_length in Hperm. rewrite !length_fmap in Hperm. lia.
Qed.

Lemma NoDup_segment {A} (l1 l l2 : list A) : NoDup (l1 ++ l ++ l2) → NoDup l.
Proof. intros (_ & _ & (? & _)%NoDup_app)%NoDup_app. done. Qed.

Lemma start_conserved b ctx input s0 :
  Bigtable.bt_faults b = [] → (∀ c, c ∈ input → holds b c) →
  NoDup (ExternalKey <$> input) →
  (∀ c buf, c ∈ input → Encoded c = inl buf → Decode c buf = inl c) →
  GetChunks_start b ctx input = Some s0 →
  conserved (Bigtable.bt_tables b) input s0.
Proof.
  intros Hf Hholds Hnd Hcodec Hs.
  pose proof (GetChunks_start_budget _ _ _ _ Hs)
    as (_ & _ & _ & Ho & He & Hout & Hp & _ & Hb & _).
  destruct (GetChunks_group_total input ∅ ∅) as (cms & keys & Hg).
  { intros c Hc. destruct (Hholds c Hc) as (tn & _ & _ & ? & _). by exists tn. }
  pose proof (start_tasks _ _ _ _ _ _ Hs Hg) as Htasks.
  destruct (GetChunks_start_Some _ _ _ _ Hs)
    as [(err & ? & _)|(cms' & keys' & Hg' & Hsp & _ & Hres)]; [congruence|].
  rewrite Hg in Hg'. injection Hg' as <- <-.
  assert (Forall (λ t, exact_task (Bigtable.bt_tables b) t ∧
                       ExternalKey <$> promised (Bigtable.bt_tables b) t
                         ≡ₚ task_page t ∧
                       Forall (.∈ input) (promised (Bigtable.bt_tables b) t))
            (st_tasks s0)) as Hexact.
  { eapply Forall_impl; [done|]. simpl.
    intros t (tn & page & -> & Hne & (l1 & l2 & Hseg) & Hkeys). simpl.
    destruct page as [|k0 page0] eqn:Hpage; [done|]. rewrite <-Hpage in *.
    destruct (Hkeys k0) as [(c0 & Hc0 & Hr0 & _) _]; [subst; apply list_elem_of_here|].
    destruct (Hholds c0 Hc0) as (tn0 & tb & _ & Hr0' & Htb & _).
    assert (tn0 = tn) as -> by by eapply routed_inj.
    destruct (page_exact (Bigtable.bt_tables b) input tn
                (default ∅ (cms !! tn)) page tb Htb) as (sent & Hact & Hperm & Hin).
    - apply (NoDup_segment l1 _ l2). rewrite <-Hseg. by apply NoDup_fmap_filter.
    - apply Forall_forall. intros key Hkey.
      destruct (Hkeys key Hkey) as [(c & Hc & Hr & <-) (c' & Hc' & Hc'in & _ & Hkc')].
      assert (c' = c) as -> by by eapply (NoDup_fmap_inj_on ExternalKey input).
      destruct (Hholds c Hc) as (tn1 & tb1 & buf & Hr1 & Htb1 & Henc & Hrow).
      assert (tn1 = tn) as -> by by eapply routed_inj.
      assert (tb1 = tb) as -> by congruence.
      exists c, buf. split_and!; [exact Hc|reflexivity|exact Hc'|exact Hrow|by apply Hcodec].
    - rewrite Hact, outs_of_fmap_SendOut.
      split_and!; [eauto|by exists sent|done|done]. }
  unfold conserved. rewrite Hb, He, Ho, Hout, Hres. simpl.
  split_and!; [done..| |done| |by intros e; case_decide].
  - eapply Forall_impl; [done|]. by intros t (? & _).
  - apply (perm_by_keys ExternalKey); [| |done].
    + clear -Hexact. induction Hexact as [|t ts (_ & _ & Ht) _ IH]; [done|].
      csimpl. by apply Forall_app.
    + destruct (spawn_all_tasks _ _ _ Hsp) as (Hpages & _).
      apply GetChunks_group_keys in Hg. rewrite map_to_list_empty in Hg.
      simpl in Hg. rewrite <-Hg, <-Hpages.
      clear -Hexact. induction Hexact as [|t ts (_ & Ht & _) _ IH]; [done|].
      csimpl. by rewrite fmap_app, Ht, IH.
Qed.

(** C1, for batches whose chunks have pairwise distinct external keys.
    [PutChunks] on a store without rows, then [GetChunks] on the same batch
    against the resulting store with no transport fault pending: under every
    schedule, whatever [GetChunks] returns is a permutation of the batch, or
    the error of the context when that has ended; and with a live context
    (and a positive page size) some schedule returns such a permutation.
    The codec is assumed to decode a chunk's encoding into the chunk. *)
Theorem PutChunks_GetChunks_roundtrip range b0 chunks b1 ctx :
  (∀ l, range l ≡ₚ l) → blank b0 →
  NoDup (ExternalKey <$> chunks) →
  (∀ c buf, c ∈ chunks → Encoded c = inl buf → Decode c buf = inl c) →
  PutChunks range b0 chunks = (b1, None) → Bigtable.bt_faults b1 = [] →
  (∀ sched s r,
     GetChunks b1 ctx chunks sched = Some s → st_result s = Some r →
     (∃ out, r = inl out ∧ out ≡ₚ chunks) ∨
     (∃ e, r = inr e ∧ st_ctx s = Some e)) ∧
  (ctx = None → (0 < maxRowReads)%nat →
   ∃ sched s out,
     GetChunks b1 ctx chunks sched = Some s ∧ st_result s = Some (inl out) ∧
     out ≡ₚ chunks).
Proof.
  intros Hrange Hblank Hnd Hcodec Hput Hf.
  pose proof (PutChunks_holds _ _ _ _ Hrange Hblank Hnd Hput) as Hholds.
  assert (∀ sched s r,
            GetChunks b1 ctx chunks sched = Some s → st_result s = Some r →
            (∃ out, r = inl out ∧ out ≡ₚ chunks) ∨
            (∃ e, r = inr e ∧ st_ctx s = Some e)) as Hall.
  { intros sched s r. unfold GetChunks.
    destruct (GetChunks_start b1 ctx chunks) as [s0|] eqn:Hs; [|done].
    intros Hrun Hr.
    pose proof (start_conserved _ _ _ _ Hf Hholds Hnd Hcodec Hs) as Hcons.
    pose proof (GetChunks_start_invariants _ _ _ _ Hs) as (_ & _ & Hgat).
    pose proof (run_invariant gathered step_gathered _ _ _ Hgat Hrun) as Hgat'.
    pose proof (run_invariant _ (step_conserved _ _) _ _ _ Hcons Hrun)
      as (_ & _ & _ & _ & _ & Hperm & Hres).
    destruct r as [out|e]; [left|right; eauto].
    exists out. split; [done|].
    unfold gathered in Hgat'. rewrite Hr in Hgat'. destruct Hgat' as [-> Hlen].
    apply (run_budget _ _ _) in Hrun as (_ & _ & Hlen' & _).
    apply GetChunks_start_budget in Hs as (Hlen0 & _).
    pose proof (Permutation_length Hperm) as Hl. rewrite !length_app in Hl.
    assert (st_outs s ++ mjoin (promised (Bigtable.bt_tables b1) <$> st_tasks s) = [])
      as Hnil by (apply length_zero_iff_nil; rewrite length_app; lia).
    rewrite Hnil, app_nil_r in Hperm. done. }
  split; [done|]. intros -> Hm.
  destruct (GetChunks_start_total b1 None chunks Hm) as [s0 Hs].
  pose proof (GetChunks_start_invariants _ _ _ _ Hs) as (Hroom & Hsup & Hgat).
  pose proof (conserved_calm _ _ _ (start_conserved _ _ _ _ Hf Hholds Hnd Hcodec Hs))
    as Hcalm.
  destruct (returns_under_some_schedule _ _ Hroom Hsup Hgat Hcalm)
    as (sched & s & r & Hrun & Hr & Hctx).
  assert (GetChunks b1 None chunks sched = Some s) as Hget.
  { unfold GetChunks. by rewrite Hs. }
  destruct (Hall sched s r Hget Hr) as [(out & -> & Hperm)|(e & -> & Hctx')].
  - by exists sched, s, out.
  - rewrite Hctx in Hctx'.
    apply GetChunks_start_budget in Hs as (_ & _ & _ & _ & _ & _ & _ & Hctx0 & _).
    congruence.
Qed.

End roundtrip_thm.

Section cancellation.
Context `{Package}.

(** C8, as the code has it: in any state that a [GetChunks] call reaches with
    the context ended and the call not yet returned, the [ctx.Done()] case of
    the select is ready and taking it returns the context's error as it is;
    it is the only ready case when both channels are empty; and a chunk or an
    error pending on a channel makes its case ready as well, the select being
    free to take it. *)
Theorem GetChunks_cancelled_select b ctx input sched s e :
  GetChunks b ctx input sched = Some s →
  st_panicked s = false → st_result s = None → st_ctx s = Some e →
  (∃ s', step s EvRecvDone = Some s' ∧ st_result s' = Some (inr e)) ∧
  (st_outs s = [] → st_errs s = [] →
   ∀ ev s', ev ∈ [EvRecvOut; EvRecvErr; EvRecvDone] → step s ev = Some s' →
            ev = EvRecvDone ∧ st_result s' = Some (inr e)) ∧
  (∀ c outs', st_outs s = c :: outs' →
     ∃ s', step s EvRecvOut = Some s' ∧ st_output s' = st_output s ++ [c] ∧
           st_result s' ≠ Some (inr e)) ∧
  (∀ err errs', st_errs s = err :: errs' →
     ∃ s', step s EvRecvErr = Some s' ∧ st_result s' = Some (inr err)).
Proof.
  intros _ Hp Hr Hctx. unfold step, step_select. rewrite Hp, Hr, Hctx. split_and!.
  - eauto.
  - intros Ho He ev s' Hev. rewrite Ho, He.
    apply elem_of_cons in Hev as [->|Hev]; [done|].
    apply elem_of_cons in Hev as [->|Hev]; [done|].
    apply list_elem_of_singleton in Hev as ->. by intros [= <-].
  - intros c outs' ->. eexists. split_and!; [done..|]. simpl. by case_decide.
  - intros err errs' ->. eauto.
Qed.

(** C10: the callback reads the first cell of the chunk family of a matched
    row without a guard.  A matched row without a cell in that family makes
    the callback panic: the goroutine sends nothing on [errs], and once it
    has panicked nothing moves any more.  A matched row with a cell there is
    decoded; and when every matched row delivered has one, no panic occurs. *)
Theorem callback_first_cell_unguarded cm row rows chunk :
  cm !! Bigtable.Row_Key row = Some chunk →
  (default [] (row !! columnFamily) = [] →
     callbacks cm (row :: rows) = ([], CbPanic) ∧
     (∀ page err, page_actions cm page (row :: rows) err = [Panic]) ∧
     ∀ s g todo,
       st_panicked s = false → st_tasks s !! g = Some (Running (Panic :: todo)) →
       ∃ s', step s (EvGo g) = Some s' ∧ st_panicked s' = true ∧
             st_errs s' = st_errs s ∧ st_result s' = st_result s ∧
             ∀ ev, step s' ev = None) ∧
  (∀ item items, row !! columnFamily = Some (item :: items) →
     callbacks cm (row :: rows) =
       match Decode chunk (Bigtable.ri_Value item) with
       | inr err => ([], CbStop err)
       | inl d => let '(sent, e) := callbacks cm rows in (d :: sent, e)
       end) ∧
  (∀ rows' page err,
     Forall (λ row', is_Some (cm !! Bigtable.Row_Key row') →
                     default [] (row' !! columnFamily) ≠ []) rows' →
     (callbacks cm rows').2 ≠ CbPanic ∧ Panic ∉ page_actions cm page rows' err).
Proof.
  intros Hcm. split_and!.
  - intros Hnil.
    assert (callbacks cm (row :: rows) = ([], CbPanic)) as Hcb.
    { simpl. by rewrite Hcm, Hnil. }
    split_and!; [done| |].
    + intros page err. unfold page_actions. by rewrite Hcb.
    + intros s g todo Hp Hg. unfold step, step_go. rewrite Hp, Hg.
      eexists. split_and!; [done..|]. intros ev. unfold step. done.
  - intros item items Hrow. simpl. by rewrite Hcm, Hrow.
  - intros rows' page err Hall.
    assert ((callbacks cm rows').2 ≠ CbPanic) as Hcb.
    { induction Hall as [|row' rows' Hrow' _ IH]; [done|]. simpl.
      destruct (cm !! Bigtable.Row_Key row') as [chunk'|] eqn:Hc'; [|done].
      destruct (default [] (row' !! columnFamily)) as [|item items] eqn:Hcells.
      { by destruct Hrow'. }
      simpl. destruct (Decode chunk' (Bigtable.ri_Value item)); [|done].
      by destruct (callbacks cm rows'). }
    split; [done|]. by apply page_actions_calm.
Qed.

End cancellation.

(** ** The statements at the sample implementation *)

Lemma CreateTable_sample :
  @CreateTable (sample 2) empty_store {| td_Name := "chunks_0" |}
  = (store_with_table, None).
Proof. reflexivity. Qed.

Lemma PutChunks_sample :
  @PutChunks (sample 2) id store_with_table [chunk1] = (store_with_chunk, None).
Proof. reflexivity. Qed.

Lemma sample_codec (n : nat) (c : Chunk) buf :
  @Encoded (sample n) c = inl buf → @Decode (sample n) c buf = inl c.
Proof. simpl. intros [= <-]. by destruct c. Qed.

Lemma blank_store_with_table : blank store_with_table.
Proof.
  intros table tb Htb. unfold store_with_table, Bigtable.bt_tables in Htb.
  by apply lookup_singleton_Some in Htb as [_ <-].
Qed.

Lemma PutChunks_GetChunks_roundtrip_witness :
  ∃ sched s out,
    @GetChunks (sample 2) store_with_chunk None [chunk1] sched = Some s ∧
    st_result s = Some (inl out) ∧ out ≡ₚ [chunk1].
Proof.
  apply (proj2 (@PutChunks_GetChunks_roundtrip (sample 2) id store_with_table
                  [chunk1] store_with_chunk None (λ l, reflexivity l)
                  blank_store_with_table (NoDup_singleton _)
                  (λ c buf _, sample_codec 2 c buf) PutChunks_sample eq_refl)).
  - reflexivity.
  - simpl. lia.
Defined.

(** C1 as stated fails on a batch that holds the same chunk twice.
    [PutChunks] succeeds and leaves one row; the page of [GetChunks] asks for
    two keys and receives one row, so under every schedule the call returns
    an error, never the two chunks; under the schedule below it is the count
    mismatch. *)
Lemma GetChunks_duplicate_chunk_fails :
  @PutChunks (sample 2) id store_with_table [chunk1; chunk1]
    = (store_with_chunk, None) ∧
  (∀ sched s r,
     @GetChunks (sample 2) store_with_chunk None [chunk1; chunk1] sched = Some s →
     st_result s = Some r → ∃ e, r = inr e) ∧
  ∃ s, @GetChunks (sample 2) store_with_chunk None [chunk1; chunk1]
         [EvGo 0; EvGo 0; EvGo 0; EvRecvErr] = Some s ∧
       st_result s = Some (inr (ErrWithStack (ErrAsked 2 1))).
Proof.
  split_and!.
  - reflexivity.
  - intros sched s r. unfold GetChunks.
    destruct (@GetChunks_start (sample 2) store_with_chunk None [chunk1; chunk1])
      as [s0|] eqn:Hs; [|done].
    pose proof (@GetChunks_start_invariants (sample 2) _ _ _ _ Hs) as (_ & _ & Hgat).
    assert (@short (Bigtable.bt_tables store_with_chunk) s0) as Hshort.
    { vm_compute in Hs. injection Hs as <-. split; [reflexivity|].
      apply Nat.ltb_lt. by vm_compute. }
    intros Hrun Hr.
    pose proof (@run_invariant (sample 2) gathered (@step_gathered (sample 2))
                  _ _ _ Hgat Hrun) as Hgat'.
    pose proof (@run_invariant (sample 2) _ (@step_short (sample 2) _)
                  _ _ _ Hshort Hrun) as Hshort'.
    destruct r as [out|e]; [|eauto].
    by destruct (short_no_slice _ s out Hshort' Hgat').
  - eexists. split; [by vm_compute|]. reflexivity.
Qed.

Lemma absent_chunk2 : @absent (sample 2) store_with_chunk chunk2.
Proof.
  intros table tb Hr Htb. vm_compute in Hr. injection Hr as <-.
  unfold store_with_chunk, Bigtable.bt_tables in Htb.
  apply lookup_singleton_Some in Htb as [_ <-]. reflexivity.
Qed.

Lemma readable_sample : @readable (sample 2) store_with_chunk [chunk1; chunk2].
Proof.
  split; [reflexivity|]. intros c Hc. exists "chunks_0"%string, chunks_table.
  apply elem_of_cons in Hc as [->|Hc].
  - split_and!; [reflexivity..|]. intros row Hrow.
    assert (row = chunk1_row) as -> by (vm_compute in Hrow; by injection Hrow).
    split; [reflexivity|]. eexists. split; [reflexivity|]. intros c' _ _. simpl. eauto.
  - apply list_elem_of_singleton in Hc as ->.
    split_and!; [reflexivity..|]. intros row Hrow. by vm_compute in Hrow.
Qed.

Lemma GetChunks_no_partial_result_witness :
  ∃ sched s e,
    @GetChunks (sample 2) store_with_chunk None [chunk1; chunk2] sched = Some s ∧
    st_result s = Some (inr e) ∧ count_mismatch e.
Proof.
  apply (proj2 (proj2 (@GetChunks_no_partial_result (sample 2) store_with_chunk
                         None [chunk1; chunk2])
                  chunk2 (list_elem_of_further _ _ _ (list_elem_of_here _ _))
                  absent_chunk2)).
  - exact readable_sample.
  - reflexivity.
  - simpl. lia.
Defined.

Lemma GetChunks_sends_never_block_witness :
  ∃ s0,
    @GetChunks_start (sample 2) store_with_chunk None [chunk1; chunk2] = Some s0 ∧
    st_outs_cap s0 = 2%nat ∧ st_errs_cap s0 = 2%nat ∧
    (length (st_tasks s0) ≤ 2)%nat ∧
    ∀ sched s,
      @run (sample 2) s0 sched = Some s →
      (@count_along (sample 2) sends_out s0 sched ≤ 2)%nat ∧
      (@count_along (sample 2) sends_err s0 sched ≤ length (st_tasks s0))%nat ∧
      ∀ g t, st_panicked s = false → st_tasks s !! g = Some t → unfinished t →
             is_Some (@step (sample 2) s (EvGo g)).
Proof.
  eexists. split; [by vm_compute|].
  apply (@GetChunks_sends_never_block (sample 2) store_with_chunk None
           [chunk1; chunk2]).
  by vm_compute.
Defined.

Lemma GetChunks_cancelled_select_witness :
  ∃ s, @GetChunks (sample 2) store_with_chunk None [chunk1]
         [EvGo 0; EvCancel ErrContextCanceled] = Some s ∧
       ∃ s', @step (sample 2) s EvRecvDone = Some s' ∧
             st_result s' = Some (inr ErrContextCanceled).
Proof.
  eexists. split; [by vm_compute|].
  apply (proj1 (@GetChunks_cancelled_select (sample 2) store_with_chunk None
                  [chunk1] [EvGo 0; EvCancel ErrContextCanceled] _
                  ErrContextCanceled ltac:(by vm_compute) eq_refl eq_refl eq_refl)).
Defined.

(** C8 as stated fails: the context is cancelled while the only chunk is
    pending on [outs] and the call has not returned; the select then takes
    the chunk, and the call returns the slice and no error. *)
Lemma GetChunks_cancel_has_no_priority :
  ∃ s1 s,
    @GetChunks (sample 2) store_with_chunk None [chunk1]
      [EvGo 0; EvGo 0; EvCancel ErrContextCanceled] = Some s1 ∧
    st_ctx s1 = Some ErrContextCanceled ∧ st_result s1 = None ∧
    st_outs s1 = [chunk1] ∧
    @step (sample 2) s1 EvRecvOut = Some s ∧
    st_result s = Some (inl [chunk1]) ∧
    st_result s ≠ Some (inr ErrContextCanceled).
Proof.
  eexists _, _. split; [by vm_compute|].
  split_and!; [reflexivity..|by vm_compute|reflexivity|done].
Qed.

Lemma callback_first_cell_unguarded_witness :
  @callbacks (sample 2) {[ "1/43981:0:3600"%string := chunk1 ]} [row_other_family]
    = ([], CbPanic) ∧
  ∀ page err,
    @page_actions (sample 2) {[ "1/43981:0:3600"%string := chunk1 ]} page
      [row_other_family] err = [Panic].
Proof.
  pose proof (proj1 (@callback_first_cell_unguarded (sample 2)
                       {[ "1/43981:0:3600"%string := chunk1 ]}
                       row_other_family [] chunk1 eq_refl) eq_refl) as (? & ? & _).
  done.
Defined.

(** ** Runs of the code on small inputs *)

Example pages_of_five_keys :
  @pages (sample 2) ["a"; "b"; "c"; "d"; "e"]%string
  = Some [["a"; "b"]; ["c"; "d"]; ["e"]]%string.
Proof. reflexivity. Qed.

Example five_pages_for_500_keys :
  length <$> @pages (sample 100) (replicate 500 "k"%string) = Some 5%nat.
Proof. by vm_compute. Qed.

Example pages_with_zero_page_size : @pages (sample 0) ["a"%string] = None.
Proof. reflexivity. Qed.

Example GetChunks_routing_error :
  st_result <$> @GetChunks (sample 2) store_with_chunk None
                  [{| Fingerprint := 1; UserID := "1"; From := -1; Through := 0;
                      Metric := []; Encoding := 1; Data := [] |}] []
  = Some (Some (inr (ErrOther "no table for this time"))).
Proof. reflexivity. Qed.

Example GetChunks_one_chunk :
  st_result <$> @GetChunks (sample 2) store_with_chunk None [chunk1]
                  [EvGo 0; EvGo 0; EvRecvOut]
  = Some (Some (inl [chunk1])).
Proof. by vm_compute. Qed.

Example GetChunks_missing_table :
  st_result <$> @GetChunks (sample 2) empty_store None [chunk1]
                  [EvGo 0; EvGo 0; EvRecvErr]
  = Some (Some (inr (ErrWithStack (Bigtable.notFound "chunks_0")))).
Proof. by vm_compute. Qed.

Example GetChunks_send_is_not_enabled_twice :
  @GetChunks (sample 2) store_with_chunk None [chunk1] [EvGo 0; EvGo 0; EvGo 0]
  = None.
Proof. by vm_compute. Qed.

Example PutChunks_unknown_table :
  (@PutChunks (sample 2) id empty_store [chunk1]).2
  = Some (Bigtable.notFound "chunks_0").
Proof. reflexivity. Qed.

Example ListTables_expired_cache_refetches :
  let c := {| cfg := caching;
              tableInfo := {[ "chunks_0" := {| Bigtable.ti_Families := [];
                                               Bigtable.ti_FamilyInfos := [] |} ]};
              tableExpiration := 50 |} in
  (@ListTables (sample 2) c store_with_table 40 41).2 = inl [] ∧
  (@ListTables (sample 2) c store_with_table 100 101).2 = inl ["chunks_0"%string].
Proof. split; by vm_compute. Qed.

Example DeleteChunk_not_implemented chunkID :
  DeleteChunk chunkID = Some ErrMethodNotImplemented.
Proof. reflexivity. Qed.

(** ** More on the table client *)

Section table_client_more.
Context `{Package}.

Lemma hasColumnFamily_elem infos :
  hasColumnFamily infos = true ↔ columnFamily ∈ Bigtable.family_names infos.
Proof.
  unfold Bigtable.family_names. induction infos as [|family infos IH]; csimpl.
  - split; [done|]. by intros ?%elem_of_nil.
  - destruct (String.eqb_spec (Bigtable.fi_Name family) columnFamily) as [Heq|Hne].
    + split; [|done]. intros _. rewrite Heq. apply list_elem_of_here.
    + rewrite IH. split; [apply list_elem_of_further|].
      intros [?|?]%elem_of_cons; [congruence|done].
Qed.

Lemma rpc_no_fault b : Bigtable.bt_faults b = [] → Bigtable.rpc b = (b, None).
Proof. intros Hf. unfold Bigtable.rpc. by rewrite Hf. Qed.

Lemma TableInfo_no_fault b table tb :
  Bigtable.bt_faults b = [] → Bigtable.bt_tables b !! table = Some tb →
  Bigtable.TableInfo_ b table =
    (b, inl {| Bigtable.ti_Families := Bigtable.family_names (Bigtable.tb_families tb);
               Bigtable.ti_FamilyInfos := Bigtable.tb_families tb |}).
Proof.
  intros Hf Htb. unfold Bigtable.TableInfo_. rewrite (rpc_no_fault _ Hf).
  by rewrite Htb.
Qed.

(** The loop of [ListTables] on a store whose calls go through, from a
    receiver whose cache is off or agrees with the store. *)
Lemma ListTables_loop_exact b entries : ∀ c output,
  Bigtable.bt_faults b = [] →
  (∀ entry, entry ∈ entries → Bigtable.bt_tables b !! entry.1 = Some entry.2) →
  TableCacheEnabled (cfg c) = false ∨ cache_current c b →
  ∃ c',
    ListTables_loop c b entries.*1 output =
      (b, c',
       inl (output ++
              (filter (λ entry, hasColumnFamily (Bigtable.tb_families entry.2) = true)
                 entries).*1)) ∧
    cfg c' = cfg c ∧ tableExpiration c' = tableExpiration c ∧
    (TableCacheEnabled (cfg c') = false ∨ cache_current c' b).
Proof.
  induction entries as [|[table tb] entries IH]; intros c output Hf Hin Hc; csimpl.
  { exists c. by rewrite app_nil_r. }
  assert (Bigtable.bt_tables b !! table = Some tb) as Htb
    by apply (Hin (table, tb)), list_elem_of_here.
  assert (∃ info,
            match tableInfo c !! table with
            | Some info =>
                if negb (TableCacheEnabled (cfg c))
                then Bigtable.TableInfo_ b table else (b, inl info)
            | None => Bigtable.TableInfo_ b table
            end = (b, inl info) ∧
            Bigtable.ti_FamilyInfos info = Bigtable.tb_families tb)
    as (info & -> & Hinfo).
  { rewrite (TableInfo_no_fault _ _ _ Hf Htb).
    destruct (tableInfo c !! table) as [cached|] eqn:Hcached; [|by eexists].
    destruct (TableCacheEnabled (cfg c)) eqn:Hen; simpl; [|by eexists].
    destruct Hc as [?|Hc]; [done|]. exists cached. split; [done|]. by eapply Hc. }
  rewrite Hinfo, filter_cons. simpl.
  destruct (hasColumnFamily (Bigtable.tb_families tb)) eqn:Hfam.
  - rewrite decide_True by done. csimpl.
    destruct (IH c (output ++ [table]) Hf) as (c' & -> & ? & ? & ?); [|done|].
    + intros entry Hentry. apply Hin. by apply list_elem_of_further.
    + exists c'. by rewrite <-app_assoc.
  - rewrite decide_False by done.
    destruct (IH (with_tableInfo c (<[table:=info]> (tableInfo c))) output Hf)
      as (c' & -> & ? & ? & ?); [| |by exists c'].
    + intros entry Hentry. apply Hin. by apply list_elem_of_further.
    + destruct Hc as [?|Hc]; [by left|]. right.
      intros t i tb'. simpl. rewrite lookup_insert. case_decide.
      * intros [= <-] Htb'. subst t. congruence.
      * apply Hc.
Qed.

Lemma ListTables_no_fault c b now now' :
  Bigtable.bt_faults b = [] →
  (tableExpiration c < now)%Z ∨ TableCacheEnabled (cfg c) = false ∨ cache_current c b →
  (ListTables c b now now').1.1 = b ∧
  (ListTables c b now now').2 = inl (family_tables b) ∧
  (TableCacheEnabled (cfg (ListTables c b now now').1.2) = false ∨
   cache_current (ListTables c b now now').1.2 b).
Proof.
  intros Hf Hc. unfold ListTables, Bigtable.Tables. rewrite (rpc_no_fault _ Hf).
  edestruct (ListTables_loop_exact b (map_to_list (Bigtable.bt_tables b)))
    as (c' & -> & _ & _ & Hc'); [done| | |done].
  - intros [table tb] Hin. by apply elem_of_map_to_list.
  - destruct Hc as [Hc|[Hc|Hc]].
    + right. apply Z.ltb_lt in Hc as ->. by intros t i tb.
    + left. by case_match.
    + right. case_match; [by intros t i tb|done].
Qed.

(** X1: on a store whose calls go through, [ListTables] from a receiver whose
    cache has expired, is disabled or agrees with the store returns exactly
    the tables that carry the column family, each once, in the order in which
    the store lists its tables, and leaves the store as it is. *)
Theorem ListTables_lists_family_tables c b now now' :
  Bigtable.bt_faults b = [] →
  (tableExpiration c < now)%Z ∨ TableCacheEnabled (cfg c) = false ∨ cache_current c b →
  (ListTables c b now now').1.1 = b ∧
  (ListTables c b now now').2 = inl (family_tables b) ∧
  NoDup (family_tables b) ∧
  ∀ table, table ∈ family_tables b ↔ store_has_family b table.
Proof.
  intros Hf Hc. destruct (ListTables_no_fault c b now now' Hf Hc) as (-> & -> & _).
  split_and!; [done..| |].
  - unfold family_tables. eapply sublist_NoDup; [|apply fmap_sublist, sublist_filter].
    apply NoDup_fst_map_to_list.
  - intros table. unfold family_tables, store_has_family. split.
    + intros ([t tb] & -> & [Hfam Hin]%list_elem_of_filter)%list_elem_of_fmap.
      exists tb. split; [|done]. by apply elem_of_map_to_list.
    + intros (tb & Htb & Hfam). apply list_elem_of_fmap. exists (table, tb).
      split; [done|]. apply list_elem_of_filter. split; [done|].
      by apply elem_of_map_to_list.
Qed.

(** What the loop of [ListTables] returns is a selection of the tables it
    ranges over. *)
Lemma ListTables_loop_sublist tables : ∀ c b output b' c' out,
  ListTables_loop c b tables output = (b', c', inl out) →
  ∃ l, out = output ++ l ∧ l `sublist_of` tables.
Proof.
  induction tables as [|table tables IH]; intros c b output b' c' out; simpl.
  { intros [= <- <- <-]. exists []. by rewrite app_nil_r. }
  destruct (match tableInfo c !! table with
            | Some info => if negb (TableCacheEnabled (cfg c))
                           then Bigtable.TableInfo_ b table else (b, inl info)
            | None => Bigtable.TableInfo_ b table end) as [b1 [info|err]]; [|done].
  destruct (hasColumnFamily (Bigtable.ti_FamilyInfos info)).
  - intros (l & -> & Hl)%IH. exists (table :: l). rewrite <-app_assoc.
    split; [done|]. by apply sublist_skip.
  - intros (l & -> & Hl)%IH. exists l. split; [done|]. by apply sublist_cons.
Qed.

Lemma ListTables_sublist c b now now' b' c' out :
  ListTables c b now now' = (b', c', inl out) →
  out `sublist_of` (map_to_list (Bigtable.bt_tables b)).*1.
Proof.
  unfold ListTables, Bigtable.Tables. pose proof (rpc_tables b) as Hr.
  destruct (Bigtable.rpc b) as [b1 [e|]]; simpl in Hr; [done|].
  intros (l & -> & Hl)%ListTables_loop_sublist. by rewrite <-Hr.
Qed.

(** X2: whatever the receiver's cache holds, the names that [ListTables]
    returns are names of tables of the store, without repetition and in the
    order in which the store lists them. *)
Theorem ListTables_returns_existing_tables c b now now' b' c' out :
  ListTables c b now now' = (b', c', inl out) →
  out `sublist_of` (map_to_list (Bigtable.bt_tables b)).*1 ∧
  NoDup out ∧
  ∀ table, table ∈ out → is_Some (Bigtable.bt_tables b !! table).
Proof.
  intros Hl%ListTables_sublist. split_and!; [done| |].
  - eapply sublist_NoDup; [|done]. apply NoDup_fst_map_to_list.
  - intros table Hin. apply (elem_of_sublist _ _ _ Hin) in Hl as Hin'.
    apply list_elem_of_fmap in Hin' as ([t tb] & -> & Hin'%elem_of_map_to_list).
    by exists tb.
Qed.

(** An entry of an enabled cache that lacks the family survives the loop and
    keeps its table out of the output. *)
Lemma ListTables_loop_cached table info tables : ∀ c b output b' c' out,
  TableCacheEnabled (cfg c) = true →
  tableInfo c !! table = Some info →
  hasColumnFamily (Bigtable.ti_FamilyInfos info) = false →
  ListTables_loop c b tables output = (b', c', inl out) →
  tableInfo c' !! table = Some info ∧ (table ∈ out → table ∈ output).
Proof.
  induction tables as [|t tables IH]; intros c b output b' c' out Hen Hc Hfam; simpl.
  { by intros [= <- <- <-]. }
  destruct (decide (t = table)) as [->|Hne].
  - rewrite Hc, Hen. simpl. rewrite Hfam. intros Hloop.
    eapply IH in Hloop; [done|done| |done]. simpl. by rewrite lookup_insert_eq.
  - destruct (match tableInfo c !! t with
              | Some info => if negb (TableCacheEnabled (cfg c))
                             then Bigtable.TableInfo_ b t else (b, inl info)
              | None => Bigtable.TableInfo_ b t end) as [b1 [i|err]]; [|done].
    destruct (hasColumnFamily (Bigtable.ti_FamilyInfos i)).
    + intros Hloop. eapply IH in Hloop as [? Hout]; [|done..]. split; [done|].
      intros [?|?%list_elem_of_singleton]%Hout%elem_of_app; [done|congruence].
    + intros Hloop. eapply IH in Hloop; [done|done| |done].
      simpl. by rewrite lookup_insert_ne.
Qed.

(** X3: while the cache is enabled and has not expired, a table that it
    records as lacking the column family is left out of the result of
    [ListTables] and its entry is kept, whatever the store now says of the
    table. *)
Theorem ListTables_cached_table_omitted c b now now' table info b' c' out :
  TableCacheEnabled (cfg c) = true → (now ≤ tableExpiration c)%Z →
  tableInfo c !! table = Some info →
  hasColumnFamily (Bigtable.ti_FamilyInfos info) = false →
  ListTables c b now now' = (b', c', inl out) →
  (table ∉ out) ∧ tableInfo c' !! table = Some info.
Proof.
  intros Hen Hexp Hc Hfam. unfold ListTables.
  destruct (Bigtable.Tables b) as [b1 [tables|err]]; [|done].
  assert ((tableExpiration c <? now)%Z = false) as -> by by apply Z.ltb_ge.
  intros [Hkeep Hout]%(ListTables_loop_cached table info); [|done..].
  split; [|done]. by intros ?%Hout%elem_of_nil.
Qed.

(** What the loop of [ListTables] does to the receiver, whether it ends with a
    result or with an error. *)
Lemma ListTables_loop_receiver tables : ∀ c b output,
  let c' := (ListTables_loop c b tables output).1.2 in
  cfg c' = cfg c ∧ tableExpiration c' = tableExpiration c ∧
  (∀ table info, tableInfo c' !! table = Some info →
     tableInfo c !! table = Some info ∨
     (table ∈ tables ∧ hasColumnFamily (Bigtable.ti_FamilyInfos info) = false)) ∧
  (TableCacheEnabled (cfg c) = true → tableInfo c ⊆ tableInfo c').
Proof.
  induction tables as [|t tables IH]; intros c b output; simpl.
  { split_and!; [done|done|auto|done]. }
  destruct (match tableInfo c !! t with
            | Some info => if negb (TableCacheEnabled (cfg c))
                           then Bigtable.TableInfo_ b t else (b, inl info)
            | None => Bigtable.TableInfo_ b t end) as [b1 [i|err]] eqn:Hfetch.
  2:{ simpl. split_and!; [done|done|auto|done]. }
  destruct (hasColumnFamily (Bigtable.ti_FamilyInfos i)) eqn:Hfam.
  - destruct (IH c b1 (output ++ [t])) as (Hcfg & Hexp & Hnew & Hsub).
    split_and!; [done..| |done].
    intros table info [?|[? ?]]%Hnew; [by left|right].
    split; [by apply list_elem_of_further|done].
  - destruct (IH (with_tableInfo c (<[t := i]> (tableInfo c))) b1 output)
      as (Hcfg & Hexp & Hnew & Hsub).
    simpl in *. split_and!; [done..| |].
    + intros table info [Hi|[? ?]]%Hnew.
      * apply lookup_insert_Some in Hi as [[<- <-]|[_ ?]]; [|by left].
        right. split; [apply list_elem_of_here|done].
      * right. split; [by apply list_elem_of_further|done].
    + intros Hen. etrans; [|by apply Hsub].
      destruct (tableInfo c !! t) as [cached|] eqn:Hcached.
      * rewrite Hen in Hfetch. simpl in Hfetch. simplify_eq.
        by rewrite insert_id.
      * by apply insert_subseteq.
Qed.

(** X4: once the listing call has gone through, [ListTables] handles the
    cache as follows, whether it then succeeds or fails on a metadata call.
    If the cache had expired, it starts a new window that ends
    [TableCacheExpiration] after the second reading of the clock, and the
    cache afterwards holds only tables of this listing that lack the family.
    If it had not, the end of the window stays, and with the cache enabled no
    entry is lost or altered.  The configuration never changes. *)
Theorem ListTables_cache_window c b now now' b1 tables :
  Bigtable.Tables b = (b1, inl tables) →
  let c' := (ListTables c b now now').1.2 in
  cfg c' = cfg c ∧
  ((tableExpiration c < now)%Z →
     tableExpiration c' = (now' + TableCacheExpiration (cfg c))%Z ∧
     ∀ table info, tableInfo c' !! table = Some info →
       table ∈ tables ∧ hasColumnFamily (Bigtable.ti_FamilyInfos info) = false) ∧
  ((now ≤ tableExpiration c)%Z →
     tableExpiration c' = tableExpiration c ∧
     (TableCacheEnabled (cfg c) = true → tableInfo c ⊆ tableInfo c')).
Proof.
  intros Htables. unfold ListTables. rewrite Htables.
  destruct (tableExpiration c <? now)%Z eqn:Hexp.
  - apply Z.ltb_lt in Hexp.
    match goal with |- context [ListTables_loop ?c0 b1 tables []] =>
      destruct (ListTables_loop_receiver tables c0 b1 []) as (Hcfg & Hexp' & Hnew & _)
    end.
    simpl in *. split_and!; [done| |intros; lia].
    intros _. split; [done|]. intros table info [Hi|?]%Hnew; [|done].
    by rewrite lookup_empty in Hi.
  - apply Z.ltb_ge in Hexp.
    destruct (ListTables_loop_receiver tables c b1 []) as (Hcfg & Hexp' & _ & Hsub).
    simpl in *. split_and!; [done|intros; lia|]. done.
Qed.

(** [hasColumnFamily] once the family has been appended. *)
Lemma hasColumnFamily_app infos infos' :
  hasColumnFamily infos' = true → hasColumnFamily (infos ++ infos') = true.
Proof.
  rewrite !hasColumnFamily_elem. unfold Bigtable.family_names.
  rewrite fmap_app. set_solver.
Qed.

Lemma CreateTable_no_fault b desc :
  Bigtable.bt_faults b = [] →
  ∃ b',
    CreateTable b desc = (b', None) ∧ Bigtable.bt_faults b' = [] ∧
    store_has_family b' (td_Name desc) ∧
    (∀ table, table ≠ td_Name desc →
       Bigtable.bt_tables b' !! table = Bigtable.bt_tables b !! table) ∧
    (∀ tb, Bigtable.bt_tables b !! td_Name desc = Some tb →
       ∃ tb', Bigtable.bt_tables b' !! td_Name desc = Some tb' ∧
              Bigtable.tb_rows tb' = Bigtable.tb_rows tb ∧
              Bigtable.tb_families tb `prefix_of` Bigtable.tb_families tb') ∧
    (Bigtable.bt_tables b !! td_Name desc = None →
       Bigtable.bt_tables b' !! td_Name desc = Some new_table).
Proof.
  intros Hf.
  assert (hasColumnFamily
            [{| Bigtable.fi_Name := columnFamily; Bigtable.fi_GCPolicy := EmptyString |}]
          = true) as Hone.
  { simpl. by rewrite String.eqb_refl. }
  unfold CreateTable, Bigtable.CreateTable. rewrite (rpc_no_fault _ Hf).
  destruct (Bigtable.bt_tables b !! td_Name desc) as [tb|] eqn:Htb; simpl.
  - unfold Bigtable.CreateColumnFamily. rewrite (rpc_no_fault _ Hf), Htb.
    destruct (decide (columnFamily ∈ _)) as [Hin|Hnot]; simpl.
    + exists b. split_and!; [done|done| |done| |done].
      * exists tb. split; [done|]. by apply hasColumnFamily_elem.
      * intros ? [= <-]. by exists tb.
    + eexists. split_and!; [done|done|..].
      * eexists. simpl. rewrite lookup_insert_eq. split; [done|]. simpl.
        by apply hasColumnFamily_app.
      * intros table Hne. simpl. by rewrite lookup_insert_ne.
      * intros ? [= <-]. eexists. simpl. rewrite lookup_insert_eq.
        split; [done|]. simpl. split; [done|]. by apply prefix_app_r.
      * done.
  - unfold Bigtable.CreateColumnFamily, Bigtable.rpc. simpl. rewrite Hf. simpl.
    rewrite lookup_insert_eq. simpl.
    eexists. split_and!; [done|done|..].
    + eexists. simpl. rewrite lookup_insert_eq. split; [done|]. done.
    + intros table Hne. simpl. by rewrite !lookup_insert_ne.
    + done.
    + intros _. simpl. by rewrite lookup_insert_eq.
Qed.

(** X5: on a store whose calls go through, [CreateTable] returns nil and
    leaves a table of the given name that carries the column family.  A table
    that was there keeps its rows and its families (the column family is
    added after them if it was missing); a table that was not is created
    empty with the column family alone.  No other table is touched. *)
Theorem CreateTable_establishes_family b desc :
  Bigtable.bt_faults b = [] →
  ∃ b',
    CreateTable b desc = (b', None) ∧
    store_has_family b' (td_Name desc) ∧
    (∀ table, table ≠ td_Name desc →
       Bigtable.bt_tables b' !! table = Bigtable.bt_tables b !! table) ∧
    (∀ tb, Bigtable.bt_tables b !! td_Name desc = Some tb →
       ∃ tb', Bigtable.bt_tables b' !! td_Name desc = Some tb' ∧
              Bigtable.tb_rows tb' = Bigtable.tb_rows tb ∧
              Bigtable.tb_families tb `prefix_of` Bigtable.tb_families tb') ∧
    (Bigtable.bt_tables b !! td_Name desc = None →
       Bigtable.bt_tables b' !! td_Name desc = Some new_table).
Proof.
  intros Hf. destruct (CreateTable_no_fault b desc Hf) as (b' & ? & ? & ? & ? & ? & ?).
  by exists b'.
Qed.

(** X6: a table made by [CreateTable] is listed by the next [ListTables] of a
    receiver whose cache is disabled or has expired (as that of a new
    receiver has at any positive time), on a store whose calls go through. *)
Theorem CreateTable_then_ListTables b desc c now now' :
  Bigtable.bt_faults b = [] →
  (tableExpiration c < now)%Z ∨ TableCacheEnabled (cfg c) = false →
  ∃ out,
    (ListTables c (CreateTable b desc).1 now now').2 = inl out ∧
    td_Name desc ∈ out.
Proof.
  intros Hf Hc. destruct (CreateTable_no_fault b desc Hf) as (b' & -> & Hf' & Hfam & _).
  simpl. exists (family_tables b').
  destruct (ListTables_no_fault c b' now now' Hf') as (_ & -> & _); [tauto|].
  split; [done|]. destruct Hfam as (tb & Htb & Hfam).
  unfold family_tables. apply list_elem_of_fmap. exists (td_Name desc, tb).
  split; [done|]. apply list_elem_of_filter. split; [done|].
  by apply elem_of_map_to_list.
Qed.

Lemma DeleteTable_Some c b name b' c' :
  DeleteTable c b name = (b', c', None) →
  is_Some (Bigtable.bt_tables b !! name) ∧
  Bigtable.bt_tables b' = delete name (Bigtable.bt_tables b) ∧
  c' = with_tableInfo c (delete name (tableInfo c)).
Proof.
  unfold DeleteTable, Bigtable.DeleteTable. pose proof (rpc_tables b) as Hr.
  destruct (Bigtable.rpc b) as [b1 [e|]]; simpl in Hr; [done|].
  rewrite Hr. destruct (Bigtable.bt_tables b !! name) as [tb|] eqn:Htb; [|done].
  intros [= <- <-]. simpl. eauto.
Qed.

(** X7: [DeleteTable] returns nil only if the store held the table; the table
    is then gone from the store and its entry from the cache, and nothing
    else of the store's tables or of the receiver changes.  When it returns
    an error, the error wraps the store's answer under the name of the call
    and neither the tables nor the receiver change. *)
Theorem DeleteTable_effect c b name b' c' r :
  DeleteTable c b name = (b', c', r) →
  match r with
  | None =>
      is_Some (Bigtable.bt_tables b !! name) ∧
      Bigtable.bt_tables b' = delete name (Bigtable.bt_tables b) ∧
      tableInfo c' = delete name (tableInfo c) ∧
      cfg c' = cfg c ∧ tableExpiration c' = tableExpiration c
  | Some err =>
      (∃ answer, err = ErrWrap answer "client.DeleteTable" ∧
                 (Bigtable.DeleteTable b name).2 = Some answer) ∧
      Bigtable.bt_tables b' = Bigtable.bt_tables b ∧ c' = c
  end.
Proof.
  destruct r as [err|].
  - unfold DeleteTable, Bigtable.DeleteTable. pose proof (rpc_tables b) as Hr.
    destruct (Bigtable.rpc b) as [b1 [e|]]; simpl in Hr.
    + intros [= <- <- <-]. eauto.
    + destruct (Bigtable.bt_tables b1 !! name); [done|].
      intros [= <- <- <-]. eauto.
  - intros (? & ? & ->)%DeleteTable_Some. done.
Qed.

(** X8: once [DeleteTable] has returned nil, no [ListTables] on the resulting
    store returns the table, from whatever receiver and whatever its cache
    holds. *)
Theorem DeleteTable_then_not_listed c b name b1 c1 c2 now now' b2 c3 out :
  DeleteTable c b name = (b1, c1, None) →
  ListTables c2 b1 now now' = (b2, c3, inl out) →
  (name ∉ out) ∧ tableInfo c1 !! name = None.
Proof.
  intros (_ & Hb1 & ->)%DeleteTable_Some Hl%ListTables_sublist. split.
  - intros Hin. apply (elem_of_sublist _ _ _ Hin) in Hl as Hin'.
    apply list_elem_of_fmap in Hin' as ([t tb] & -> & Hin'%elem_of_map_to_list).
    rewrite Hb1 in Hin'. by rewrite lookup_delete_eq in Hin'.
  - simpl. apply lookup_delete_eq.
Qed.

(** X9: asking again gives the same answer.  On a store whose calls go
    through and that does not change, a [ListTables] whose result is exact
    (see above) leaves the receiver such that the next [ListTables], at
    whatever time, returns the same list. *)
Theorem ListTables_repeatable c b now now' now2 now2' :
  Bigtable.bt_faults b = [] →
  (tableExpiration c < now)%Z ∨ TableCacheEnabled (cfg c) = false ∨ cache_current c b →
  (ListTables (ListTables c b now now').1.2 (ListTables c b now now').1.1 now2 now2').2
  = (ListTables c b now now').2.
Proof.
  intros Hf Hc. destruct (ListTables_no_fault c b now now' Hf Hc) as (-> & -> & Hc').
  by destruct (ListTables_no_fault (ListTables c b now now').1.2 b now2 now2' Hf)
    as (_ & -> & _); [tauto|].
Qed.

Lemma CreateTable_present b desc :
  Bigtable.bt_faults b = [] → store_has_family b (td_Name desc) →
  CreateTable b desc = (b, None).
Proof.
  intros Hf (tb & Htb & Hfam). apply hasColumnFamily_elem in Hfam.
  unfold CreateTable, Bigtable.CreateTable. rewrite (rpc_no_fault _ Hf), Htb. simpl.
  unfold Bigtable.CreateColumnFamily. rewrite (rpc_no_fault _ Hf), Htb.
  by rewrite decide_True.
Qed.

(** X10: [CreateTable] a second time changes nothing: on a store whose calls
    go through, the store after two calls is the store after one, and the
    second call returns nil as the first did. *)
Theorem CreateTable_again_changes_nothing b desc :
  Bigtable.bt_faults b = [] →
  CreateTable (CreateTable b desc).1 desc = ((CreateTable b desc).1, None).
Proof.
  intros Hf. destruct (CreateTable_no_fault b desc Hf) as (b' & -> & Hf' & Hfam & _).
  simpl. by apply CreateTable_present.
Qed.

End table_client_more.

(** ** More on the write path *)

Section write_more.
Context `{Package}.

(** *** The first loop *)

Lemma PutChunks_group_rejects pre c post err : ∀ keys muts,
  Forall (λ c, PutChunks_rejects c = None) pre →
  PutChunks_rejects c = Some err →
  PutChunks_group (pre ++ c :: post) keys muts = inr err.
Proof.
  induction pre as [|c' pre IH]; intros keys muts Hpre Hc; simpl.
  - unfold PutChunks_rejects in Hc. destruct (Encoded c); [|by simplify_eq].
    destruct (ChunkTableFor (From c)); by simplify_eq.
  - apply Forall_cons in Hpre as [Hc' Hpre]. unfold PutChunks_rejects in Hc'.
    destruct (Encoded c'); [|done]. destruct (ChunkTableFor (From c')); [|done].
    by apply IH.
Qed.

Lemma PutChunks_group_accepts chunks : ∀ keys0 muts0 keys muts,
  PutChunks_group chunks keys0 muts0 = inl (keys, muts) →
  Forall (λ c, PutChunks_rejects c = None) chunks.
Proof.
  induction chunks as [|c chunks IH]; intros keys0 muts0 keys muts; simpl; [done|].
  destruct (Encoded c) as [buf|] eqn:Henc; [|done].
  destruct (ChunkTableFor (From c)) as [tn|] eqn:Htn; [|done].
  intros Hg%IH. constructor; [|done]. unfold PutChunks_rejects. by rewrite Henc, Htn.
Qed.

Lemma PutChunks_group_total chunks : ∀ keys0 muts0,
  Forall (λ c, PutChunks_rejects c = None) chunks →
  ∃ keys muts, PutChunks_group chunks keys0 muts0 = inl (keys, muts).
Proof.
  induction chunks as [|c chunks IH]; intros keys0 muts0 Hall; simpl; [by eauto|].
  apply Forall_cons in Hall as [Hc Hall]. unfold PutChunks_rejects in Hc.
  destruct (Encoded c) as [buf|]; [|done].
  destruct (ChunkTableFor (From c)) as [tn|]; [|done]. by apply IH.
Qed.

(** The bulk mutation that the first loop prepares for a table. *)
Lemma PutChunks_group_entries chunks : ∀ keys0 muts0 keys muts,
  PutChunks_group chunks keys0 muts0 = inl (keys, muts) →
  ∀ tn,
    length (default [] (keys0 !! tn)) = length (default [] (muts0 !! tn)) →
    length (default [] (keys !! tn)) = length (default [] (muts !! tn)) ∧
    zip (default [] (keys !! tn)) (default [] (muts !! tn)) =
      zip (default [] (keys0 !! tn)) (default [] (muts0 !! tn)) ++
        chunk_entries (table_writes tn chunks).
Proof.
  induction chunks as [|c chunks IH]; intros keys0 muts0 keys muts; simpl.
  { intros [= <- <-] tn Hlen. by rewrite app_nil_r. }
  destruct (Encoded c) as [buf|err] eqn:Henc; [|done].
  destruct (ChunkTableFor (From c)) as [tc|err] eqn:Htab; [|done].
  intros Hg tn Hlen.
  destruct (decide (routed tn c)) as [Hr|Hr].
  - unfold routed in Hr. assert (tc = tn) as -> by congruence.
    destruct (IH _ _ _ _ Hg tn) as [Hlen' ->].
    { rewrite !lookup_insert_eq. simpl. rewrite !length_app. simpl. lia. }
    split; [done|]. rewrite !lookup_insert_eq. simpl.
    rewrite zip_with_app by done. by rewrite <-app_assoc.
  - assert (tc ≠ tn) by (intros ->; by apply Hr).
    destruct (IH _ _ _ _ Hg tn) as [Hlen' ->].
    { by rewrite !lookup_insert_ne. }
    split; [done|]. by rewrite !lookup_insert_ne.
Qed.

(** The tables that the second loop ranges over each receive a chunk. *)
Lemma PutChunks_group_tables chunks : ∀ keys0 muts0 keys muts,
  PutChunks_group chunks keys0 muts0 = inl (keys, muts) →
  ∀ tn, is_Some (keys !! tn) ↔
        is_Some (keys0 !! tn) ∨ ∃ c, c ∈ chunks ∧ routed tn c.
Proof.
  induction chunks as [|c chunks IH]; intros keys0 muts0 keys muts; simpl.
  { intros [= <- <-] tn. split; [by left|]. intros [?|(? & ?%elem_of_nil & _)]; done. }
  destruct (Encoded c) as [buf|err] eqn:Henc; [|done].
  destruct (ChunkTableFor (From c)) as [tc|err] eqn:Htab; [|done].
  intros Hg tn. rewrite (IH _ _ _ _ Hg tn). split.
  - intros [Hk|(c' & ? & ?)].
    + destruct (decide (tc = tn)) as [->|Hne].
      * right. exists c. split; [apply list_elem_of_here|done].
      * left. by rewrite lookup_insert_ne in Hk.
    + right. exists c'. split; [by apply list_elem_of_further|done].
  - intros [Hk|(c' & [->|?]%elem_of_cons & Hr)].
    + left. destruct (decide (tc = tn)) as [->|Hne].
      * rewrite lookup_insert_eq. eauto.
      * by rewrite lookup_insert_ne.
    + left. unfold routed in Hr. assert (tc = tn) as -> by congruence.
      rewrite lookup_insert_eq. eauto.
    + right. by exists c'.
Qed.

Lemma table_writes_keys tn chunks :
  (table_writes tn chunks).*1 ⊆ ExternalKey <$> filter (routed tn) chunks.
Proof.
  intros key ([k buf] & -> & Hin)%list_elem_of_fmap.
  apply list_elem_of_omap in Hin as (c & Hc & Hw).
  destruct (Encoded c); [|done]. case_decide; [|done]. simplify_eq. simpl.
  apply list_elem_of_fmap. exists c. split; [done|]. by apply list_elem_of_filter.
Qed.

Lemma table_writes_elem tn chunks c :
  c ∈ chunks → PutChunks_rejects c = None → routed tn c →
  ∃ buf, Encoded c = inl buf ∧ (ExternalKey c, buf) ∈ table_writes tn chunks.
Proof.
  intros Hc Hacc Hr. unfold PutChunks_rejects in Hacc.
  destruct (Encoded c) as [buf|] eqn:Henc; [|done]. exists buf. split; [done|].
  apply list_elem_of_omap. exists c. split; [done|].
  by rewrite Henc, decide_True.
Qed.

(** X11: [PutChunks] checks the whole batch before it writes: when a chunk
    fails to encode or has no table, the call returns that error (the error of
    the first such chunk, the encoding being tried first) and the store is as
    it was, no call to it having been made. *)
Theorem PutChunks_rejects_before_writing range b pre c post err :
  Forall (λ c, PutChunks_rejects c = None) pre →
  PutChunks_rejects c = Some err →
  PutChunks range b (pre ++ c :: post) = (b, Some err).
Proof.
  intros Hpre Hc. unfold PutChunks.
  by rewrite (PutChunks_group_rejects _ _ _ err).
Qed.

(** *** Writing the chunk cell *)

Lemma same_cell_refl c : Bigtable.same_cell c c = true.
Proof.
  unfold Bigtable.same_cell. by rewrite String.eqb_refl, Z.eqb_refl.
Qed.

(** A second write to the same column and timestamp replaces the first. *)
Lemma insert_cell_absorb c1 c2 cells :
  Bigtable.ri_Column c1 = Bigtable.ri_Column c2 →
  Bigtable.ri_Timestamp c1 = Bigtable.ri_Timestamp c2 →
  Bigtable.insert_cell c2 (Bigtable.insert_cell c1 cells) = Bigtable.insert_cell c2 cells.
Proof.
  intros Hcol Hts.
  assert (Bigtable.same_cell c2 c1 = true) as Hsame.
  { unfold Bigtable.same_cell. by rewrite Hcol, Hts, String.eqb_refl, Z.eqb_refl. }
  assert (∀ c, Bigtable.same_cell c1 c = Bigtable.same_cell c2 c) as Hs.
  { intros c. unfold Bigtable.same_cell. by rewrite Hcol, Hts. }
  assert (∀ c, Bigtable.cell_before c1 c = Bigtable.cell_before c2 c) as Hb.
  { intros c. unfold Bigtable.cell_before. by rewrite Hcol, Hts. }
  induction cells as [|c cells IH]; simpl.
  - by rewrite Hsame.
  - rewrite <-Hs, <-Hb. destruct (Bigtable.same_cell c1 c) eqn:H1; simpl.
    + by rewrite Hsame.
    + destruct (Bigtable.cell_before c1 c) eqn:H2; simpl.
      * by rewrite Hsame.
      * rewrite <-Hs, <-Hb, H1, H2. by rewrite IH.
Qed.

Lemma written_row_absorb key buf1 buf2 old :
  written_row key buf2 (Some (written_row key buf1 old)) = written_row key buf2 old.
Proof.
  unfold written_row. simpl. rewrite lookup_insert_eq. simpl.
  rewrite insert_insert_eq. f_equal. by apply insert_cell_absorb.
Qed.

Lemma written_row_other key buf old family :
  family ≠ columnFamily → written_row key buf old !! family = default ∅ old !! family.
Proof. intros Hne. unfold written_row. by rewrite lookup_insert_ne. Qed.

Lemma apply_entry_chunk clock fams rows key buf :
  Bigtable.apply_entry clock fams rows key
    [Bigtable.OpSetCell columnFamily column 0 buf] =
  if decide (columnFamily ∈ fams)
  then (<[key := written_row key buf (rows !! key)]> rows, None)
  else (rows, Some (ErrStatus CodeNotFound columnFamily)).
Proof.
  unfold Bigtable.apply_entry. simpl.
  destruct (decide (columnFamily ∈ fams)) as [Hin|Hnot].
  - rewrite decide_False by (intros Hn; by apply Hn). done.
  - by rewrite decide_True.
Qed.

Lemma last_write_cons key k buf writes :
  last_write key ((k, buf) :: writes) =
  match last_write key writes with
  | Some buf' => Some buf'
  | None => if decide (k = key) then Some buf else None
  end.
Proof.
  unfold last_write. rewrite filter_cons. simpl.
  destruct (decide (k = key)) as [->|Hne].
  - rewrite last_cons. by destruct (last (filter _ writes)).
  - by destruct (last (filter _ writes)).
Qed.

Lemma last_write_None key writes :
  key ∉ writes.*1 → last_write key writes = None.
Proof.
  induction writes as [|[k buf] writes IH]; [done|]. csimpl.
  intros [Hne Hkey]%not_elem_of_cons. rewrite last_write_cons, IH by done.
  by rewrite decide_False.
Qed.

(** The rows after a bulk mutation of chunk writes, on a table that has the
    chunk family: every entry goes through, and each key written holds its
    last write. *)
Lemma apply_entries_chunks clock fams writes : ∀ rows,
  columnFamily ∈ fams →
  ∃ rows',
    Bigtable.apply_entries clock fams rows (chunk_entries writes)
      = (rows', replicate (length writes) None) ∧
    ∀ key,
      rows' !! key =
        match last_write key writes with
        | Some buf => Some (written_row key buf (rows !! key))
        | None => rows !! key
        end.
Proof.
  intros rows Hfam. revert rows.
  induction writes as [|[k buf] writes IH]; intros rows; csimpl.
  { exists rows. split; [done|]. intros key. done. }
  rewrite apply_entry_chunk, decide_True by done.
  destruct (IH (<[k := written_row k buf (rows !! k)]> rows)) as (rows' & -> & Hrows).
  exists rows'. split; [done|]. intros key. rewrite Hrows, last_write_cons.
  destruct (last_write key writes) as [buf'|].
  - destruct (decide (k = key)) as [->|Hne].
    + rewrite lookup_insert_eq. by rewrite written_row_absorb.
    + by rewrite lookup_insert_ne.
  - destruct (decide (k = key)) as [->|Hne].
    + by rewrite lookup_insert_eq.
    + by rewrite lookup_insert_ne.
Qed.

Lemma apply_entries_no_family clock fams writes : ∀ rows,
  columnFamily ∉ fams →
  Bigtable.apply_entries clock fams rows (chunk_entries writes)
  = (rows, replicate (length writes) (Some (ErrStatus CodeNotFound columnFamily))).
Proof.
  intros rows Hfam. induction writes as [|[k buf] writes IH]; csimpl; [done|].
  rewrite apply_entry_chunk, decide_False by done. by rewrite IH.
Qed.

Lemma first_error_replicate_None n : first_error (replicate n None) = None.
Proof. by induction n. Qed.

(** A bulk mutation of chunk writes without errors. *)
Lemma apply_entries_chunks_ok clock fams writes rows rows' errs :
  Bigtable.apply_entries clock fams rows (chunk_entries writes) = (rows', errs) →
  first_error errs = None → writes ≠ [] →
  columnFamily ∈ fams ∧
  ∀ key,
    rows' !! key =
      match last_write key writes with
      | Some buf => Some (written_row key buf (rows !! key))
      | None => rows !! key
      end.
Proof.
  intros Hrows Herrs Hne. destruct (decide (columnFamily ∈ fams)) as [Hin|Hnot].
  - split; [done|].
    destruct (apply_entries_chunks clock fams writes rows Hin) as (rows1 & Hrows1 & Hchar).
    rewrite Hrows1 in Hrows. by simplify_eq.
  - rewrite apply_entries_no_family in Hrows by done. simplify_eq.
    by destruct writes.
Qed.

(** What a bulk mutation of chunk writes leaves of the rows, whether its
    entries go through or not. *)
Lemma apply_entries_kept clock fams writes rows :
  let rows' := (Bigtable.apply_entries clock fams rows (chunk_entries writes)).1 in
  (∀ key, key ∉ writes.*1 → rows' !! key = rows !! key) ∧
  ∀ key row, rows !! key = Some row →
    ∃ row', rows' !! key = Some row' ∧
            ∀ family, family ≠ columnFamily → row' !! family = row !! family.
Proof.
  destruct (decide (columnFamily ∈ fams)) as [Hin|Hnot].
  - destruct (apply_entries_chunks clock fams writes rows Hin) as (rows1 & -> & Hchar).
    simpl. split.
    + intros key Hkey. by rewrite Hchar, last_write_None.
    + intros key row Hrow. rewrite Hchar, Hrow.
      destruct (last_write key writes) as [buf|]; [|by eauto].
      eexists. split; [done|]. intros family Hne. by rewrite written_row_other.
  - rewrite apply_entries_no_family by done. simpl. split; [done|]. eauto.
Qed.

Lemma table_kept_refl keys tb : table_kept keys tb tb.
Proof. split_and!; [done|done|eauto]. Qed.

Lemma table_kept_trans keys tb1 tb2 tb3 :
  table_kept keys tb1 tb2 → table_kept keys tb2 tb3 → table_kept keys tb1 tb3.
Proof.
  intros (Hf1 & Hk1 & Hr1) (Hf2 & Hk2 & Hr2). split_and!.
  - congruence.
  - intros key Hkey. by rewrite Hk2, Hk1.
  - intros key row (row' & Hrow' & Hfam')%Hr1.
    destruct (Hr2 _ _ Hrow') as (row'' & ? & Hfam''). exists row''. split; [done|].
    intros family Hne. by rewrite Hfam'', Hfam'.
Qed.

(** *** The second loop *)

(** The tables after one [ApplyBulk], whatever its outcome. *)
Lemma ApplyBulk_tables b table ks ms :
  Bigtable.bt_tables (Bigtable.ApplyBulk b table ks ms).1.1 = Bigtable.bt_tables b ∨
  ∃ tb,
    Bigtable.bt_tables b !! table = Some tb ∧
    Bigtable.bt_tables (Bigtable.ApplyBulk b table ks ms).1.1 =
      <[table :=
          {| Bigtable.tb_families := Bigtable.tb_families tb;
             Bigtable.tb_rows :=
               (Bigtable.apply_entries (Bigtable.bt_clock b)
                  (Bigtable.family_names (Bigtable.tb_families tb))
                  (Bigtable.tb_rows tb) (zip ks ms)).1 |}]> (Bigtable.bt_tables b).
Proof.
  unfold Bigtable.ApplyBulk. case_decide; [by left|].
  pose proof (rpc_tables b) as Hr. pose proof (rpc_clock b) as Hc.
  destruct (Bigtable.rpc b) as [b1 [e|]]; simpl in Hr, Hc; [by left|].
  rewrite Hr, Hc.
  destruct (Bigtable.bt_tables b !! table) as [tb|] eqn:Htb; [|by left].
  right. exists tb. split; [done|].
  by destruct (Bigtable.apply_entries _ _ _ _) as [rows' errs].
Qed.

Lemma store_kept_refl K b : store_kept K b b.
Proof.
  intros table. destruct (Bigtable.bt_tables b !! table) as [tb|] eqn:Htb; [|done].
  exists tb. split; [done|]. apply table_kept_refl.
Qed.

Lemma store_kept_tables K b b' :
  Bigtable.bt_tables b' = Bigtable.bt_tables b → store_kept K b b'.
Proof.
  intros Heq table. rewrite Heq.
  destruct (Bigtable.bt_tables b !! table) as [tb|] eqn:Htb; [|done].
  exists tb. split; [done|]. apply table_kept_refl.
Qed.

Lemma store_kept_trans K b1 b2 b3 :
  store_kept K b1 b2 → store_kept K b2 b3 → store_kept K b1 b3.
Proof.
  intros H12 H23 table. specialize (H12 table). specialize (H23 table).
  destruct (Bigtable.bt_tables b1 !! table) as [tb1|].
  - destruct H12 as (tb2 & Htb2 & Hk12). rewrite Htb2 in H23.
    destruct H23 as (tb3 & Htb3 & Hk23). exists tb3. split; [done|].
    by eapply table_kept_trans.
  - by rewrite H12 in H23.
Qed.

Lemma ApplyBulk_kept K b tn ks ms writes :
  zip ks ms = chunk_entries writes → writes.*1 ⊆ K tn →
  store_kept K b (Bigtable.ApplyBulk b tn ks ms).1.1.
Proof.
  intros Hzip Hsub.
  destruct (ApplyBulk_tables b tn ks ms) as [Heq|(tb & Htb & Heq)].
  { by apply store_kept_tables. }
  intros table. rewrite Heq. destruct (decide (table = tn)) as [->|Hne].
  - rewrite Htb, lookup_insert_eq. eexists. split; [done|].
    rewrite Hzip.
    destruct (apply_entries_kept (Bigtable.bt_clock b)
                (Bigtable.family_names (Bigtable.tb_families tb)) writes
                (Bigtable.tb_rows tb)) as [Hframe Hrows].
    split_and!; simpl; [done| |done].
    intros key Hkey. apply Hframe. intros Hin. by apply Hkey, Hsub.
  - rewrite lookup_insert_ne by done.
    destruct (Bigtable.bt_tables b !! table) as [tb'|] eqn:Htb'; [|done].
    exists tb'. split; [done|]. apply table_kept_refl.
Qed.

Lemma PutChunks_apply_kept K keys muts names : ∀ b,
  (∀ tn, ∃ writes,
     zip (default [] (keys !! tn)) (default [] (muts !! tn)) = chunk_entries writes ∧
     writes.*1 ⊆ K tn) →
  store_kept K b (PutChunks_apply b names keys muts).1.
Proof.
  induction names as [|tn names IH]; intros b Hw; simpl.
  { apply store_kept_refl. }
  destruct (Hw tn) as (writes & Hzip & Hsub).
  pose proof (ApplyBulk_kept K b tn _ _ writes Hzip Hsub) as Hk.
  destruct (Bigtable.ApplyBulk b tn _ _) as [[b1 errs] [e|]]; simpl in *; [done|].
  destruct (first_error errs); simpl; [done|].
  eapply store_kept_trans; [done|]. by apply IH.
Qed.

Lemma PutChunks_kept range b chunks :
  store_kept (table_keys chunks) b (PutChunks range b chunks).1.
Proof.
  unfold PutChunks.
  destruct (PutChunks_group chunks ∅ ∅) as [[keys muts]|err] eqn:Hg; simpl.
  2:{ apply store_kept_refl. }
  apply PutChunks_apply_kept. intros tn. exists (table_writes tn chunks).
  destruct (PutChunks_group_entries _ _ _ _ _ Hg tn) as [_ ->]; [done|].
  split; [done|]. apply table_writes_keys.
Qed.

(** X12: whatever its outcome, [PutChunks] makes no table and removes none,
    changes no table's families, removes no row, leaves every row alone whose
    key is not the key of a chunk of the batch routed to that table, and in
    the rows it writes leaves the cells of the other families alone. *)
Theorem PutChunks_keeps_the_rest range b chunks :
  ∀ table,
    match Bigtable.bt_tables b !! table with
    | None => Bigtable.bt_tables (PutChunks range b chunks).1 !! table = None
    | Some tb =>
        ∃ tb',
          Bigtable.bt_tables (PutChunks range b chunks).1 !! table = Some tb' ∧
          Bigtable.tb_families tb' = Bigtable.tb_families tb ∧
          (∀ key, key ∉ table_keys chunks table →
             Bigtable.tb_rows tb' !! key = Bigtable.tb_rows tb !! key) ∧
          ∀ key row, Bigtable.tb_rows tb !! key = Some row →
            ∃ row', Bigtable.tb_rows tb' !! key = Some row' ∧
                    ∀ family, family ≠ columnFamily → row' !! family = row !! family
    end.
Proof. apply PutChunks_kept. Qed.

(** The second loop on a store whose calls go through and whose tables have
    the chunk family. *)
Lemma PutChunks_apply_no_fault keys muts (W : string → list (string * bytes)) names :
  (∀ tn,
     length (default [] (keys !! tn)) = length (default [] (muts !! tn)) ∧
     zip (default [] (keys !! tn)) (default [] (muts !! tn)) = chunk_entries (W tn)) →
  ∀ b,
    Bigtable.bt_faults b = [] →
    (∀ tn, tn ∈ names → store_has_family b tn) →
    ∃ b', PutChunks_apply b names keys muts = (b', None) ∧ Bigtable.bt_faults b' = [].
Proof.
  intros Hw. induction names as [|tn names IH]; intros b Hf Hfam; simpl; [by eauto|].
  destruct (Hfam tn) as (tb & Htb & Hhas); [apply list_elem_of_here|].
  apply hasColumnFamily_elem in Hhas.
  destruct (Hw tn) as [Hlen Hzip].
  unfold Bigtable.ApplyBulk. rewrite decide_False by (intros Hn; by apply Hn).
  rewrite (rpc_no_fault _ Hf), Htb, Hzip.
  destruct (apply_entries_chunks (Bigtable.bt_clock b)
              (Bigtable.family_names (Bigtable.tb_families tb)) (W tn)
              (Bigtable.tb_rows tb) Hhas) as (rows' & -> & _).
  rewrite first_error_replicate_None. apply IH; [done|].
  intros tn' Htn'. simpl. destruct (decide (tn' = tn)) as [->|Hne].
  - eexists. simpl. rewrite lookup_insert_eq. split; [done|]. simpl.
    by apply hasColumnFamily_elem.
  - destruct (Hfam tn') as (tb' & ? & ?); [by apply list_elem_of_further|].
    exists tb'. simpl. by rewrite lookup_insert_ne.
Qed.

Lemma table_writes_nil tn chunks :
  (∀ c, c ∈ chunks → ¬ routed tn c) → table_writes tn chunks = [].
Proof.
  intros Hno. induction chunks as [|c chunks IH]; [done|].
  unfold table_writes. csimpl.
  destruct (Encoded c).
  - rewrite decide_False by (apply Hno, list_elem_of_here).
    apply IH. intros c' Hc'. by apply Hno, list_elem_of_further.
  - apply IH. intros c' Hc'. by apply Hno, list_elem_of_further.
Qed.

(** The store after a successful [PutChunks]. *)
Lemma PutChunks_after range b chunks b' :
  (∀ l, range l ≡ₚ l) →
  PutChunks range b chunks = (b', None) →
  Forall (λ c, PutChunks_rejects c = None) chunks ∧
  (∀ c table, c ∈ chunks → routed table c → store_has_family b table) ∧
  ∀ table tb, Bigtable.bt_tables b !! table = Some tb →
    ∃ tb',
      Bigtable.bt_tables b' !! table = Some tb' ∧
      Bigtable.tb_families tb' = Bigtable.tb_families tb ∧
      ∀ key,
        Bigtable.tb_rows tb' !! key =
          match last_write key (table_writes table chunks) with
          | Some buf => Some (written_row key buf (Bigtable.tb_rows tb !! key))
          | None => Bigtable.tb_rows tb !! key
          end.
Proof.
  intros Hrange. unfold PutChunks.
  destruct (PutChunks_group chunks ∅ ∅) as [[keys muts]|err] eqn:Hg; [|done].
  intros Happly. pose proof (PutChunks_group_accepts _ _ _ _ _ Hg) as Hacc.
  apply PutChunks_apply_ok in Happly as [Hframe Hin].
  2:{ rewrite Hrange. apply NoDup_fst_map_to_list. }
  assert (∀ tn, tn ∈ range (map_to_list keys).*1 ↔ ∃ c, c ∈ chunks ∧ routed tn c)
    as Hnames.
  { intros tn. rewrite Hrange, list_elem_of_fmap.
    split.
    - intros ([t ks] & -> & Hks%elem_of_map_to_list). simpl.
      destruct (proj1 (PutChunks_group_tables _ _ _ _ _ Hg t)) as [Hks'|?];
        [by eexists| |done].
      rewrite lookup_empty in Hks'. by destruct Hks'.
    - intros Hc. destruct (proj2 (PutChunks_group_tables _ _ _ _ _ Hg tn)) as [ks Hks];
        [by right|].
      exists (tn, ks). split; [done|]. by apply elem_of_map_to_list. }
  assert (∀ tn, tn ∈ range (map_to_list keys).*1 →
            ∃ tb rows',
              Bigtable.bt_tables b !! tn = Some tb ∧
              Bigtable.bt_tables b' !! tn =
                Some {| Bigtable.tb_families := Bigtable.tb_families tb;
                        Bigtable.tb_rows := rows' |} ∧
              columnFamily ∈ Bigtable.family_names (Bigtable.tb_families tb) ∧
              ∀ key,
                rows' !! key =
                  match last_write key (table_writes tn chunks) with
                  | Some buf => Some (written_row key buf (Bigtable.tb_rows tb !! key))
                  | None => Bigtable.tb_rows tb !! key
                  end) as Hwritten.
  { intros tn Htn.
    destruct (Hin tn Htn) as (clock & tb & rows' & errs & Htb & Hrows & Herrs & Htb').
    destruct (PutChunks_group_entries _ _ _ _ _ Hg tn) as [_ Hzip]; [done|].
    rewrite lookup_empty in Hzip. simpl in Hzip. rewrite Hzip in Hrows.
    apply apply_entries_chunks_ok in Hrows as [Hfam Hchar]; [|done|].
    - by exists tb, rows'.
    - apply Hnames in Htn as (c & Hc & Hr).
      rewrite Forall_forall in Hacc.
      destruct (table_writes_elem tn chunks c Hc (Hacc _ Hc) Hr) as (buf & _ & Hw).
      intros Hnil. rewrite Hnil in Hw. by apply elem_of_nil in Hw. }
  split_and!; [done| |].
  - intros c table Hc Hr.
    destruct (Hwritten table) as (tb & rows' & Htb & _ & Hfam & _).
    { apply Hnames. by exists c. }
    exists tb. split; [done|]. by apply hasColumnFamily_elem.
  - intros table tb Htb.
    destruct (decide (table ∈ range (map_to_list keys).*1)) as [Htn|Htn].
    + destruct (Hwritten table Htn) as (tb0 & rows' & Htb0 & Htb' & _ & Hchar).
      simplify_eq. eexists. split; [done|]. done.
    + exists tb. rewrite (Hframe _ Htn). split_and!; [done..|].
      intros key. rewrite table_writes_nil; [done|].
      intros c Hc Hr. apply Htn, Hnames. by exists c.
Qed.


Lemma PutChunks_no_fault range b chunks :
  (∀ l, range l ≡ₚ l) → Bigtable.bt_faults b = [] →
  Forall (λ c, PutChunks_rejects c = None) chunks →
  (∀ c table, c ∈ chunks → routed table c → store_has_family b table) →
  ∃ b', PutChunks range b chunks = (b', None) ∧ Bigtable.bt_faults b' = [].
Proof.
  intros Hrange Hf Hacc Hfam. unfold PutChunks.
  destruct (PutChunks_group_total chunks ∅ ∅ Hacc) as (keys & muts & Hg).
  rewrite Hg.
  apply (PutChunks_apply_no_fault keys muts (λ tn, table_writes tn chunks)); [|done|].
  - intros tn. destruct (PutChunks_group_entries _ _ _ _ _ Hg tn) as [Hlen Hzip]; [done|].
    split; [done|]. by rewrite lookup_empty in Hzip.
  - intros tn. rewrite Hrange.
    intros ([t ks] & -> & Hks%elem_of_map_to_list)%list_elem_of_fmap. simpl.
    destruct (proj1 (PutChunks_group_tables _ _ _ _ _ Hg t)) as [Hks'|(c & Hc & Hr)];
      [by eexists| |].
    + rewrite lookup_empty in Hks'. by destruct Hks'.
    + by eapply Hfam.
Qed.

(** X14: when [PutChunks] returns nil, every chunk of the batch encodes and
    has a table, and that table exists and has the chunk family; and on a
    store whose calls go through this is all it takes for [PutChunks] to
    return nil. *)
Theorem PutChunks_succeeds_iff range b chunks :
  (∀ l, range l ≡ₚ l) →
  ((PutChunks range b chunks).2 = None →
   ∀ c, c ∈ chunks →
     PutChunks_rejects c = None ∧ ∃ table, routed table c ∧ store_has_family b table) ∧
  (Bigtable.bt_faults b = [] →
   (∀ c, c ∈ chunks →
      PutChunks_rejects c = None ∧ ∃ table, routed table c ∧ store_has_family b table) →
   (PutChunks range b chunks).2 = None).
Proof.
  intros Hrange. split.
  - destruct (PutChunks range b chunks) as [b' r] eqn:Hput. simpl. intros ->.
    destruct (PutChunks_after _ _ _ _ Hrange Hput) as (Hacc & Hfam & _).
    intros c Hc. rewrite Forall_forall in Hacc. split; [by apply Hacc|].
    specialize (Hacc _ Hc). unfold PutChunks_rejects in Hacc.
    destruct (Encoded c); [|done].
    destruct (ChunkTableFor (From c)) as [tn|] eqn:Htn; [|done].
    exists tn. split; [done|]. by eapply Hfam.
  - intros Hf Hall.
    destruct (PutChunks_no_fault range b chunks Hrange Hf) as (b' & -> & _); [..|done].
    + apply Forall_forall. intros c Hc. by apply Hall.
    + intros c table Hc Hr. destruct (Hall c Hc) as (_ & table' & Hr' & Hfam).
      by rewrite (routed_inj _ _ _ Hr Hr').
Qed.

(** X15: writing a batch again changes nothing.  If [PutChunks] has returned
    nil and the calls of the store still go through, then [PutChunks] of the
    same batch returns nil again, in whatever order the tables are visited,
    and leaves every table as the first call left it. *)
Theorem PutChunks_idempotent range range' b chunks b1 :
  (∀ l, range l ≡ₚ l) → (∀ l, range' l ≡ₚ l) →
  PutChunks range b chunks = (b1, None) →
  Bigtable.bt_faults b1 = [] →
  ∃ b2,
    PutChunks range' b1 chunks = (b2, None) ∧
    Bigtable.bt_tables b2 = Bigtable.bt_tables b1.
Proof.
  intros Hrange Hrange' Hput Hf1.
  destruct (PutChunks_after _ _ _ _ Hrange Hput) as (Hacc & Hfam & Hafter).
  destruct (PutChunks_no_fault range' b1 chunks Hrange' Hf1 Hacc) as (b2 & Hput2 & _).
  { intros c table Hc Hr. destruct (Hfam c table Hc Hr) as (tb & Htb & Hhas).
    destruct (Hafter _ _ Htb) as (tb' & Htb' & Hfams & _).
    exists tb'. split; [done|]. by rewrite Hfams. }
  exists b2. split; [done|].
  destruct (PutChunks_after _ _ _ _ Hrange' Hput2) as (_ & _ & Hafter2).
  pose proof (PutChunks_kept range b chunks) as Hkept. rewrite Hput in Hkept.
  pose proof (PutChunks_kept range' b1 chunks) as Hkept2. rewrite Hput2 in Hkept2.
  simpl in *. apply map_eq. intros table.
  specialize (Hkept table). specialize (Hkept2 table).
  destruct (Bigtable.bt_tables b !! table) as [tb|] eqn:Htb.
  - destruct (Hafter _ _ Htb) as (tb1 & Htb1 & Hfams1 & Hrows1).
    destruct (Hafter2 _ _ Htb1) as (tb2 & Htb2 & Hfams2 & Hrows2).
    rewrite Htb1, Htb2. f_equal.
    destruct tb1 as [fams1 rows1], tb2 as [fams2 rows2]. simpl in *. f_equal.
    + congruence.
    + apply map_eq. intros key. rewrite Hrows2, Hrows1.
      destruct (last_write key (table_writes table chunks)) as [buf|]; [|done].
      by rewrite written_row_absorb.
  - rewrite Hkept in Hkept2. by rewrite Hkept, Hkept2.
Qed.

End write_more.

(** ** More on the read path *)

Section read_more.
Context `{Package}.

(** *** Calls that return before the gathering loop *)

Lemma GetChunks_group_rejects pre c post err : ∀ cms keys,
  Forall (λ c, ∃ table, routed table c) pre →
  ChunkTableFor (From c) = inr err →
  GetChunks_group (pre ++ c :: post) cms keys = inr err.
Proof.
  induction pre as [|c' pre IH]; intros cms keys Hpre Hc; simpl.
  - by rewrite Hc.
  - apply Forall_cons in Hpre as [[tn Hc'] Hpre]. unfold routed in Hc'.
    rewrite Hc'. by apply IH.
Qed.

(** With no goroutine started and the call returned, nothing moves but the
    caller's context. *)
Lemma step_idle b r s ev s' :
  st_result s = Some r ∧ st_bt s = b ∧ st_tasks s = [] →
  step s ev = Some s' →
  st_result s' = Some r ∧ st_bt s' = b ∧ st_tasks s' = [].
Proof.
  intros (Hr & Hb & Ht) [_ Hc]%step_case_of.
  destruct Hc as [g table cm page b' rows err Hg Hread|g c todo Hg Hcap
                 |g e todo Hg Hcap|g todo Hg|e Hctx|c outs' Hr' Ho|e errs' Hr' He
                 |e Hr' Hctx]; simpl; try done; try congruence;
    by rewrite Ht in Hg.
Qed.

(** X16: a chunk without a table makes [GetChunks] return the error of the
    schema (that of the first such chunk) before it starts any goroutine: the
    call returns whatever the scheduler does and whether or not the context
    has ended, and the store is never called. *)
Theorem GetChunks_routing_error_first b ctx pre c post err :
  Forall (λ c, ∃ table, routed table c) pre →
  ChunkTableFor (From c) = inr err →
  is_Some (GetChunks b ctx (pre ++ c :: post) []) ∧
  ∀ sched s,
    GetChunks b ctx (pre ++ c :: post) sched = Some s →
    st_result s = Some (inr err) ∧ st_bt s = b ∧ st_tasks s = [].
Proof.
  intros Hpre Hc. unfold GetChunks, GetChunks_start.
  rewrite (GetChunks_group_rejects _ _ _ err) by done. split; [done|].
  intros sched s Hrun.
  eapply (run_invariant _ (step_idle b (inr err))); [|exact Hrun]. done.
Qed.

(** X17: on an empty input [GetChunks] returns the empty slice at once: it
    starts no goroutine, does not call the store, and does not look at the
    context, which may have ended already. *)
Theorem GetChunks_empty_input b ctx :
  is_Some (GetChunks b ctx [] []) ∧
  ∀ sched s,
    GetChunks b ctx [] sched = Some s →
    st_result s = Some (inl []) ∧ st_bt s = b ∧ st_tasks s = [].
Proof.
  unfold GetChunks, GetChunks_start. simpl. rewrite map_to_list_empty. simpl.
  split; [done|]. intros sched s Hrun.
  eapply (run_invariant _ (step_idle b (inl []))); [|exact Hrun]. done.
Qed.

(** *** The pages *)

Lemma page_take i (keys : list string) :
  (i < length keys)%nat →
  take (Nat.min (i + maxRowReads) (length keys) - i) (drop i keys)
  = take maxRowReads (drop i keys).
Proof.
  intros Hi. destruct (decide (i + maxRowReads ≤ length keys)%nat).
  - rewrite Nat.min_l by done. f_equal. lia.
  - rewrite Nat.min_r by lia. rewrite !take_ge; [done|..]; rewrite length_drop; lia.
Qed.

Lemma pages_from_lookup fuel : ∀ i keys ps,
  pages_from fuel i keys = Some ps →
  (∀ j p, ps !! j = Some p →
     p = take maxRowReads (drop (i + j * maxRowReads) keys)) ∧
  (length keys ≤ i + length ps * maxRowReads)%nat ∧
  (ps ≠ [] → i + (length ps - 1) * maxRowReads < length keys)%nat.
Proof.
  induction fuel as [|fuel IH]; intros i keys ps; simpl.
  - case_decide; [done|]. intros [= <-]. split_and!; [done|simpl; lia|done].
  - case_decide as Hi.
    + destruct (pages_from fuel (i + maxRowReads) keys) as [ps'|] eqn:Hps; [|done].
      simpl. intros [= <-]. apply IH in Hps as (Hlook & Hle & Hlt). split_and!.
      * intros [|j] p; simpl.
        -- intros [= <-]. rewrite Nat.add_0_r. by apply page_take.
        -- intros Hp%Hlook. rewrite Hp. do 2 f_equal. lia.
      * simpl. lia.
      * intros _. simpl. rewrite Nat.sub_0_r.
        destruct ps' as [|p' ps']; [simpl; lia|].
        specialize (Hlt ltac:(done)). simpl in *. lia.
    + intros [= <-]. split_and!; [done|simpl; lia|done].
Qed.

(** X18: the pages that [GetChunks] reads a key list in.  With a positive
    [maxRowReads] the loop ends; page number j is the segment of at most
    [maxRowReads] keys that starts at position j * maxRowReads, no page is
    empty, the pages in order make up the key list, and there are
    ceil(len(keys) / maxRowReads) of them.  With [maxRowReads] zero the loop
    does not end unless there is no key. *)
Theorem pages_of_key_list keys :
  ((0 < maxRowReads)%nat →
   ∃ ps,
     pages keys = Some ps ∧
     length ps = Nat.div (length keys + maxRowReads - 1) maxRowReads ∧
     mjoin ps = keys ∧
     ∀ j p, ps !! j = Some p →
       p = take maxRowReads (drop (j * maxRowReads) keys) ∧ p ≠ []) ∧
  (maxRowReads = 0%nat → keys ≠ [] → pages keys = None).
Proof.
  split.
  - intros Hm. destruct (pages_total keys Hm) as [ps Hps]. exists ps.
    pose proof (pages_Some _ _ Hps) as [Hjoin Hall].
    pose proof (pages_from_lookup (length keys) 0 keys ps Hps) as (Hlook & Hle & Hlt).
    split_and!; [done| |done|].
    + apply (Nat.div_unique _ _ _
               (length keys + maxRowReads - 1 - maxRowReads * length ps)).
      * destruct ps as [|p ps]; simpl in *; [lia|]. specialize (Hlt ltac:(done)). nia.
      * destruct ps as [|p ps]; simpl in *; [lia|]. specialize (Hlt ltac:(done)). nia.
    + intros j p Hp. split; [by apply Hlook|].
      rewrite Forall_lookup in Hall. by destruct (Hall _ _ Hp).
  - intros Hm Hne. apply pages_from_stuck; [done|]. destruct keys; [done|simpl; lia].
Qed.

(** *** What the call does to the store *)

Lemma rpc_faults b :
  Bigtable.bt_faults (Bigtable.rpc b).1 = drop 1 (Bigtable.bt_faults b).
Proof.
  unfold Bigtable.rpc. destruct (Bigtable.bt_faults b) eqn:Hf; simpl; [|done].
  by rewrite Hf.
Qed.

Lemma ReadRows_store b table page :
  Bigtable.bt_tables (Bigtable.ReadRows b table page).1.1 = Bigtable.bt_tables b ∧
  Bigtable.bt_clock (Bigtable.ReadRows b table page).1.1 = Bigtable.bt_clock b ∧
  Bigtable.bt_faults (Bigtable.ReadRows b table page).1.1
    = drop 1 (Bigtable.bt_faults b).
Proof.
  unfold Bigtable.ReadRows.
  pose proof (rpc_tables b). pose proof (rpc_clock b). pose proof (rpc_faults b).
  destruct (Bigtable.rpc b) as [b1 [e|]]; [done|].
  by destruct (Bigtable.bt_tables b1 !! table).
Qed.

Lemma step_only_read b s ev s' :
  only_read b s → step s ev = Some s' → only_read b s'.
Proof.
  intros (Ht & Hc & Hf) [_ Hcase]%step_case_of. unfold only_read.
  destruct Hcase as [g table cm page b' rows err Hg Hread|g c todo Hg Hcap
                    |g e todo Hg Hcap|g todo Hg|e Hctx|c outs' Hr' Ho|e errs' Hr' He
                    |e Hr' Hctx]; simpl; try done.
  - destruct (ReadRows_store (st_bt s) table page) as (Ht' & Hc' & Hf').
    rewrite Hread in Ht', Hc', Hf'. simpl in *.
    pose proof (sum_list_with_insert reads_made _ _ _
                  (Running (page_actions cm page rows err)) Hg) as Hsum.
    simpl in Hsum. split_and!; [congruence..|].
    rewrite Hf', Hf, drop_drop. f_equal. lia.
  - pose proof (sum_list_with_insert reads_made _ _ _ (Running todo) Hg) as Hsum.
    simpl in Hsum. split_and!; [done..|]. rewrite Hf. f_equal. lia.
  - pose proof (sum_list_with_insert reads_made _ _ _ (Running todo) Hg) as Hsum.
    simpl in Hsum. split_and!; [done..|]. rewrite Hf. f_equal. lia.
  - pose proof (sum_list_with_insert reads_made _ _ _ (Running todo) Hg) as Hsum.
    simpl in Hsum. split_and!; [done..|]. rewrite Hf. f_equal. lia.
Qed.

(** The goroutines at the start: none has run, each has a page to read. *)
Lemma start_spawned b ctx input s0 :
  GetChunks_start b ctx input = Some s0 →
  Forall (λ t, ∃ table cm page, t = Spawned table cm page ∧ page ≠ []) (st_tasks s0).
Proof.
  unfold GetChunks_start.
  destruct (GetChunks_group input ∅ ∅) as [[cms keys]|err].
  - destruct (spawn_all cms (map_to_list keys)) as [ts|] eqn:Hs; [|done].
    intros [= <-]. simpl. destruct (spawn_all_tasks _ _ _ Hs) as (_ & Hall & _).
    eapply Forall_impl; [done|]. simpl.
    intros t (tn & ks & page & l1 & l2 & _ & _ & Hne & ->). eauto.
  - intros [= <-]. simpl. done.
Qed.

Lemma start_only_read b ctx input s0 :
  GetChunks_start b ctx input = Some s0 → only_read b s0.
Proof.
  intros Hs. pose proof (start_spawned _ _ _ _ Hs) as Hall.
  apply GetChunks_start_budget in Hs as (_ & _ & _ & _ & _ & _ & _ & _ & Hb & _).
  unfold only_read. rewrite Hb.
  assert (sum_list_with reads_made (st_tasks s0) = 0%nat) as ->; [|done].
  induction Hall as [|t ts (tn & cm & page & -> & _) _ IH]; [done|]. simpl. lia.
Qed.

(** X19: [GetChunks] only reads.  In every state that a schedule reaches,
    the tables of the store and its clock are what they were, and the calls
    made to the store are one per page goroutine that has run, no more and no
    fewer: the transport outcomes still pending are the initial ones less the
    first so many. *)
Theorem GetChunks_only_reads b ctx input sched s :
  GetChunks b ctx input sched = Some s →
  Bigtable.bt_tables (st_bt s) = Bigtable.bt_tables b ∧
  Bigtable.bt_clock (st_bt s) = Bigtable.bt_clock b ∧
  Bigtable.bt_faults (st_bt s)
    = drop (sum_list_with reads_made (st_tasks s)) (Bigtable.bt_faults b) ∧
  (sum_list_with reads_made (st_tasks s) ≤ length (st_tasks s))%nat ∧
  (length (st_tasks s) ≤ length input)%nat.
Proof.
  unfold GetChunks. destruct (GetChunks_start b ctx input) as [s0|] eqn:Hs; [|done].
  intros Hrun.
  pose proof (run_invariant _ (step_only_read b) _ _ _ (start_only_read _ _ _ _ Hs) Hrun)
    as (? & ? & ?).
  split_and!; [done..| |].
  - clear. induction (st_tasks s) as [|[|] ts IH]; simpl; lia.
  - apply run_budget in Hrun as (_ & _ & _ & -> & _).
    by apply GetChunks_start_budget in Hs as (_ & _ & _ & _ & _ & _ & _ & _ & _ & _ & _ & ?).
Qed.

(** *** A slice is returned only when nothing failed *)








(** *** The call returns unless a goroutine panics *)

Lemma callbacks_no_panic cm rows :
  Forall (λ row, default [] (row !! columnFamily) ≠ []) rows →
  (callbacks cm rows).2 ≠ CbPanic.
Proof.
  induction 1 as [|row rows Hrow _ IH]; simpl; [done|].
  destruct (cm !! Bigtable.Row_Key row) as [chunk|]; [|done].
  destruct (default [] (row !! columnFamily)) as [|item cells]; [done|]. simpl.
  destruct (Decode chunk (Bigtable.ri_Value item)) as [d|]; [|done].
  by destruct (callbacks cm rows) as [sent e].
Qed.

Lemma start_calm b ctx input s0 :
  cells_present b input → GetChunks_start b ctx input = Some s0 →
  calm (Bigtable.bt_tables b) s0.
Proof.
  intros Hcells Hs.
  pose proof (GetChunks_start_budget _ _ _ _ Hs)
    as (_ & _ & _ & _ & _ & _ & Hp & _ & Hb & _).
  unfold calm. rewrite Hb. split_and!; [done..|].
  destruct (GetChunks_group input ∅ ∅) as [[cms keys]|err] eqn:Hg.
  - pose proof (start_tasks _ _ _ _ _ _ Hs Hg) as Htasks.
    eapply Forall_impl; [done|]. simpl.
    intros t (tn & page & -> & _ & _ & Hkeys). simpl.
    apply callbacks_no_panic. unfold read_rows.
    destruct (Bigtable.bt_tables b !! tn) as [tb|] eqn:Htb; [|done].
    apply Forall_forall. intros row (key & Hkey & Hrow)%deliver_rows.
    destruct (Hkeys key Hkey) as [(c & Hc & Hr & <-) _]. by eapply Hcells.
  - unfold GetChunks_start in Hs. rewrite Hg in Hs. injection Hs as <-. simpl.
    constructor.
Qed.

(** X21: [GetChunks] can always return.  With a positive [maxRowReads] and a
    store in which every row under a requested key has a cell in the chunk
    family (so that no callback indexes an empty cell list), some schedule
    makes the call return, without the context being touched; this holds
    whatever transport faults are pending, whether or not the tables exist
    and whether or not the stored bytes decode. *)
Theorem GetChunks_can_return b ctx input :
  (0 < maxRowReads)%nat → cells_present b input →
  ∃ sched s r,
    GetChunks b ctx input sched = Some s ∧ st_result s = Some r ∧ st_ctx s = ctx.
Proof.
  intros Hm Hcells. destruct (GetChunks_start_total b ctx input Hm) as [s0 Hs].
  pose proof (GetChunks_start_invariants _ _ _ _ Hs) as (Hroom & Hsup & Hgat).
  pose proof (start_calm _ _ _ _ Hcells Hs) as Hcalm.
  destruct (returns_under_some_schedule _ _ Hroom Hsup Hgat Hcalm)
    as (sched & s & r & Hrun & Hr & Hctx).
  exists sched, s, r. unfold GetChunks. rewrite Hs. split_and!; [done..|].
  rewrite Hctx.
  by apply GetChunks_start_budget in Hs as (_ & _ & _ & _ & _ & _ & _ & ? & _).
Qed.

End read_more.

(** ** The chunk comparison *)

Section chunk_comparison.

#[local] Existing Instance byte_eq_dec.


End chunk_comparison.

Section write_compose.
Context `{Package}.

(** *** The calls that [PutChunks] makes *)

Lemma ApplyBulk_faults b tn ks ms :
  length ks = length ms →
  Bigtable.bt_faults (Bigtable.ApplyBulk b tn ks ms).1.1
  = drop 1 (Bigtable.bt_faults b) ∧
  Bigtable.bt_clock (Bigtable.ApplyBulk b tn ks ms).1.1 = Bigtable.bt_clock b.
Proof.
  intros Hlen. unfold Bigtable.ApplyBulk.
  rewrite decide_False by (intros Hn; by apply Hn).
  pose proof (rpc_faults b). pose proof (rpc_clock b).
  destruct (Bigtable.rpc b) as [b1 [e|]]; [done|].
  destruct (Bigtable.bt_tables b1 !! tn) as [tb|]; [|done].
  by destruct (Bigtable.apply_entries _ _ _ _).
Qed.

Lemma PutChunks_apply_faults keys muts names :
  (∀ tn, length (default [] (keys !! tn)) = length (default [] (muts !! tn))) →
  ∀ b b',
    PutChunks_apply b names keys muts = (b', None) →
    Bigtable.bt_faults b' = drop (length names) (Bigtable.bt_faults b) ∧
    Bigtable.bt_clock b' = Bigtable.bt_clock b.
Proof.
  intros Hlen. induction names as [|tn names IH]; intros b b'; simpl.
  { by intros [= <-]. }
  destruct (ApplyBulk_faults b tn _ _ (Hlen tn)) as [Hf Hc].
  destruct (Bigtable.ApplyBulk b tn _ _) as [[b1 errs] [e|]]; [done|].
  destruct (first_error errs); [done|]. simpl in *.
  intros [-> ->]%IH. rewrite Hf, Hc, drop_drop. done.
Qed.

(** X23: one call per table.  A [PutChunks] that returns nil has made
    exactly one call to the store (an [ApplyBulk]) for each table to which a
    chunk of the batch is routed, and no other: the transport outcomes still
    pending are the initial ones less as many as there are such tables. *)
Theorem PutChunks_one_call_per_table range b chunks b' :
  (∀ l, range l ≡ₚ l) →
  PutChunks range b chunks = (b', None) →
  ∃ tables,
    NoDup tables ∧
    (∀ tn, tn ∈ tables ↔ ∃ c, c ∈ chunks ∧ routed tn c) ∧
    Bigtable.bt_faults b' = drop (length tables) (Bigtable.bt_faults b) ∧
    Bigtable.bt_clock b' = Bigtable.bt_clock b.
Proof.
  intros Hrange. unfold PutChunks.
  destruct (PutChunks_group chunks ∅ ∅) as [[keys muts]|err] eqn:Hg; [|done].
  intros Happly. exists (range (map_to_list keys).*1). split_and!.
  - rewrite Hrange. apply NoDup_fst_map_to_list.
  - intros tn. rewrite Hrange, list_elem_of_fmap. split.
    + intros ([t ks] & -> & Hks%elem_of_map_to_list). simpl.
      destruct (proj1 (PutChunks_group_tables _ _ _ _ _ Hg t)) as [Hks'|?];
        [by eexists| |done].
      rewrite lookup_empty in Hks'. by destruct Hks'.
    + intros Hc. destruct (proj2 (PutChunks_group_tables _ _ _ _ _ Hg tn)) as [ks Hks];
        [by right|].
      exists (tn, ks). split; [done|]. by apply elem_of_map_to_list.
  - eapply PutChunks_apply_faults; [|done].
    intros tn. by destruct (PutChunks_group_entries _ _ _ _ _ Hg tn).
  - eapply PutChunks_apply_faults; [|done].
    intros tn. by destruct (PutChunks_group_entries _ _ _ _ _ Hg tn).
Qed.

(** *** The table client and the object client together *)

(** X24: after [CreateTable] of a table, on a store whose calls go through,
    [PutChunks] of a batch of chunks that encode and are routed to that table
    returns nil. *)
Theorem CreateTable_then_PutChunks range b desc chunks :
  (∀ l, range l ≡ₚ l) → Bigtable.bt_faults b = [] →
  (∀ c, c ∈ chunks → PutChunks_rejects c = None ∧ routed (td_Name desc) c) →
  (PutChunks range (CreateTable b desc).1 chunks).2 = None.
Proof.
  intros Hrange Hf Hall.
  destruct (CreateTable_no_fault b desc Hf) as (b' & -> & Hf' & Hfam & _). simpl.
  destruct (PutChunks_no_fault range b' chunks Hrange Hf') as (b2 & -> & _); [..|done].
  - apply Forall_forall. intros c Hc. by apply Hall.
  - intros c table Hc Hr. destruct (Hall c Hc) as [_ Hr'].
    by rewrite (routed_inj _ _ _ Hr Hr').
Qed.

(** X25: once [DeleteTable] has returned nil for a table, [PutChunks] of a
    batch with a chunk routed to that table returns an error. *)
Theorem DeleteTable_then_PutChunks_fails range c0 b name b1 c1 chunks c :
  (∀ l, range l ≡ₚ l) →
  DeleteTable c0 b name = (b1, c1, None) →
  c ∈ chunks → routed name c →
  is_Some (PutChunks range b1 chunks).2.
Proof.
  intros Hrange (_ & Hb1 & _)%DeleteTable_Some Hc Hr.
  destruct (PutChunks range b1 chunks) as [b2 [e|]] eqn:Hput; [by eexists|].
  destruct (PutChunks_after _ _ _ _ Hrange Hput) as (_ & Hfam & _).
  destruct (Hfam c name Hc Hr) as (tb & Htb & _).
  rewrite Hb1 in Htb. by rewrite lookup_delete_eq in Htb.
Qed.

End write_compose.

Section read_errors.
Context `{Package}.

(** *** The errors that [GetChunks] returns *)

Lemma GetChunks_group_error input : ∀ cms keys err,
  GetChunks_group input cms keys = inr err →
  ∃ c, c ∈ input ∧ ChunkTableFor (From c) = inr err.
Proof.
  induction input as [|c input IH]; intros cms keys err; simpl; [done|].
  destruct (ChunkTableFor (From c)) as [tn|e] eqn:Htn.
  - intros (c' & ? & ?)%IH. exists c'. split; [by apply list_elem_of_further|done].
  - intros [= <-]. exists c. split; [apply list_elem_of_here|done].
Qed.

Lemma callbacks_error cm rows pe :
  (callbacks cm rows).2 = CbStop pe →
  (∃ key, pe = ErrWithStack (ErrUnknownChunk key)) ∨
  (∃ key c buf, cm !! key = Some c ∧ Decode c buf = inr pe).
Proof.
  induction rows as [|row rows IH]; simpl; [done|].
  destruct (cm !! Bigtable.Row_Key row) as [chunk|] eqn:Hcm; simpl.
  2:{ intros [= <-]. left. eauto. }
  destruct (default [] (row !! columnFamily) !! 0%nat) as [item|]; simpl; [|done].
  destruct (Decode chunk (Bigtable.ri_Value item)) as [d|e] eqn:Hd; simpl.
  - destruct (callbacks cm rows) as [sent e']. simpl in *. done.
  - intros [= <-]. right. eauto.
Qed.

Lemma ReadRows_error b table page b' rows answer :
  Bigtable.ReadRows b table page = (b', rows, Some answer) →
  Some answer ∈ Bigtable.bt_faults b ∨ answer = Bigtable.notFound table.
Proof.
  unfold Bigtable.ReadRows, Bigtable.rpc.
  destruct (Bigtable.bt_faults b) as [|[e|] fs] eqn:Hf; simpl.
  - destruct (Bigtable.bt_tables b !! table); [done|]. intros [= <- <- <-]. by right.
  - intros [= <- <- <-]. left. apply list_elem_of_here.
  - destruct (Bigtable.bt_tables b !! table); [done|]. intros [= <- <- <-]. by right.
Qed.

Lemma page_actions_reported input faults b table cm page b' rows err :
  Bigtable.ReadRows b table page = (b', rows, err) →
  Bigtable.bt_faults b ⊆ faults →
  (∀ key c, cm !! key = Some c → c ∈ input) →
  Forall (page_error input faults) (errs_of (page_actions cm page rows err)).
Proof.
  intros Hread Hsub Hcm. unfold page_actions.
  pose proof (callbacks_error cm rows) as Hcb.
  destruct (callbacks cm rows) as [sent e]. simpl in Hcb. rewrite errs_of_sends.
  destruct e as [|pe|]; [|simpl|simpl; done].
  - destruct err as [answer|].
    + simpl. constructor; [|done]. right; right; left. exists answer. split; [done|].
      apply ReadRows_error in Hread as [Hin|Hnf]; [left; by apply Hsub|right; eauto].
    + case_decide; [|done]. simpl. constructor; [|done]. do 3 right.
      by exists (length page), (length sent).
  - constructor; [|done].
    destruct (Hcb pe eq_refl) as [?|(key & c & buf & Hc & Hd)]; [by left|].
    right; left. exists c, buf. split; [by eapply Hcm|done].
Qed.

Lemma step_reported input faults s ev s' :
  reported input faults s → step s ev = Some s' → reported input faults s'.
Proof.
  unfold reported. intros (Hf & Htasks & Herrs & Hres) [_ Hcase]%step_case_of.
  destruct Hcase as [g table cm page b' rows err Hg Hread|g c todo Hg Hcap
                    |g e todo Hg Hcap|g todo Hg|e Hctx|c outs' Hr' Ho|e errs' Hr' He
                    |e Hr' Hctx]; simpl.
  - pose proof (proj1 (Forall_lookup _ _) Htasks _ _ Hg) as Hcm. simpl in Hcm.
    split_and!; [| |done..].
    + destruct (ReadRows_store (st_bt s) table page) as (_ & _ & Hf').
      rewrite Hread in Hf'. simpl in Hf'. rewrite Hf'.
      etrans; [apply subseteq_drop|done].
    + apply Forall_insert; [done|]. simpl. by eapply page_actions_reported.
  - pose proof (proj1 (Forall_lookup _ _) Htasks _ _ Hg) as Ht. simpl in Ht.
    split_and!; [done| |done..]. by apply Forall_insert.
  - pose proof (proj1 (Forall_lookup _ _) Htasks _ _ Hg) as Ht. simpl in Ht.
    apply Forall_cons in Ht as [He Ht].
    split_and!; [done| | |done].
    + by apply Forall_insert.
    + apply Forall_app. split; [done|]. by constructor.
  - pose proof (proj1 (Forall_lookup _ _) Htasks _ _ Hg) as Ht. simpl in Ht.
    split_and!; [done| |done..]. by apply Forall_insert.
  - split_and!; [done..|]. intros e' Hr. destruct (Hres e' Hr) as [?|[Hc|?]]; auto.
    congruence.
  - split_and!; [done..|]. intros e'. by case_decide.
  - rewrite He in Herrs. apply Forall_cons in Herrs as [He' Herrs].
    split_and!; [done..|]. intros e' [= <-]. auto.
  - split_and!; [done..|]. intros e' [= <-]. auto.
Qed.

Lemma start_reported b ctx input s0 :
  GetChunks_start b ctx input = Some s0 → reported input (Bigtable.bt_faults b) s0.
Proof.
  intros Hs.
  pose proof (GetChunks_start_budget _ _ _ _ Hs)
    as (_ & _ & _ & _ & He & _ & _ & _ & Hb & _).
  unfold reported. rewrite Hb, He.
  destruct (GetChunks_group input ∅ ∅) as [[cms keys]|err] eqn:Hg.
  - pose proof (start_tasks _ _ _ _ _ _ Hs Hg) as Htasks.
    destruct (GetChunks_start_Some _ _ _ _ Hs)
      as [(err & ? & _)|(cms' & keys' & _ & _ & _ & Hres)]; [congruence|].
    split_and!; [done| |done|].
    + eapply Forall_impl; [done|]. simpl.
      intros t (tn & page & -> & _ & _ & _). simpl. intros key c Hc.
      destruct (GetChunks_group_inv _ _ _ _ _ Hg tn) as (_ & Hold & _).
      destruct (Hold key c Hc) as [Hc'|(? & _)]; [|done].
      rewrite lookup_empty in Hc'. simpl in Hc'. by rewrite lookup_empty in Hc'.
    + rewrite Hres. intros e. by case_decide.
  - unfold GetChunks_start in Hs. rewrite Hg in Hs. injection Hs as <-. simpl.
    split_and!; [done..|]. intros e [= <-]. left. by eapply GetChunks_group_error.
Qed.

(** X26: the errors of [GetChunks].  Whatever error the call returns is the
    error of the schema for a requested chunk, the error of the context, or
    what a page goroutine reports: a row under a key that was not asked for
    (with a stack), the error of the codec on a requested chunk (as it is),
    the answer of the store to a read (with a stack), be it a pending
    transport error or that the table does not exist, or the count of rows
    falling short of the count of keys (with a stack). *)
Theorem GetChunks_error_kinds b ctx input sched s e :
  GetChunks b ctx input sched = Some s →
  st_result s = Some (inr e) →
  (∃ c, c ∈ input ∧ ChunkTableFor (From c) = inr e) ∨
  st_ctx s = Some e ∨
  (∃ key, e = ErrWithStack (ErrUnknownChunk key)) ∨
  (∃ c buf, c ∈ input ∧ Decode c buf = inr e) ∨
  (∃ answer, e = ErrWithStack answer ∧
             (Some answer ∈ Bigtable.bt_faults b ∨
              ∃ table, answer = Bigtable.notFound table)) ∨
  (∃ asked received,
     e = ErrWithStack (ErrAsked asked received) ∧ (received < asked)%nat).
Proof.
  unfold GetChunks. destruct (GetChunks_start b ctx input) as [s0|] eqn:Hs; [|done].
  intros Hrun Hr.
  pose proof (run_invariant _ (step_reported input (Bigtable.bt_faults b)) _ _ _
                (start_reported _ _ _ _ Hs) Hrun) as (_ & _ & _ & Hres).
  destruct (Hres e Hr) as [?|[?|Hp]]; [auto..|].
  right; right. exact Hp.
Qed.

(** *** Reading what the store holds *)

Lemma GetChunks_held b ctx input :
  Bigtable.bt_faults b = [] → (∀ c, c ∈ input → holds b c) →
  NoDup (ExternalKey <$> input) →
  (∀ c buf, c ∈ input → Encoded c = inl buf → Decode c buf = inl c) →
  (∀ sched s r,
     GetChunks b ctx input sched = Some s → st_result s = Some r →
     (∃ out, r = inl out ∧ out ≡ₚ input) ∨
     (∃ e, r = inr e ∧ st_ctx s = Some e)) ∧
  (ctx = None → (0 < maxRowReads)%nat →
   ∃ sched s out,
     GetChunks b ctx input sched = Some s ∧ st_result s = Some (inl out) ∧
     out ≡ₚ input).
Proof.
  intros Hf Hholds Hnd Hcodec.
  assert (∀ sched s r,
            GetChunks b ctx input sched = Some s → st_result s = Some r →
            (∃ out, r = inl out ∧ out ≡ₚ input) ∨
            (∃ e, r = inr e ∧ st_ctx s = Some e)) as Hall.
  { intros sched s r. unfold GetChunks.
    destruct (GetChunks_start b ctx input) as [s0|] eqn:Hs; [|done].
    intros Hrun Hr.
    pose proof (start_conserved _ _ _ _ Hf Hholds Hnd Hcodec Hs) as Hcons.
    pose proof (GetChunks_start_invariants _ _ _ _ Hs) as (_ & _ & Hgat).
    pose proof (run_invariant gathered step_gathered _ _ _ Hgat Hrun) as Hgat'.
    pose proof (run_invariant _ (step_conserved _ _) _ _ _ Hcons Hrun)
      as (_ & _ & _ & _ & _ & Hperm & Hres).
    destruct r as [out|e]; [left|right; eauto].
    exists out. split; [done|].
    unfold gathered in Hgat'. rewrite Hr in Hgat'. destruct Hgat' as [-> Hlen].
    apply (run_budget _ _ _) in Hrun as (_ & _ & Hlen' & _).
    apply GetChunks_start_budget in Hs as (Hlen0 & _).
    pose proof (Permutation_length Hperm) as Hl. rewrite !length_app in Hl.
    assert (st_outs s ++ mjoin (promised (Bigtable.bt_tables b) <$> st_tasks s) = [])
      as Hnil by (apply length_zero_iff_nil; rewrite length_app; lia).
    rewrite Hnil, app_nil_r in Hperm. done. }
  split; [done|]. intros -> Hm.
  destruct (GetChunks_start_total b None input Hm) as [s0 Hs].
  pose proof (GetChunks_start_invariants _ _ _ _ Hs) as (Hroom & Hsup & Hgat).
  pose proof (conserved_calm _ _ _ (start_conserved _ _ _ _ Hf Hholds Hnd Hcodec Hs))
    as Hcalm.
  destruct (returns_under_some_schedule _ _ Hroom Hsup Hgat Hcalm)
    as (sched & s & r & Hrun & Hr & Hctx).
  assert (GetChunks b None input sched = Some s) as Hget.
  { unfold GetChunks. by rewrite Hs. }
  destruct (Hall sched s r Hget Hr) as [(out & -> & Hperm)|(e & -> & Hctx')].
  - by exists sched, s, out.
  - rewrite Hctx in Hctx'.
    apply GetChunks_start_budget in Hs as (_ & _ & _ & _ & _ & _ & _ & Hctx0 & _).
    congruence.
Qed.

(** X27: [GetChunks] returns what was asked for, not what is stored.  On a
    store without pending faults that holds, for each requested chunk, the
    one cell with its encoding (whatever other rows and tables it holds), and
    for requests with pairwise distinct keys that the codec decodes into
    themselves: whatever [GetChunks] returns is a permutation of the request,
    or the error of the context when that has ended; and with a live context
    and a positive page size some schedule returns such a permutation. *)
Theorem GetChunks_returns_the_request b ctx input :
  Bigtable.bt_faults b = [] → (∀ c, c ∈ input → holds b c) →
  NoDup (ExternalKey <$> input) →
  (∀ c buf, c ∈ input → Encoded c = inl buf → Decode c buf = inl c) →
  (∀ sched s r,
     GetChunks b ctx input sched = Some s → st_result s = Some r →
     (∃ out, r = inl out ∧ out ≡ₚ input) ∨
     (∃ e, r = inr e ∧ st_ctx s = Some e)) ∧
  (ctx = None → (0 < maxRowReads)%nat →
   ∃ sched s out,
     GetChunks b ctx input sched = Some s ∧ st_result s = Some (inl out) ∧
     out ≡ₚ input).
Proof. apply GetChunks_held. Qed.

(** *** From an empty table to the chunks read back *)

(** X28: create, write, read.  On a store without rows whose calls go
    through, [CreateTable] of a table, then [PutChunks] of a batch of chunks
    that encode, are routed to that table and have pairwise distinct keys,
    then [GetChunks] of a part of the batch (or of all of it): both calls
    return nil, and whatever [GetChunks] returns is a permutation of the part
    asked for, or the error of the context when that has ended; with a live
    context and a positive page size some schedule returns such a
    permutation.  The codec is assumed to decode a chunk's encoding into the
    chunk. *)
Theorem create_write_read range b desc chunks input ctx :
  (∀ l, range l ≡ₚ l) → blank b → Bigtable.bt_faults b = [] →
  (∀ c, c ∈ chunks → PutChunks_rejects c = None ∧ routed (td_Name desc) c) →
  NoDup (ExternalKey <$> chunks) →
  (∀ c buf, c ∈ chunks → Encoded c = inl buf → Decode c buf = inl c) →
  input `sublist_of` chunks →
  ∃ b1 b2,
    CreateTable b desc = (b1, None) ∧
    PutChunks range b1 chunks = (b2, None) ∧
    (∀ sched s r,
       GetChunks b2 ctx input sched = Some s → st_result s = Some r →
       (∃ out, r = inl out ∧ out ≡ₚ input) ∨
       (∃ e, r = inr e ∧ st_ctx s = Some e)) ∧
    (ctx = None → (0 < maxRowReads)%nat →
     ∃ sched s out,
       GetChunks b2 ctx input sched = Some s ∧ st_result s = Some (inl out) ∧
       out ≡ₚ input).
Proof.
  intros Hrange Hblank Hf Hall Hnd Hcodec Hsub.
  destruct (CreateTable_no_fault b desc Hf)
    as (b1 & Hcreate & Hf1 & Hfam & Hother & Hold & Hnew).
  assert (blank b1) as Hblank1.
  { intros table tb Htb. destruct (decide (table = td_Name desc)) as [->|Hne].
    - destruct (Bigtable.bt_tables b !! td_Name desc) as [tb0|] eqn:Htb0.
      + destruct (Hold _ eq_refl) as (tb' & Htb' & Hrows & _).
        assert (tb' = tb) as -> by congruence. rewrite Hrows. by eapply Hblank.
      + rewrite Hnew in Htb by done. by simplify_eq.
    - rewrite Hother in Htb by done. by eapply Hblank. }
  destruct (PutChunks_no_fault range b1 chunks Hrange Hf1) as (b2 & Hput & Hf2).
  { apply Forall_forall. intros c Hc. by apply Hall. }
  { intros c table Hc Hr. destruct (Hall c Hc) as [_ Hr'].
    by rewrite (routed_inj _ _ _ Hr Hr'). }
  exists b1, b2. split; [done|]. split; [done|].
  pose proof (PutChunks_holds _ _ _ _ Hrange Hblank1 Hnd Hput) as Hholds.
  apply GetChunks_held; [done| | |].
  - intros c Hc. apply Hholds. by eapply elem_of_sublist.
  - eapply sublist_NoDup; [done|]. by apply fmap_sublist.
  - intros c buf Hc. apply Hcodec. by eapply elem_of_sublist.
Qed.

End read_errors.

(** ** Where the errors come from *)

Section error_sources.
Context `{Package}.

Lemma rpc_cases b :
  Bigtable.bt_tables (Bigtable.rpc b).1 = Bigtable.bt_tables b ∧
  Bigtable.bt_faults (Bigtable.rpc b).1 ⊆ Bigtable.bt_faults b ∧
  ∀ e, (Bigtable.rpc b).2 = Some e → Some e ∈ Bigtable.bt_faults b.
Proof.
  split; [apply rpc_tables|]. rewrite rpc_faults. split; [apply subseteq_drop|].
  unfold Bigtable.rpc. destruct (Bigtable.bt_faults b) as [|f fs]; simpl; [done|].
  intros e ->. apply list_elem_of_here.
Qed.

Lemma TableInfo_cases b table :
  Bigtable.bt_tables (Bigtable.TableInfo_ b table).1 = Bigtable.bt_tables b ∧
  Bigtable.bt_faults (Bigtable.TableInfo_ b table).1 ⊆ Bigtable.bt_faults b ∧
  ∀ e, (Bigtable.TableInfo_ b table).2 = inr e →
    Some e ∈ Bigtable.bt_faults b ∨ Bigtable.bt_tables b !! table = None.
Proof.
  unfold Bigtable.TableInfo_. destruct (rpc_cases b) as (Ht & Hf & He).
  destruct (Bigtable.rpc b) as [b1 [e|]]; simpl in *.
  - split_and!; [done..|]. intros e' [= <-]. left. by apply He.
  - rewrite Ht. destruct (Bigtable.bt_tables b !! table); simpl.
    + by split_and!.
    + split_and!; [done..|]. intros e' _. by right.
Qed.

Lemma ListTables_loop_error tables : ∀ c b output b' c' err,
  (∀ table, table ∈ tables → is_Some (Bigtable.bt_tables b !! table)) →
  ListTables_loop c b tables output = (b', c', inr err) →
  ∃ answer, Some answer ∈ Bigtable.bt_faults b ∧ err = ErrWrap answer "client.TableInfo".
Proof.
  induction tables as [|table tables IH]; intros c b output b' c' err Hex; simpl; [done|].
  assert (∀ b1 r, Bigtable.TableInfo_ b table = (b1, r) →
            Bigtable.bt_tables b1 = Bigtable.bt_tables b ∧
            Bigtable.bt_faults b1 ⊆ Bigtable.bt_faults b ∧
            ∀ e, r = inr e → Some e ∈ Bigtable.bt_faults b) as Hinfo.
  { intros b1 r Hr. destruct (TableInfo_cases b table) as (Ht & Hf & He).
    rewrite Hr in Ht, Hf, He. simpl in *. split_and!; [done..|].
    intros e ->. destruct (He e eq_refl) as [?|Hnone]; [done|].
    destruct (Hex table) as [tb Htb]; [apply list_elem_of_here|]. congruence. }
  assert (∀ b1 info rest,
            Bigtable.bt_tables b1 = Bigtable.bt_tables b →
            Bigtable.bt_faults b1 ⊆ Bigtable.bt_faults b →
            (if hasColumnFamily (Bigtable.ti_FamilyInfos info)
             then ListTables_loop c b1 tables (output ++ [table])
             else ListTables_loop (with_tableInfo c (<[table:=info]> (tableInfo c)))
                    b1 tables output) = (b', c', inr err) →
            rest = () →
            ∃ answer, Some answer ∈ Bigtable.bt_faults b ∧
                      err = ErrWrap answer "client.TableInfo") as Hnext.
  { intros b1 info rest Ht Hf Hloop _.
    assert (∀ t, t ∈ tables → is_Some (Bigtable.bt_tables b1 !! t)) as Hex1.
    { intros t Ht'. rewrite Ht. by apply Hex, list_elem_of_further. }
    destruct (hasColumnFamily (Bigtable.ti_FamilyInfos info));
      apply IH in Hloop as (answer & Hin & ->); [|done| |done];
      exists answer; split; [by apply Hf|done|by apply Hf|done]. }
  destruct (tableInfo c !! table) as [cached|].
  - destruct (TableCacheEnabled (cfg c)); simpl.
    + intros Hloop. by eapply (Hnext b cached ()).
    + destruct (Bigtable.TableInfo_ b table) as [b1 [info|e]] eqn:Hr.
      * destruct (Hinfo _ _ eq_refl) as (Ht & Hf & _).
        intros Hloop. by eapply (Hnext b1 info ()).
      * destruct (Hinfo _ _ eq_refl) as (_ & _ & He).
        intros [= <- <- <-]. exists e. split; [by apply He|done].
  - destruct (Bigtable.TableInfo_ b table) as [b1 [info|e]] eqn:Hr.
    + destruct (Hinfo _ _ eq_refl) as (Ht & Hf & _).
      intros Hloop. by eapply (Hnext b1 info ()).
    + destruct (Hinfo _ _ eq_refl) as (_ & _ & He).
      intros [= <- <- <-]. exists e. split; [by apply He|done].
Qed.

(** X29: [ListTables] fails only when a call to the store fails in transit.
    The error it returns wraps such a transport error, under the name of the
    listing call (and then the receiver is untouched) or of the metadata
    call.  In particular the store never answers "not found" for a table it
    has just listed, and with no fault pending [ListTables] succeeds whatever
    its cache holds. *)
Theorem ListTables_fails_only_in_transit c b now now' b' c' err :
  ListTables c b now now' = (b', c', inr err) →
  ∃ answer,
    Some answer ∈ Bigtable.bt_faults b ∧
    (err = ErrWrap answer "client.Tables" ∧ c' = c ∨
     err = ErrWrap answer "client.TableInfo").
Proof.
  unfold ListTables, Bigtable.Tables. destruct (rpc_cases b) as (Ht & Hf & He).
  destruct (Bigtable.rpc b) as [b1 [e|]]; simpl in *.
  - intros [= <- <- <-]. exists e. split; [by apply He|]. by left.
  - intros (answer & Hin & ->)%ListTables_loop_error.
    + exists answer. split; [by apply Hf|]. by right.
    + intros table ([t tb] & -> & Hin%elem_of_map_to_list)%list_elem_of_fmap.
      by exists tb.
Qed.

Lemma PutChunks_group_error chunks : ∀ keys muts err,
  PutChunks_group chunks keys muts = inr err →
  ∃ c, c ∈ chunks ∧ PutChunks_rejects c = Some err.
Proof.
  induction chunks as [|c chunks IH]; intros keys muts err; simpl; [done|].
  destruct (Encoded c) as [buf|e] eqn:Henc.
  - destruct (ChunkTableFor (From c)) as [tn|e] eqn:Htn.
    + intros (c' & ? & ?)%IH. exists c'. split; [by apply list_elem_of_further|done].
    + intros [= <-]. exists c. split; [apply list_elem_of_here|].
      unfold PutChunks_rejects. by rewrite Henc, Htn.
  - intros [= <-]. exists c. split; [apply list_elem_of_here|].
    unfold PutChunks_rejects. by rewrite Henc.
Qed.

Lemma first_error_replicate_Some n e :
  first_error (replicate n (Some e)) = if decide (n = 0%nat) then None else Some e.
Proof. by destruct n. Qed.

Lemma ApplyBulk_cases b tn ks ms writes :
  length ks = length ms → zip ks ms = chunk_entries writes →
  Bigtable.bt_faults (Bigtable.ApplyBulk b tn ks ms).1.1 ⊆ Bigtable.bt_faults b ∧
  match (Bigtable.ApplyBulk b tn ks ms).2 with
  | Some e =>
      Some e ∈ Bigtable.bt_faults b ∨
      (Bigtable.bt_tables b !! tn = None ∧ e = Bigtable.notFound tn)
  | None =>
      ∀ e, first_error (Bigtable.ApplyBulk b tn ks ms).1.2 = Some e →
        ∃ tb, Bigtable.bt_tables b !! tn = Some tb ∧
              (columnFamily ∉ Bigtable.family_names (Bigtable.tb_families tb)) ∧
              e = ErrStatus CodeNotFound columnFamily
  end.
Proof.
  intros Hlen Hzip. unfold Bigtable.ApplyBulk.
  rewrite decide_False by (intros Hn; by apply Hn).
  destruct (rpc_cases b) as (Ht & Hf & He). pose proof (rpc_clock b) as Hc.
  destruct (Bigtable.rpc b) as [b1 [e|]]; simpl in *.
  { split; [done|]. left. by apply He. }
  rewrite Ht. destruct (Bigtable.bt_tables b !! tn) as [tb|] eqn:Htb; simpl.
  2:{ split; [done|]. by right. }
  rewrite Hzip.
  destruct (decide (columnFamily ∈ Bigtable.family_names (Bigtable.tb_families tb)))
    as [Hin|Hnot].
  - destruct (apply_entries_chunks (Bigtable.bt_clock b1)
                (Bigtable.family_names (Bigtable.tb_families tb)) writes
                (Bigtable.tb_rows tb) Hin) as (rows' & -> & _).
    simpl. split; [done|]. intros e. by rewrite first_error_replicate_None.
  - rewrite apply_entries_no_family by done. simpl. split; [done|].
    intros e. rewrite first_error_replicate_Some. case_decide; [done|].
    intros [= <-]. by exists tb.
Qed.

Lemma PutChunks_apply_error keys muts (W : string → list (string * bytes)) names :
  (∀ tn,
     length (default [] (keys !! tn)) = length (default [] (muts !! tn)) ∧
     zip (default [] (keys !! tn)) (default [] (muts !! tn)) = chunk_entries (W tn)) →
  ∀ b b' err,
    PutChunks_apply b names keys muts = (b', Some err) →
    Some err ∈ Bigtable.bt_faults b ∨
    ∃ tn, tn ∈ names ∧
      match Bigtable.bt_tables b !! tn with
      | None => err = Bigtable.notFound tn
      | Some tb =>
          (columnFamily ∉ Bigtable.family_names (Bigtable.tb_families tb)) ∧
          err = ErrStatus CodeNotFound columnFamily
      end.
Proof.
  intros Hw. induction names as [|tn names IH]; intros b b' err; simpl; [done|].
  destruct (Hw tn) as [Hlen Hzip].
  destruct (ApplyBulk_cases b tn _ _ (W tn) Hlen Hzip) as [Hf Hcase].
  pose proof (ApplyBulk_kept (λ tn, (W tn).*1) b tn _ _ (W tn) Hzip
                (reflexivity _)) as Hkept.
  destruct (Bigtable.ApplyBulk b tn _ _) as [[b1 errs] [e|]]; simpl in *.
  - intros [= <- <-]. destruct Hcase as [?|[Hnone ->]]; [by left|].
    right. exists tn. split; [apply list_elem_of_here|]. by rewrite Hnone.
  - destruct (first_error errs) as [e|] eqn:Herrs.
    + intros [= <- <-]. destruct (Hcase e eq_refl) as (tb & Htb & Hnot & ->).
      right. exists tn. split; [apply list_elem_of_here|]. by rewrite Htb.
    + intros [Hin|(tn' & Htn' & Hmatch)]%IH; [left; by apply Hf|].
      right. exists tn'. split; [by apply list_elem_of_further|].
      specialize (Hkept tn').
      destruct (Bigtable.bt_tables b !! tn') as [tb|].
      * destruct Hkept as (tb' & Htb' & Hfams & _). rewrite Htb' in Hmatch.
        by rewrite <-Hfams.
      * by rewrite Hkept in Hmatch.
Qed.

(** X30: the errors of [PutChunks], which it returns as they are.  An error
    returned is the error of the codec or of the schema on a chunk of the
    batch, a transport error that was pending, or the answer of the store for
    the table of a chunk of the batch: that the table does not exist, or that
    it has no chunk family.  The length check of [ApplyBulk] never fails. *)
Theorem PutChunks_error_kinds range b chunks b' err :
  (∀ l, range l ≡ₚ l) →
  PutChunks range b chunks = (b', Some err) →
  (∃ c, c ∈ chunks ∧ PutChunks_rejects c = Some err) ∨
  Some err ∈ Bigtable.bt_faults b ∨
  ∃ c table, c ∈ chunks ∧ routed table c ∧
    match Bigtable.bt_tables b !! table with
    | None => err = Bigtable.notFound table
    | Some tb =>
        (columnFamily ∉ Bigtable.family_names (Bigtable.tb_families tb)) ∧
        err = ErrStatus CodeNotFound columnFamily
    end.
Proof.
  intros Hrange. unfold PutChunks.
  destruct (PutChunks_group chunks ∅ ∅) as [[keys muts]|e] eqn:Hg.
  2:{ intros [= <- <-]. left. by eapply PutChunks_group_error. }
  intros Happly. right.
  apply (PutChunks_apply_error keys muts (λ tn, table_writes tn chunks)) in Happly
    as [?|(tn & Htn & Hmatch)]; [by left| |].
  - right. rewrite Hrange in Htn.
    apply list_elem_of_fmap in Htn as ([t ks] & -> & Hks%elem_of_map_to_list).
    destruct (proj1 (PutChunks_group_tables _ _ _ _ _ Hg t)) as [Hks'|(c & Hc & Hr)];
      [by eexists| |].
    + rewrite lookup_empty in Hks'. by destruct Hks'.
    + by exists c, t.
  - intros tn. destruct (PutChunks_group_entries _ _ _ _ _ Hg tn) as [Hlen Hzip]; [done|].
    split; [done|]. by rewrite lookup_empty in Hzip.
Qed.

End error_sources.

(** ** The further statements at the sample implementation *)

Lemma ListTables_lists_family_tables_witness :
  (@ListTables (sample 2) (NewTableClient caching) store_with_table 100 101).1.1
    = store_with_table ∧
  (@ListTables (sample 2) (NewTableClient caching) store_with_table 100 101).2
    = inl (@family_tables (sample 2) store_with_table) ∧
  NoDup (@family_tables (sample 2) store_with_table) ∧
  ∀ table, table ∈ @family_tables (sample 2) store_with_table ↔
           @store_has_family (sample 2) store_with_table table.
Proof.
  apply (@ListTables_lists_family_tables (sample 2) (NewTableClient caching)
           store_with_table 100 101 eq_refl).
  left. reflexivity.
Defined.

Lemma ListTables_returns_existing_tables_witness :
  ["chunks_0"%string]
    `sublist_of` (map_to_list (Bigtable.bt_tables store_with_table)).*1 ∧
  NoDup ["chunks_0"%string] ∧
  ∀ table, table ∈ ["chunks_0"%string] →
           is_Some (Bigtable.bt_tables store_with_table !! table).
Proof.
  refine (@ListTables_returns_existing_tables (sample 2) (NewTableClient caching)
            store_with_table 100 101 _ _ ["chunks_0"%string] _).
  by vm_compute.
Defined.

Lemma ListTables_cached_table_omitted_witness :
  ("chunks_0"%string ∉ ([] : list string)) ∧
  tableInfo (@ListTables (sample 2) stale_client store_with_table 100 101).1.2
    !! "chunks_0"%string
  = Some {| Bigtable.ti_Families := []; Bigtable.ti_FamilyInfos := [] |}.
Proof.
  refine (@ListTables_cached_table_omitted (sample 2) stale_client store_with_table
            100 101 "chunks_0" _
            (@ListTables (sample 2) stale_client store_with_table 100 101).1.1
            _ [] eq_refl _ eq_refl eq_refl _).
  - simpl. lia.
  - by vm_compute.
Defined.

Lemma ListTables_cache_window_witness :
  tableExpiration
    (@ListTables (sample 2) (NewTableClient caching) store_with_table 100 101).1.2
  = 111%Z.
Proof.
  refine (proj1 (proj1 (proj2 (@ListTables_cache_window (sample 2)
                                 (NewTableClient caching) store_with_table 100 101
                                 store_with_table ["chunks_0"%string] _)) _)).
  - by vm_compute.
  - reflexivity.
Defined.

Lemma CreateTable_establishes_family_witness :
  ∃ b',
    @CreateTable (sample 2) empty_store {| td_Name := "chunks_0" |} = (b', None) ∧
    @store_has_family (sample 2) b' "chunks_0" ∧
    Bigtable.bt_tables b' !! "chunks_0"%string = Some (@new_table (sample 2)).
Proof.
  destruct (@CreateTable_establishes_family (sample 2) empty_store
              {| td_Name := "chunks_0" |} eq_refl) as (b' & ? & ? & _ & _ & Hnew).
  exists b'. split_and!; [done..|]. by apply Hnew.
Defined.

Lemma CreateTable_then_ListTables_witness :
  ∃ out,
    (@ListTables (sample 2) (NewTableClient caching)
       (@CreateTable (sample 2) empty_store {| td_Name := "chunks_0" |}).1
       100 101).2 = inl out ∧
    "chunks_0"%string ∈ out.
Proof.
  apply (@CreateTable_then_ListTables (sample 2) empty_store
           {| td_Name := "chunks_0" |} (NewTableClient caching) 100 101 eq_refl).
  left. reflexivity.
Defined.

Lemma DeleteTable_effect_witness :
  is_Some (Bigtable.bt_tables store_with_table !! "chunks_0"%string) ∧
  Bigtable.bt_tables (DeleteTable stale_client store_with_table "chunks_0").1.1
    = delete "chunks_0"%string (Bigtable.bt_tables store_with_table) ∧
  tableInfo (DeleteTable stale_client store_with_table "chunks_0").1.2
    = delete "chunks_0"%string (tableInfo stale_client) ∧
  cfg (DeleteTable stale_client store_with_table "chunks_0").1.2 = cfg stale_client ∧
  tableExpiration (DeleteTable stale_client store_with_table "chunks_0").1.2
    = tableExpiration stale_client.
Proof.
  exact (DeleteTable_effect stale_client store_with_table "chunks_0"
           (DeleteTable stale_client store_with_table "chunks_0").1.1
           (DeleteTable stale_client store_with_table "chunks_0").1.2
           None eq_refl).
Defined.

Lemma DeleteTable_then_not_listed_witness :
  ("chunks_0"%string ∉ ([] : list string)) ∧
  tableInfo (DeleteTable stale_client store_with_table "chunks_0").1.2
    !! "chunks_0"%string = None.
Proof.
  refine (@DeleteTable_then_not_listed (sample 2) stale_client store_with_table
            "chunks_0"
            (DeleteTable stale_client store_with_table "chunks_0").1.1
            (DeleteTable stale_client store_with_table "chunks_0").1.2
            (NewTableClient caching) 100 101 _ _ [] eq_refl _).
  by vm_compute.
Defined.

Lemma PutChunks_rejects_before_writing_witness :
  @PutChunks (sample 2) id store_with_table [chunk1; chunk_unrouted]
  = (store_with_table, Some (ErrOther "no table for this time")).
Proof.
  apply (@PutChunks_rejects_before_writing (sample 2) id store_with_table
           [chunk1] chunk_unrouted []).
  - by repeat constructor.
  - reflexivity.
Defined.


Lemma PutChunks_succeeds_iff_witness :
  (@PutChunks (sample 2) id store_with_table [chunk1]).2 = None.
Proof.
  apply (proj2 (@PutChunks_succeeds_iff (sample 2) id store_with_table [chunk1]
                  (λ l, reflexivity l)) eq_refl).
  intros c ->%list_elem_of_singleton. split; [reflexivity|].
  exists "chunks_0"%string. split; [reflexivity|].
  eexists. split; reflexivity.
Defined.

Lemma PutChunks_idempotent_witness :
  ∃ b2,
    @PutChunks (sample 2) id store_with_chunk [chunk1] = (b2, None) ∧
    Bigtable.bt_tables b2 = Bigtable.bt_tables store_with_chunk.
Proof.
  exact (@PutChunks_idempotent (sample 2) id id store_with_table [chunk1]
           store_with_chunk (λ l, reflexivity l) (λ l, reflexivity l)
           PutChunks_sample eq_refl).
Defined.

Lemma GetChunks_routing_error_first_witness :
  is_Some (@GetChunks (sample 2) store_with_chunk None [chunk1; chunk_unrouted] []) ∧
  ∀ sched s,
    @GetChunks (sample 2) store_with_chunk None [chunk1; chunk_unrouted] sched
      = Some s →
    st_result s = Some (inr (ErrOther "no table for this time")) ∧
    st_bt s = store_with_chunk ∧ st_tasks s = [].
Proof.
  apply (@GetChunks_routing_error_first (sample 2) store_with_chunk None
           [chunk1] chunk_unrouted []).
  - constructor; [|constructor]. by exists "chunks_0"%string.
  - reflexivity.
Defined.

Lemma pages_of_key_list_witness :
  ∃ ps,
    @pages (sample 2) ["a"; "b"; "c"; "d"; "e"]%string = Some ps ∧
    length ps = 3%nat ∧
    mjoin ps = ["a"; "b"; "c"; "d"; "e"]%string ∧
    ∀ j p, ps !! j = Some p →
      p = take 2 (drop (j * 2) ["a"; "b"; "c"; "d"; "e"]%string) ∧ p ≠ [].
Proof.
  apply (proj1 (@pages_of_key_list (sample 2) ["a"; "b"; "c"; "d"; "e"]%string)).
  simpl. lia.
Defined.

Lemma GetChunks_only_reads_witness :
  ∃ s,
    @GetChunks (sample 2) store_with_chunk None [chunk1] [EvGo 0] = Some s ∧
    Bigtable.bt_tables (st_bt s) = Bigtable.bt_tables store_with_chunk ∧
    Bigtable.bt_clock (st_bt s) = Bigtable.bt_clock store_with_chunk ∧
    Bigtable.bt_faults (st_bt s)
      = drop (sum_list_with reads_made (st_tasks s))
          (Bigtable.bt_faults store_with_chunk) ∧
    (sum_list_with reads_made (st_tasks s) ≤ length (st_tasks s))%nat ∧
    (length (st_tasks s) ≤ 1)%nat.
Proof.
  eexists. split; [by vm_compute|].
  apply (@GetChunks_only_reads (sample 2) store_with_chunk None [chunk1] [EvGo 0]).
  by vm_compute.
Defined.


Lemma cells_present_sample :
  @cells_present (sample 2) store_with_chunk [chunk1; chunk2].
Proof.
  intros c table tb row _ _ Htb Hrow.
  unfold store_with_chunk, Bigtable.bt_tables in Htb.
  apply lookup_singleton_Some in Htb as [_ <-].
  unfold chunks_table, Bigtable.tb_rows in Hrow.
  apply lookup_singleton_Some in Hrow as [_ <-]. done.
Qed.

Lemma GetChunks_can_return_witness :
  ∃ sched s r,
    @GetChunks (sample 2) store_with_chunk None [chunk1; chunk2] sched = Some s ∧
    st_result s = Some r ∧ st_ctx s = None.
Proof.
  apply (@GetChunks_can_return (sample 2) store_with_chunk None [chunk1; chunk2]).
  - simpl. lia.
  - exact cells_present_sample.
Defined.

Lemma ListTables_repeatable_witness :
  (@ListTables (sample 2)
     (@ListTables (sample 2) (NewTableClient caching) store_with_table 100 101).1.2
     (@ListTables (sample 2) (NewTableClient caching) store_with_table 100 101).1.1
     105 106).2
  = (@ListTables (sample 2) (NewTableClient caching) store_with_table 100 101).2.
Proof.
  apply (@ListTables_repeatable (sample 2) (NewTableClient caching) store_with_table
           100 101 105 106 eq_refl).
  left. reflexivity.
Defined.

Lemma CreateTable_again_changes_nothing_witness :
  @CreateTable (sample 2)
    (@CreateTable (sample 2) empty_store {| td_Name := "chunks_0" |}).1
    {| td_Name := "chunks_0" |}
  = ((@CreateTable (sample 2) empty_store {| td_Name := "chunks_0" |}).1, None).
Proof.
  exact (@CreateTable_again_changes_nothing (sample 2) empty_store
           {| td_Name := "chunks_0" |} eq_refl).
Defined.

Lemma PutChunks_one_call_per_table_witness :
  ∃ tables,
    NoDup tables ∧
    (∀ tn, tn ∈ tables ↔ ∃ c, c ∈ [chunk1] ∧ @routed (sample 2) tn c) ∧
    Bigtable.bt_faults store_with_chunk
      = drop (length tables) (Bigtable.bt_faults store_with_table) ∧
    Bigtable.bt_clock store_with_chunk = Bigtable.bt_clock store_with_table.
Proof.
  exact (@PutChunks_one_call_per_table (sample 2) id store_with_table [chunk1]
           store_with_chunk (λ l, reflexivity l) PutChunks_sample).
Defined.

Lemma CreateTable_then_PutChunks_witness :
  (@PutChunks (sample 2) id
     (@CreateTable (sample 2) empty_store {| td_Name := "chunks_0" |}).1
     [chunk1; chunk2]).2 = None.
Proof.
  apply (@CreateTable_then_PutChunks (sample 2) id empty_store
           {| td_Name := "chunks_0" |} [chunk1; chunk2] (λ l, reflexivity l) eq_refl).
  intros c [->|[->|?%elem_of_nil]%elem_of_cons]%elem_of_cons; [| |done];
    split; reflexivity.
Defined.

Lemma DeleteTable_then_PutChunks_fails_witness :
  is_Some
    (@PutChunks (sample 2) id
       (DeleteTable stale_client store_with_chunk "chunks_0").1.1 [chunk1]).2.
Proof.
  apply (@DeleteTable_then_PutChunks_fails (sample 2) id stale_client
           store_with_chunk "chunks_0"
           (DeleteTable stale_client store_with_chunk "chunks_0").1.1
           (DeleteTable stale_client store_with_chunk "chunks_0").1.2
           [chunk1] chunk1 (λ l, reflexivity l) eq_refl).
  - apply list_elem_of_here.
  - reflexivity.
Defined.

Lemma GetChunks_error_kinds_witness :
  ∃ s,
    @GetChunks (sample 2) empty_store None [chunk1] [EvGo 0; EvGo 0; EvRecvErr]
      = Some s ∧
    st_result s = Some (inr (ErrWithStack (Bigtable.notFound "chunks_0"))) ∧
    ((∃ c, c ∈ [chunk1] ∧
           @ChunkTableFor (sample 2) (From c)
             = inr (ErrWithStack (Bigtable.notFound "chunks_0"))) ∨
     st_ctx s = Some (ErrWithStack (Bigtable.notFound "chunks_0")) ∨
     (∃ key, ErrWithStack (Bigtable.notFound "chunks_0")
             = ErrWithStack (ErrUnknownChunk key)) ∨
     (∃ c buf, c ∈ [chunk1] ∧
               @Decode (sample 2) c buf
                 = inr (ErrWithStack (Bigtable.notFound "chunks_0"))) ∨
     (∃ answer, ErrWithStack (Bigtable.notFound "chunks_0") = ErrWithStack answer ∧
                (Some answer ∈ Bigtable.bt_faults empty_store ∨
                 ∃ table, answer = Bigtable.notFound table)) ∨
     (∃ asked received,
        ErrWithStack (Bigtable.notFound "chunks_0")
          = ErrWithStack (ErrAsked asked received) ∧ (received < asked)%nat)).
Proof.
  eexists. split; [by vm_compute|]. split; [reflexivity|].
  apply (@GetChunks_error_kinds (sample 2) empty_store None [chunk1]
           [EvGo 0; EvGo 0; EvRecvErr]).
  - by vm_compute.
  - reflexivity.
Defined.

Lemma holds_sample : ∀ c, c ∈ [chunk1] → @holds (sample 2) store_with_chunk c.
Proof.
  apply (@PutChunks_holds (sample 2) id store_with_table [chunk1] store_with_chunk
           (λ l, reflexivity l) blank_store_with_table (NoDup_singleton _)
           PutChunks_sample).
Qed.

Lemma GetChunks_returns_the_request_witness :
  ∃ sched s out,
    @GetChunks (sample 2) store_with_chunk None [chunk1] sched = Some s ∧
    st_result s = Some (inl out) ∧ out ≡ₚ [chunk1].
Proof.
  apply (proj2 (@GetChunks_returns_the_request (sample 2) store_with_chunk None
                  [chunk1] eq_refl holds_sample (NoDup_singleton _)
                  (λ c buf _, sample_codec 2 c buf))).
  - reflexivity.
  - simpl. lia.
Defined.

Lemma blank_empty_store : blank empty_store.
Proof. intros table tb Htb. by vm_compute in Htb. Qed.

Lemma create_write_read_witness :
  ∃ b1 b2,
    @CreateTable (sample 2) empty_store {| td_Name := "chunks_0" |} = (b1, None) ∧
    @PutChunks (sample 2) id b1 [chunk1; chunk2] = (b2, None) ∧
    ∃ sched s out,
      @GetChunks (sample 2) b2 None [chunk2] sched = Some s ∧
      st_result s = Some (inl out) ∧ out ≡ₚ [chunk2].
Proof.
  destruct (@create_write_read (sample 2) id empty_store {| td_Name := "chunks_0" |}
              [chunk1; chunk2] [chunk2] None (λ l, reflexivity l)
              blank_empty_store eq_refl)
    as (b1 & b2 & Hcreate & Hput & _ & Hex).
  - intros c [->|[->|?%elem_of_nil]%elem_of_cons]%elem_of_cons; [| |done];
      split; reflexivity.
  - apply (bool_decide_unpack _). by vm_compute.
  - intros c buf _. apply sample_codec.
  - apply sublist_cons, sublist_skip, sublist_nil.
  - exists b1, b2. split; [done|]. split; [done|]. apply Hex; [reflexivity|simpl; lia].
Defined.

Lemma ListTables_fails_only_in_transit_witness :
  ∃ answer,
    Some answer ∈ Bigtable.bt_faults store_with_fault ∧
    (ErrWrap (ErrStatus CodeUnavailable "connection lost") "client.Tables"
       = ErrWrap answer "client.Tables" ∧
     NewTableClient caching = NewTableClient caching ∨
     ErrWrap (ErrStatus CodeUnavailable "connection lost") "client.Tables"
       = ErrWrap answer "client.TableInfo").
Proof.
  refine (@ListTables_fails_only_in_transit (sample 2) (NewTableClient caching)
            store_with_fault 100 101 _ (NewTableClient caching)
            (ErrWrap (ErrStatus CodeUnavailable "connection lost") "client.Tables") _).
  by vm_compute.
Defined.

Lemma PutChunks_error_kinds_witness :
  (∃ c, c ∈ [chunk1] ∧
        @PutChunks_rejects (sample 2) c = Some (Bigtable.notFound "chunks_0")) ∨
  Some (Bigtable.notFound "chunks_0") ∈ Bigtable.bt_faults empty_store ∨
  ∃ c table, c ∈ [chunk1] ∧ @routed (sample 2) table c ∧
    match Bigtable.bt_tables empty_store !! table with
    | None => Bigtable.notFound "chunks_0" = Bigtable.notFound table
    | Some tb =>
        (@columnFamily (sample 2)
           ∉ Bigtable.family_names (Bigtable.tb_families tb)) ∧
        Bigtable.notFound "chunks_0" = ErrStatus CodeNotFound (@columnFamily (sample 2))
    end.
Proof.
  refine (@PutChunks_error_kinds (sample 2) id empty_store [chunk1] _
            (Bigtable.notFound "chunks_0") (λ l, reflexivity l) _).
  by vm_compute.
Defined.
